(** * Reservoir pedigree visualizer

    A shallow embedding of the diagram component [ReservoirGraph]
    (web/src): the fixed layout of the hub and its three satellite
    columns, the content bounds used as the SVG viewBox, the
    right-angle connectors, the node groups with the hub text fitter,
    the legend and the zoom buttons; of the configuration parser
    [parseReservoirConfig] that builds the graphs; and of the
    selection made by the application component [App].

    Conventions.
    - A JavaScript number is a rational [Q]; every constant of the
      component is a decimal literal and the arithmetic used is
      [+ - * /] with [Math.min] / [Math.max], so the embedding computes
      with exact values.  Where a value may be [undefined] or [NaN]
      (an optional [fx] / [fy] that was never assigned) it is an
      [option Q] and [None] stands for "not a number".
    - Objects live in a heap of property records linked by prototype
      pointers; an array of objects is a list of heap locations. *)

From Stdlib Require Import QArith Qminmax Lqa ZArith String Ascii.
From Stdlib Require Import Qround DecimalString DecimalNat DecimalZ.
From stdpp Require Import base list option.

(** ** Graph data (reservoirData.ts) *)

Inductive NodeType := main_reservoir | inflow | outflow | project.

Definition NodeType_eqb (a b : NodeType) : bool :=
  match a, b with
  | main_reservoir, main_reservoir | inflow, inflow
  | outflow, outflow | project, project => true
  | _, _ => false
  end.

(** ** Objects, prototypes and the heap *)

Abbreviation loc := nat (only parsing).

(** The own properties of one object.  [INode] has [id], [label],
    [type] and the optional [fx], [fy]; [ILink] has [source] and
    [target].  A property that the object does not own is [None]. *)
Record Obj := mkObj {
  proto : option loc;
  own_id : option string;
  own_label : option string;
  own_type : option NodeType;
  own_fx : option Q;
  own_fy : option Q;
  own_source : option string;
  own_target : option string
}.

Abbreviation heap := (list Obj).

(** Object literals [{ id, label, type }] and [{ source, target }]. *)
Definition node_literal (i l : string) (t : NodeType) : Obj :=
  mkObj None (Some i) (Some l) (Some t) None None None None.

Definition link_literal (s t : string) : Obj :=
  mkObj None None None None None None (Some s) (Some t).

(** [o.p]: the own property if there is one, else the prototype's.
    The walk along the prototype chain is bounded by [fuel]; [get]
    gives it one step more than there are objects, which is never
    used up on a heap whose chains descend ([get_unfold] below). *)
Fixpoint lookup_chain {A} (sel : Obj → option A) (h : heap)
    (fuel : nat) (a : loc) : option A :=
  match fuel with
  | O => None
  | S fuel' =>
      match h !! a with
      | None => None
      | Some o =>
          match sel o with
          | Some v => Some v
          | None =>
              match proto o with
              | Some p => lookup_chain sel h fuel' p
              | None => None
              end
          end
      end
  end.

Definition get {A} (sel : Obj → option A) (h : heap) (a : loc) : option A :=
  lookup_chain sel h (S (length h)) a.

(** [o.fx = v] and [o.fy = v]: assignment defines an own property of
    the receiver, whatever its prototype holds.  (The records are
    ordinary data objects: no setters, nothing frozen.) *)
Definition with_fx (v : Q) (o : Obj) : Obj :=
  mkObj (proto o) (own_id o) (own_label o) (own_type o)
        (Some v) (own_fy o) (own_source o) (own_target o).

Definition with_fy (v : Q) (o : Obj) : Obj :=
  mkObj (proto o) (own_id o) (own_label o) (own_type o)
        (own_fx o) (Some v) (own_source o) (own_target o).

Definition set_fx (a : loc) (v : Q) (h : heap) : heap := alter (with_fx v) a h.
Definition set_fy (a : loc) (v : Q) (h : heap) : heap := alter (with_fy v) a h.

(** [Object.create(d)]: a fresh object without own properties whose
    prototype is [d]. *)
Definition blank (d : loc) : Obj :=
  mkObj (Some d) None None None None None None None.

Definition object_create (d : loc) (h : heap) : heap * loc :=
  (h ++ [blank d], length h).

(** [ds.map((d) => Object.create(d))] *)
Fixpoint map_object_create (ds : list loc) (h : heap) : heap * list loc :=
  match ds with
  | [] => (h, [])
  | d :: ds' =>
      let '(h1, a) := object_create d h in
      let '(h2, l) := map_object_create ds' h1 in
      (h2, a :: l)
  end.

(** [arr.forEach((node, i) => body)] over an array of objects. *)
Fixpoint forEach_from (i : nat) (l : list loc)
    (body : loc → nat → heap → heap) (h : heap) : heap :=
  match l with
  | [] => h
  | a :: l' => forEach_from (S i) l' body (body a i h)
  end.

Definition forEach := forEach_from 0.

(** The caller's graph: two arrays of references to its records. *)
Record IGraphData := mkGraph {
  nodes : list loc;
  links : list loc
}.

(** ** Constants *)

Module LAYOUT.
Definition NODE_SPACING : Q := 40.
Definition HORIZONTAL_SPACING : Q := 220.
Definition PADDING : Q := 100.
Definition MAIN_RECT_WIDTH : Q := 180.
Definition MAIN_RECT_HEIGHT : Q := 80.
Definition MAIN_RECT_PADDING : Q := 10.
End LAYOUT.

Module ZOOM.
Definition MIN_SCALE : Q := 5 # 10.
Definition MAX_SCALE : Q := 3.
Definition INITIAL_SCALE : Q := 8 # 10.
Definition ZOOM_IN_FACTOR : Q := 13 # 10.
Definition ZOOM_OUT_FACTOR : Q := 7 # 10.
End ZOOM.

(** ** Fixed layout *)

(** [n.type === t] *)
Definition type_is (h : heap) (t : NodeType) (n : loc) : bool :=
  match get own_type h n with
  | Some t' => NodeType_eqb t' t
  | None => false
  end.

(** [arr.length] and a loop index, as numbers. *)
Definition len (l : list loc) : Q := inject_Z (Z.of_nat (length l)).
Definition idx (i : nat) : Q := inject_Z (Z.of_nat i).

Definition contentCenterX : Q := 0.
Definition contentCenterY : Q := 0.
Definition leftX : Q := contentCenterX.
Definition rightX : Q := contentCenterX.

(** The body shared by the column loops:
    [node.fx = x; node.fy = startY + i * NODE_SPACING]. *)
Definition column_body (x startY : Q) (node : loc) (i : nat) (h : heap)
    : heap :=
  set_fy node (startY + idx i * LAYOUT.NODE_SPACING)%Q (set_fx node x h).

Definition place_column (x startY : Q) (l : list loc) (h : heap) : heap :=
  forEach l (column_body x startY) h.

(** What the positioning leaves behind for the rest of the effect:
    the heap, the arrays [nodes] and [links] of copies, the nodes
    selected by type and the three start rows. *)
Record Placed := mkPlaced {
  p_heap : heap;
  p_nodes : list loc;
  p_links : list loc;
  inflowNodes : list loc;
  outflowNodes : list loc;
  projectNodes : list loc;
  mainNode : option loc;
  inflowStartY : Q;
  outflowStartY : Q;
  projectStartY : Q
}.

Definition centeredStartY (l : list loc) : Q :=
  (contentCenterY - ((len l - 1) * LAYOUT.NODE_SPACING) / 2)%Q.

(** The first half of the effect, up to the bounds: copy the records,
    select the nodes by type, position the hub, the inflow column and
    the right-hand column. *)
Definition position_nodes (data : IGraphData) (h0 : heap) : Placed :=
  let '(h1, ns) := map_object_create (nodes data) h0 in
  let '(h2, ls) := map_object_create (links data) h1 in
  let inflows := List.filter (type_is h2 inflow) ns in
  let outflows := List.filter (type_is h2 outflow) ns in
  let projects := List.filter (type_is h2 project) ns in
  let main := List.find (type_is h2 main_reservoir) ns in
  let h3 :=
    match main with
    | Some m => set_fy m contentCenterY (set_fx m contentCenterX h2)
    | None => h2
    end in
  let inflowStart := centeredStartY inflows in
  let h4 :=
    place_column (leftX - LAYOUT.HORIZONTAL_SPACING)%Q inflowStart inflows h3 in
  let hasOutflows := Nat.ltb 0 (length outflows) in
  let hasProjects := Nat.ltb 0 (length projects) in
  let right := (rightX + LAYOUT.HORIZONTAL_SPACING)%Q in
  if hasOutflows && hasProjects then
    let outflowConnectorY := (contentCenterY - LAYOUT.MAIN_RECT_HEIGHT / 4)%Q in
    let projectConnectorY := (contentCenterY + LAYOUT.MAIN_RECT_HEIGHT / 4)%Q in
    let outflowsHeight := ((len outflows - 1) * LAYOUT.NODE_SPACING)%Q in
    let outflowStart := (outflowConnectorY - outflowsHeight)%Q in
    let projectStart := projectConnectorY in
    let h5 := place_column right outflowStart outflows h4 in
    let h6 := place_column right projectStart projects h5 in
    mkPlaced h6 ns ls inflows outflows projects main
             inflowStart outflowStart projectStart
  else if hasOutflows then
    let outflowStart := centeredStartY outflows in
    let h5 := place_column right outflowStart outflows h4 in
    mkPlaced h5 ns ls inflows outflows projects main
             inflowStart outflowStart contentCenterY
  else if hasProjects then
    let projectStart := centeredStartY projects in
    let h5 := place_column right projectStart projects h4 in
    mkPlaced h5 ns ls inflows outflows projects main
             inflowStart contentCenterY projectStart
  else
    mkPlaced h4 ns ls inflows outflows projects main
             inflowStart contentCenterY contentCenterY.

(** Bounds for the viewBox. *)
Definition minX : Q := (leftX - LAYOUT.HORIZONTAL_SPACING - LAYOUT.PADDING)%Q.
Definition maxX : Q := (rightX + LAYOUT.HORIZONTAL_SPACING + 200)%Q.

Definition minY (p : Placed) : Q :=
  (Qmin (inflowStartY p) (outflowStartY p) - LAYOUT.PADDING)%Q.

Definition maxY (p : Placed) : Q :=
  (Qmax
     (inflowStartY p + (len (inflowNodes p) - 1) * LAYOUT.NODE_SPACING)
     (projectStartY p + (len (projectNodes p) - 1) * LAYOUT.NODE_SPACING)
   + LAYOUT.PADDING)%Q.

(** [node.fx], [node.fy] as read by the renderer. *)
Definition fx (h : heap) (n : loc) : option Q := get own_fx h n.
Definition fy (h : heap) (n : loc) : option Q := get own_fy h n.

(** ** Connectors *)

Record Color := mkColor { fill : string; stroke : string; label : string }.

Definition COLOR_MAP (t : NodeType) : Color :=
  match t with
  | main_reservoir => mkColor "#5B7FDB" "#4A6BC5" "Main Reservoir"
  | inflow => mkColor "#E88BA8" "#D67A97" "Inflows"
  | outflow => mkColor "#4DB8D8" "#3CA7C7" "Outflows"
  | project => mkColor "#4DB89A" "#3CA789" "Projects"
  end.

(** Arithmetic on values that may be [undefined] / [NaN]. *)
Definition nadd (a b : option Q) : option Q :=
  match a, b with Some u, Some v => Some (u + v)%Q | _, _ => None end.

Definition nsub (a b : option Q) : option Q :=
  match a, b with Some u, Some v => Some (u - v)%Q | _, _ => None end.

Definition ndiv (a b : option Q) : option Q :=
  match a, b with Some u, Some v => Some (u / v)%Q | _, _ => None end.

(** [a === b] on values that are a string or [undefined]. *)
Definition strict_eqb (a b : option string) : bool :=
  match a, b with
  | Some u, Some v => String.eqb u v
  | None, None => true
  | _, _ => false
  end.

(** [nodes.find((n) => n.id === key)] *)
Definition find_by_id (h : heap) (ns : list loc) (key : option string)
    : option loc :=
  List.find (λ n, strict_eqb (get own_id h n) key) ns.

(** The [d] attribute [M x1,y1 L midX,y1 L midX,y2 L x2,y2], kept as
    its commands instead of the formatted text. *)
Inductive PathCmd :=
| MoveTo (x y : option Q)
| LineTo (x y : option Q).

Record PathElement := mkPath {
  d : list PathCmd;
  path_stroke : string
}.

(** What the body of [links.forEach] does for one link: [return]
    early, append a path, or fail on [color.stroke] when
    [COLOR_MAP[targetType]] is [undefined]. *)
Inductive LinkResult :=
| Skipped
| Drawn (e : PathElement)
| Threw.

Definition linkTargetType (h : heap) (source target : loc) : option NodeType :=
  if type_is h main_reservoir target then
    (if type_is h inflow source then Some inflow else get own_type h source)
  else get own_type h target.

Definition pathStart (h : heap) (source target : loc) : option Q * option Q :=
  let x1 := fx h source in
  let y1 := fy h source in
  if type_is h main_reservoir source then
    let x1' := nadd (fx h source) (Some (LAYOUT.MAIN_RECT_WIDTH / 2)%Q) in
    if type_is h outflow target then
      (x1', nsub (fy h source) (Some (LAYOUT.MAIN_RECT_HEIGHT / 4)%Q))
    else if type_is h project target then
      (x1', nadd (fy h source) (Some (LAYOUT.MAIN_RECT_HEIGHT / 4)%Q))
    else (x1', y1)
  else (x1, y1).

Definition drawLink (h : heap) (ns : list loc) (link : loc) : LinkResult :=
  match find_by_id h ns (get own_source h link),
        find_by_id h ns (get own_target h link) with
  | Some source, Some target =>
      match linkTargetType h source target with
      | None => Threw
      | Some targetType =>
          let color := COLOR_MAP targetType in
          let '(x1, y1) := pathStart h source target in
          let x2 := fx h target in
          let y2 := fy h target in
          let midX := ndiv (nadd x1 x2) (Some 2%Q) in
          Drawn (mkPath [MoveTo x1 y1; LineTo midX y1;
                         LineTo midX y2; LineTo x2 y2]
                        (stroke color))
      end
  | _, _ => Skipped
  end.

(** [links.forEach(...)]: the paths appended to the link group, or
    [None] when an iteration throws. *)
Fixpoint drawLinks (h : heap) (ns : list loc) (ls : list loc)
    (group : list PathElement) : option (list PathElement) :=
  match ls with
  | [] => Some group
  | link :: ls' =>
      match drawLink h ns link with
      | Skipped => drawLinks h ns ls' group
      | Drawn e => drawLinks h ns ls' (group ++ [e])
      | Threw => None
      end
  end.

(** The whole pass on the caller's graph: copy, position, draw links. *)
Definition renderLinks (data : IGraphData) (h0 : heap)
    : option (list PathElement) :=
  let p := position_nodes data h0 in
  drawLinks (p_heap p) (p_nodes p) (p_links p) [].

(** ** Hub text *)

(** [\s] on code units below 256. *)
Definition is_space (c : ascii) : bool :=
  let n := nat_of_ascii c in
  (Nat.leb 9 n && Nat.leb n 13) || Nat.eqb n 32 || Nat.eqb n 160.

(** [text.split(/\s+/)]: [cur] is the piece being read, [in_ws] says
    that the previous character belonged to a separator. *)
Fixpoint split_go (s : string) (cur : string) (in_ws : bool) : list string :=
  match s with
  | EmptyString => [cur]
  | String c s' =>
      if is_space c then
        if in_ws then split_go s' cur true
        else cur :: split_go s' EmptyString true
      else split_go s' (String.append cur (String c EmptyString)) false
  end.

Definition split_ws (text : string) : list string :=
  split_go text EmptyString false.

(** A string is truthy when it is not empty. *)
Definition truthy (s : string) : bool :=
  match s with EmptyString => false | String _ _ => true end.

Record Fit := mkFit {
  fontSize : Q;
  fit_lines : list string;
  lineHeight : Q
}.

Record TextElement := mkText {
  text_y : Q;
  text_fontSize : Q;
  text_content : string
}.

Section TextFitter.

(** [measure line size]: [getComputedTextLength()] of the temporary
    text element holding [line] at font size [size] px. *)
Variable measure : string → Q → Q.

Definition wrap_step (maxWidth fontSize : Q)
    (st : list string * string) (word : string) : list string * string :=
  let '(lines, currentLine) := st in
  let testLine :=
    if truthy currentLine
    then String.append currentLine (String.append " " word)
    else word in
  let width := measure testLine fontSize in
  if negb (Qle_bool width maxWidth) && truthy currentLine
  then (lines ++ [currentLine], word)
  else (lines, testLine).

Definition wrapText (text : string) (maxWidth fontSize : Q) : list string :=
  let '(lines, currentLine) :=
    fold_left (wrap_step maxWidth fontSize) (split_ws text) ([], EmptyString) in
  if truthy currentLine then lines ++ [currentLine] else lines.

(** The [while (fontSize >= 10)] loop.  [fuel] bounds the number of
    tests of the loop condition. *)
Fixpoint fit_loop (fuel : nat) (label : string) (maxWidth maxHeight : Q)
    (st : Fit) : option Fit :=
  match fuel with
  | O => None
  | S fuel' =>
      if Qle_bool 10 (fontSize st) then
        let lines := wrapText label maxWidth (fontSize st) in
        let lineHeight := (fontSize st * (12 # 10))%Q in
        let totalHeight := (inject_Z (Z.of_nat (length lines)) * lineHeight)%Q in
        if Qle_bool totalHeight maxHeight
        then Some (mkFit (fontSize st) lines lineHeight)
        else fit_loop fuel' label maxWidth maxHeight
               (mkFit (fontSize st - 1)%Q lines lineHeight)
      else Some st
  end.

Definition hubMaxWidth : Q :=
  (LAYOUT.MAIN_RECT_WIDTH - LAYOUT.MAIN_RECT_PADDING * 2)%Q.
Definition hubMaxHeight : Q :=
  (LAYOUT.MAIN_RECT_HEIGHT - LAYOUT.MAIN_RECT_PADDING * 2)%Q.

Definition fitText (label : string) : option Fit :=
  fit_loop 8 label hubMaxWidth hubMaxHeight (mkFit 16 [] 0).

(** [lines.forEach((line, i) => g.append('text')...)] *)
Fixpoint drawLines_from (i : nat) (startY : Q) (f : Fit) (ls : list string)
    : list TextElement :=
  match ls with
  | [] => []
  | line :: ls' =>
      mkText (startY + idx i * lineHeight f)%Q (fontSize f) line
      :: drawLines_from (S i) startY f ls'
  end.

Definition drawHubText (label : string) : option (list TextElement) :=
  match fitText label with
  | None => None
  | Some f =>
      let totalTextHeight :=
        (inject_Z (Z.of_nat (length (fit_lines f))) * lineHeight f)%Q in
      let startY := (- totalTextHeight / 2 + lineHeight f * (8 # 10))%Q in
      Some (drawLines_from 0 startY f (fit_lines f))
  end.

End TextFitter.

(** ** Zoom *)

(** The parts of the d3-zoom library that the buttons call, after the
    library's documentation: a transform is [(k, x, y)];
    [zoomIdentity] is [(1, 0, 0)]; [t.scale(s)] multiplies [k];
    [zoom.transform] installs the given transform as it is;
    [zoom.scaleBy] multiplies [k], clamps it to the scale extent and
    keeps the centre of the viewport extent fixed.  The translate
    extent is left at its unbounded default, so no further constraint
    applies.  A transition is taken at its end state. *)
Module d3.

Record Transform := mkTransform { k : Q; x : Q; y : Q }.

Definition zoomIdentity : Transform := mkTransform 1 0 0.

Definition scale (t : Transform) (s : Q) : Transform :=
  mkTransform (k t * s)%Q (x t) (y t).

Definition invert (t : Transform) (p : Q * Q) : Q * Q :=
  (((fst p - x t) / k t)%Q, ((snd p - y t) / k t)%Q).

Definition clampScale (extent : Q * Q) (t : Transform) (k1 : Q) : Transform :=
  mkTransform (Qmax (fst extent) (Qmin (snd extent) k1)) (x t) (y t).

Definition translateTo (t : Transform) (p0 p1 : Q * Q) : Transform :=
  mkTransform (k t) (fst p0 - fst p1 * k t)%Q (snd p0 - snd p1 * k t)%Q.

Definition scaleTo (extent : Q * Q) (centre : Q * Q) (t0 : Transform) (k1 : Q)
    : Transform :=
  translateTo (clampScale extent t0 k1) centre (invert t0 centre).

Definition scaleBy (extent : Q * Q) (centre : Q * Q) (t0 : Transform) (f : Q)
    : Transform :=
  scaleTo extent centre t0 (k t0 * f)%Q.

End d3.

(** The state behind the zoom buttons: the transform stored on the
    SVG element, the [zoomLevel] shown as a percentage, and the centre
    of the SVG's extent. *)
Record Viewport := mkViewport {
  transform : d3.Transform;
  zoomLevel : Q;
  centre : Q * Q
}.

Definition scaleExtent : Q * Q := (ZOOM.MIN_SCALE, ZOOM.MAX_SCALE).

(** The ['zoom'] listener: [setZoomLevel(event.transform.k)]. *)
Definition on_zoom (v : Viewport) (t : d3.Transform) : Viewport :=
  mkViewport t (d3.k t) (centre v).

(** "Set initial zoom" in the effect that builds the scene. *)
Definition mount (c : Q * Q) : Viewport :=
  on_zoom (mkViewport d3.zoomIdentity ZOOM.INITIAL_SCALE c)
          (d3.scale d3.zoomIdentity ZOOM.INITIAL_SCALE).

Definition handleZoomIn (v : Viewport) : Viewport :=
  on_zoom v (d3.scaleBy scaleExtent (centre v) (transform v) ZOOM.ZOOM_IN_FACTOR).

Definition handleZoomOut (v : Viewport) : Viewport :=
  on_zoom v (d3.scaleBy scaleExtent (centre v) (transform v) ZOOM.ZOOM_OUT_FACTOR).

Definition handleResetZoom (v : Viewport) : Viewport :=
  on_zoom v d3.zoomIdentity.

Inductive Button := ZoomInButton | ZoomOutButton | ResetButton.

Definition click (v : Viewport) (b : Button) : Viewport :=
  match b with
  | ZoomInButton => handleZoomIn v
  | ZoomOutButton => handleZoomOut v
  | ResetButton => handleResetZoom v
  end.

Definition clicks (bs : list Button) (v : Viewport) : Viewport :=
  fold_left click bs v.

(** ** Vocabulary of the statements *)

(** [placed_at h a x y]: object [a] owns [fx = x] and [fy = y]. *)
Definition placed_at (h : heap) (a : loc) (x y : Q) : Prop :=
  ∃ o, h !! a = Some o ∧ own_fx o = Some x ∧ own_fy o = Some y.

Definition leftColumnX : Q := (leftX - LAYOUT.HORIZONTAL_SPACING)%Q.
Definition rightColumnX : Q := (rightX + LAYOUT.HORIZONTAL_SPACING)%Q.

Definition rowY (startY : Q) (i : nat) : Q :=
  (startY + idx i * LAYOUT.NODE_SPACING)%Q.

(** Every node selected by the pass owns the position its loop gave it. *)
Record positioned (p : Placed) : Prop := mkPositioned {
  pos_main : ∀ m, mainNode p = Some m →
    placed_at (p_heap p) m contentCenterX contentCenterY;
  pos_inflow : ∀ i a, inflowNodes p !! i = Some a →
    placed_at (p_heap p) a leftColumnX (rowY (inflowStartY p) i);
  pos_outflow : ∀ i a, outflowNodes p !! i = Some a →
    placed_at (p_heap p) a rightColumnX (rowY (outflowStartY p) i);
  pos_project : ∀ i a, projectNodes p !! i = Some a →
    placed_at (p_heap p) a rightColumnX (rowY (projectStartY p) i)
}.

(** A projection of an object that assignments to [fx] and [fy] leave
    alone: the prototype pointer and every property but those two. *)
Definition position_free {B} (g : Obj → B) : Prop :=
  ∀ v o, g (with_fx v o) = g o ∧ g (with_fy v o) = g o.

(** Prototypes are allocated before the objects that inherit from
    them, so a prototype chain strictly descends. *)
Definition ordered (h : heap) : Prop :=
  ∀ a o p, h !! a = Some o → proto o = Some p → p < a.

(** The centering formula of the inflow column, relative to an anchor:
    the i-th of N sits at [-(N-1)*spacing/2 + i*spacing]. *)
Definition centeredOffset (n : Q) (i : nat) : Q :=
  (- (n - 1) * LAYOUT.NODE_SPACING / 2 + idx i * LAYOUT.NODE_SPACING)%Q.

(** The anchors of the two groups on the right-hand column. *)
Definition outflowAnchorY : Q := (contentCenterY - LAYOUT.MAIN_RECT_HEIGHT / 4)%Q.
Definition projectAnchorY : Q := (contentCenterY + LAYOUT.MAIN_RECT_HEIGHT / 4)%Q.

(** A measurement that does not shrink when the font grows. *)
Definition monotonic (measure : string → Q → Q) : Prop :=
  ∀ s a b, (a <= b)%Q → (measure s a <= measure s b)%Q.

(** A line of the wrapping is acceptable when it is one word of the
    text by itself or is no wider than [maxWidth]. *)
Definition line_ok (measure : string → Q → Q) (text : string)
    (maxWidth size : Q) (line : string) : Prop :=
  line ∈ split_ws text ∨ (measure line size <= maxWidth)%Q.

(** The lines of a fit state were wrapped at a size that is at least
    the size it reports (or there are none yet). *)
Definition wrapped_at (measure : string → Q → Q) (text : string)
    (maxWidth : Q) (st : Fit) : Prop :=
  fit_lines st = [] ∨
  ∃ size, (fontSize st <= size)%Q ∧
          fit_lines st = wrapText measure text maxWidth size.

(** ** Sample inputs *)

(** The sample graph of reservoirData.ts: one hub, three inflows, two
    outflows, three projects and their eight links. *)
Definition reservoirData_heap : heap := [
  node_literal "emerald_lake" "Emerald Lake" main_reservoir;
  node_literal "whispering_river" "Whispering River" inflow;
  node_literal "stone_creek" "Stone Creek" inflow;
  node_literal "clearwater_reservoir" "Clearwater Reservoir" inflow;
  node_literal "sunset_basin" "Sunset Basin" outflow;
  node_literal "valley_canal" "Valley Canal" outflow;
  node_literal "hydro_dam" "Hydroelectric Dam" project;
  node_literal "lake_fisheries" "Lake Fisheries Inc." project;
  node_literal "recreation_area" "Public Rec. Area" project;
  link_literal "whispering_river" "emerald_lake";
  link_literal "stone_creek" "emerald_lake";
  link_literal "clearwater_reservoir" "emerald_lake";
  link_literal "emerald_lake" "sunset_basin";
  link_literal "emerald_lake" "valley_canal";
  link_literal "emerald_lake" "hydro_dam";
  link_literal "emerald_lake" "lake_fisheries";
  link_literal "emerald_lake" "recreation_area"
].

Definition reservoirData : IGraphData := mkGraph (seq 0 9) (seq 9 8).

Definition reservoirData_placed : Placed :=
  position_nodes reservoirData reservoirData_heap.

(** One hub with six outflows and nothing else. *)
Definition outflowsOnly_heap : heap := [
  node_literal "main" "Main Reservoir" main_reservoir;
  node_literal "outflow0" "Outflow 0" outflow;
  node_literal "outflow1" "Outflow 1" outflow;
  node_literal "outflow2" "Outflow 2" outflow;
  node_literal "outflow3" "Outflow 3" outflow;
  node_literal "outflow4" "Outflow 4" outflow;
  node_literal "outflow5" "Outflow 5" outflow
].

Definition outflowsOnly : IGraphData := mkGraph (seq 0 7) [].

(** The "links with missing nodes" graph of the component's tests. *)
Definition invalidLinks_heap : heap := [
  node_literal "main" "Main Reservoir" main_reservoir;
  link_literal "nonexistent" "main";
  link_literal "main" "alsoNonexistent"
].

Definition invalidLinks : IGraphData := mkGraph [0] [1; 2].

(** A text measurement with a fixed advance per character: six tenths
    of the font size. *)
Definition char_measure (s : string) (size : Q) : Q :=
  (inject_Z (Z.of_nat (String.length s)) * size * (6 # 10))%Q.

Definition longLabel : string :=
  "International Hydroelectric Infrastructure Rehabilitation Demonstration Reservoir Authority".

Definition unbreakableLabel : string := "Hydroelectricinfrastructurerehabilitation".

(** ** More vocabulary *)

Definition positioned_node (p : Placed) (a : loc) : Prop :=
  mainNode p = Some a ∨ a ∈ inflowNodes p ∨
  a ∈ outflowNodes p ∨ a ∈ projectNodes p.

Definition allocated (data : IGraphData) (h0 : heap) : heap :=
  h0 ++ (blank <$> (nodes data ++ links data)).

(** A graph handed to the component refers to records of the heap, and
    the heap's prototype chains descend. *)
Definition wf_graph (h0 : heap) (data : IGraphData) : Prop :=
  ordered h0 ∧ Forall (λ d, d < length h0) (nodes data ++ links data).

(** The same, as a test that can be run. *)
Fixpoint orderedb_from (a : nat) (h : heap) : bool :=
  match h with
  | [] => true
  | o :: h' =>
      match proto o with Some p => Nat.ltb p a | None => true end
      && orderedb_from (S a) h'
  end.

Definition wf_graphb (h0 : heap) (data : IGraphData) : bool :=
  orderedb_from 0 h0
  && forallb (λ d, Nat.ltb d (length h0)) (nodes data ++ links data).

(** A graph with a second main reservoir, an inflow and two outflows. *)
Definition twoHubs_heap : heap := [
  node_literal "main" "Main Reservoir" main_reservoir;
  node_literal "inflow1" "Inflow 1" inflow;
  node_literal "spare" "Spare Reservoir" main_reservoir;
  node_literal "outflow1" "Outflow 1" outflow;
  node_literal "outflow2" "Outflow 2" outflow
].

Definition twoHubs : IGraphData := mkGraph (seq 0 5) [].

(** Every node record of the graph has a type. *)
Definition nodes_typed (h0 : heap) (data : IGraphData) : Prop :=
  Forall (λ d, is_Some (get own_type h0 d)) (nodes data).

(** The [source] of link [l] is the [id] of some node of the graph,
    and so is its [target]. *)
Definition link_resolves (h0 : heap) (data : IGraphData) (l : loc) : Prop :=
  (∃ d, d ∈ nodes data ∧ get own_id h0 d = get own_source h0 l) ∧
  (∃ d, d ∈ nodes data ∧ get own_id h0 d = get own_target h0 l).

(** The same two conditions, as tests that can be run. *)
Definition nodes_typedb (h0 : heap) (data : IGraphData) : bool :=
  forallb (λ d, match get own_type h0 d with Some _ => true | None => false end)
          (nodes data).

Definition link_resolvesb (h0 : heap) (data : IGraphData) (l : loc) : bool :=
  existsb (λ d, strict_eqb (get own_id h0 d) (get own_source h0 l)) (nodes data)
  && existsb (λ d, strict_eqb (get own_id h0 d) (get own_target h0 l))
             (nodes data).

(** ** Configurations (reservoirDataParser.ts) *)

(** [reservoir_id] is a number; the configurations carry whole
    numbers, and a whole number is what the embedding admits. *)
Record ReservoirConfig := mkConfig {
  reservoir_id : Z;
  reservoir_name : string;
  config_inflow : string;
  config_outflow : string;
  config_projects : string
}.

(** A whole number inside a template literal. *)
Definition show_nat (n : nat) : string :=
  NilZero.string_of_uint (Nat.to_uint n).

Definition show_Z (z : Z) : string :=
  NilZero.string_of_int (Z.to_int z).

(** [s.trim()], on code units below 256. *)
Fixpoint trim_start (s : string) : string :=
  match s with
  | EmptyString => EmptyString
  | String c s' => if is_space c then trim_start s' else s
  end.

Fixpoint trim_end (s : string) : string :=
  match s with
  | EmptyString => EmptyString
  | String c s' =>
      match trim_end s' with
      | EmptyString => if is_space c then EmptyString else String c EmptyString
      | r => String c r
      end
  end.

Definition trim (s : string) : string := trim_end (trim_start s).

(** [s.split(',')]: [cur] is the piece being read. *)
Fixpoint split_at (sep : ascii) (s : string) (cur : string) : list string :=
  match s with
  | EmptyString => [cur]
  | String c s' =>
      if Ascii.eqb c sep then cur :: split_at sep s' EmptyString
      else split_at sep s' (String.append cur (String c EmptyString))
  end.

Definition comma : ascii := ","%char.

(** The graph under construction: the arrays [nodes] and [links] of
    object literals. *)
Abbreviation Arrays := (list Obj * list Obj)%type.

(** The template literal [`${prefix}_${reservoir_id}_${index}`]. *)
Definition satellite_id (prefix : string) (rid : Z) (index : nat) : string :=
  String.append prefix
    (String.append "_"
       (String.append (show_Z rid) (String.append "_" (show_nat index)))).

(** What one iteration of the three [forEach((item, index) => ...)]
    loops pushes: the node [{ id, label: item, type }] and its link,
    which runs into the main node for an inflow ([into_main]) and out
    of it for an outflow or a project. *)
Definition satellite_node (prefix : string) (rid : Z) (t : NodeType)
    (index : nat) (item : string) : Obj :=
  node_literal (satellite_id prefix rid index) item t.

Definition satellite_link (prefix : string) (rid : Z) (mainNodeId : string)
    (into_main : bool) (index : nat) : Obj :=
  if into_main then link_literal (satellite_id prefix rid index) mainNodeId
  else link_literal mainNodeId (satellite_id prefix rid index).

Fixpoint push_satellites (prefix : string) (rid : Z) (mainNodeId : string)
    (t : NodeType) (into_main : bool) (index : nat) (items : list string)
    (g : Arrays) : Arrays :=
  match items with
  | [] => g
  | item :: items' =>
      push_satellites prefix rid mainNodeId t into_main (S index) items'
        (g.1 ++ [satellite_node prefix rid t index item],
         g.2 ++ [satellite_link prefix rid mainNodeId into_main index])
  end.

(** One "Parse and add ... nodes" block:
    [if (field && field.trim()) { field.split(',').map(trim).forEach(...) }]. *)
Definition add_satellites (prefix : string) (rid : Z) (mainNodeId : string)
    (t : NodeType) (into_main : bool) (field : string) (g : Arrays) : Arrays :=
  if truthy field && truthy (trim field) then
    push_satellites prefix rid mainNodeId t into_main 0
      (map trim (split_at comma field EmptyString)) g
  else g.

Definition parseReservoirConfig (config : ReservoirConfig) : Arrays :=
  let rid := reservoir_id config in
  let mainNodeId := String.append "reservoir_" (show_Z rid) in
  let g0 : Arrays :=
    ([node_literal mainNodeId (reservoir_name config) main_reservoir], []) in
  let g1 := add_satellites "inflow" rid mainNodeId inflow true
              (config_inflow config) g0 in
  let g2 := add_satellites "outflow" rid mainNodeId outflow false
              (config_outflow config) g1 in
  add_satellites "project" rid mainNodeId project false
    (config_projects config) g2.

(** The parsed graph as the component receives it: the literals in
    the heap, nodes first, and the two arrays of references. *)
Definition graph_heap (g : Arrays) : heap := g.1 ++ g.2.

Definition graph_data (g : Arrays) : IGraphData :=
  mkGraph (seq 0 (length g.1)) (seq (length g.1) (length g.2)).

(** The nodes and the links that one field contributes, in closed
    form. *)
Definition field_items (field : string) : list string :=
  if truthy field && truthy (trim field)
  then map trim (split_at comma field EmptyString)
  else [].

Definition field_nodes (prefix : string) (rid : Z) (t : NodeType)
    (field : string) : list Obj :=
  imap (satellite_node prefix rid t) (field_items field).

Definition field_links (prefix : string) (rid : Z) (mainNodeId : string)
    (into_main : bool) (field : string) : list Obj :=
  imap (λ index _, satellite_link prefix rid mainNodeId into_main index)
       (field_items field).

(** The number of pieces a field contributes: none when it is empty
    or blank, else one more than it has commas. *)
Fixpoint commas (s : string) : nat :=
  match s with
  | EmptyString => 0
  | String c s' => (if Ascii.eqb c comma then 1 else 0) + commas s'
  end.

Definition pieces (field : string) : nat :=
  if truthy (trim field) then S (commas field) else 0.

(** A string all of whose characters are white space. *)
Fixpoint blank_string (s : string) : bool :=
  match s with
  | EmptyString => true
  | String c s' => is_space c && blank_string s'
  end.

(** A configuration in the style of the sample data. *)
Definition emeraldConfig : ReservoirConfig :=
  mkConfig 101 "Emerald Lake"
    "Whispering River, Stone Creek ,Clearwater Reservoir"
    "Sunset Basin,Valley Canal"
    "  ".

(** The first character of a string, if any. *)
Definition head_char (s : string) : option ascii :=
  match s with EmptyString => None | String c _ => Some c end.

(** How a link of a parsed graph sits with the node pushed in the same
    iteration: an inflow's link runs from the node to the main node,
    an outflow's or a project's from the main node to the node. *)
Definition link_of (mainNodeId : string) (n l : Obj) : Prop :=
  ∃ id, own_id n = Some id ∧
    match own_type n with
    | Some inflow => l = link_literal id mainNodeId
    | Some outflow | Some project => l = link_literal mainNodeId id
    | _ => False
    end.

(** The id of the hub of a configuration. *)
Definition hub_id (config : ReservoirConfig) : string :=
  String.append "reservoir_" (show_Z (reservoir_id config)).

(** The arrays hold object literals only: no object has a prototype
    of its own. *)
Definition plain_arrays (g : Arrays) : Prop :=
  Forall (λ o, proto o = None) (g.1 ++ g.2).

(** A path has the stroke of the type of a node. *)
Definition stroke_of (n : Obj) (e : PathElement) : Prop :=
  ∃ t, own_type n = Some t ∧ path_stroke e = stroke (COLOR_MAP t).

(** The positioning pass on a graph given by its arrays. *)
Definition placed_graph (g : Arrays) : Placed :=
  position_nodes (graph_data g) (graph_heap g).

(** What the link loop appends for one link, when it appends a path. *)
Definition drawn_path (h : heap) (ns : list loc) (link : loc) : PathElement :=
  match drawLink h ns link with
  | Drawn e => e
  | _ => mkPath [] EmptyString
  end.

(** [n.type === t] on an object literal. *)
Definition has_type (t : NodeType) (o : Obj) : bool :=
  match own_type o with
  | Some t' => NodeType_eqb t' t
  | None => false
  end.

(** ** Legend *)

(** The legend entries of [LAYOUT]. *)
Module LAYOUT_LEGEND.
Definition LEGEND_WIDTH : Q := 63.
Definition LEGEND_ITEM_HEIGHT : Q := 14.
Definition LEGEND_PADDING : Q := 16.
Definition LEGEND_OFFSET : Q := 40.
End LAYOUT_LEGEND.

(** A number that may be [-Infinity], what [Math.max] gives for no
    argument. *)
Inductive Num := NegInfinity | Finite (q : Q).

Definition max_step (acc : Num) (q : Q) : Num :=
  match acc with
  | NegInfinity => Finite q
  | Finite a => Finite (Qmax a q)
  end.

(** [Math.max(...l)] *)
Definition Math_max (l : list Q) : Num := fold_left max_step l NegInfinity.

Definition num_plus (a : Num) (q : Q) : Num :=
  match a with
  | NegInfinity => NegInfinity
  | Finite a => Finite (a + q)
  end.

(** [v || 0] on a value that is a number or [undefined]. *)
Definition or_zero (v : option Q) : Q :=
  match v with
  | Some q => if Qeq_bool q 0 then 0 else q
  | None => 0
  end.

Definition legendItems : list (NodeType * string) :=
  [(inflow, "Inflows"); (outflow, "Outflows"); (project, "Projects");
   (main_reservoir, "Main")]%string.

Definition bottomMostY (p : Placed) : Num :=
  Math_max ((λ n, or_zero (fy (p_heap p) n)) <$> p_nodes p).

Definition legendHeight : Q :=
  (inject_Z (Z.of_nat (length legendItems)) * LAYOUT_LEGEND.LEGEND_ITEM_HEIGHT
   + LAYOUT_LEGEND.LEGEND_PADDING)%Q.

Definition legendX : Q := (maxX - LAYOUT_LEGEND.LEGEND_WIDTH - 10)%Q.

Definition legendY (p : Placed) : Num :=
  num_plus (bottomMostY p) LAYOUT_LEGEND.LEGEND_OFFSET.

(** ** The application (App.tsx) *)

(** [reservoirs[0]?.reservoir_id || 101] *)
Definition initialSelection (reservoirs : list ReservoirConfig) : Z :=
  match reservoirs with
  | r :: _ => if Z.eqb (reservoir_id r) 0 then 101 else reservoir_id r
  | [] => 101
  end%Z.

(** [reservoirs.find((r) => r.reservoir_id === id)] *)
Definition getReservoirById (reservoirs : list ReservoirConfig) (id : Z)
    : option ReservoirConfig :=
  List.find (λ r, Z.eqb (reservoir_id r) id) reservoirs.

Definition graphData (reservoirs : list ReservoirConfig) (selected : Z)
    : Arrays :=
  match getReservoirById reservoirs selected with
  | Some reservoir => parseReservoirConfig reservoir
  | None => ([], [])
  end.

(** ** More vocabulary for the hub text *)

(** Words joined by single spaces, built from the left as [wrapText]
    builds its lines. *)
Definition unwords (ws : list string) : string :=
  match ws with
  | [] => EmptyString
  | w :: ws' =>
      fold_left (λ acc v, String.append acc (String.append " " v)) ws' w
  end.

(** The state of the loop of [wrapText] after the words [seen]: the
    finished lines and the current line are runs of these words. *)
Definition wrap_blocks (seen : list string) (st : list string * string)
    : Prop :=
  ∃ blocks cb,
    st.1 = unwords <$> blocks ∧ st.2 = unwords cb ∧
    Forall (λ l, truthy l = true) st.1 ∧
    List.filter truthy (concat blocks ++ cb) = List.filter truthy seen.

(** The loop left by its [break]: the lines were wrapped at the size
    reported and their block is no higher than [maxHeight]. *)
Definition accepted (measure : string → Q → Q) (text : string)
    (maxWidth maxHeight : Q) (f : Fit) : Prop :=
  (10 <= fontSize f)%Q ∧
  fit_lines f = wrapText measure text maxWidth (fontSize f) ∧
  lineHeight f = (fontSize f * (12 # 10))%Q ∧
  (inject_Z (Z.of_nat (length (fit_lines f))) * lineHeight f <= maxHeight)%Q.

(** The loop left by its condition after a last try at size [s]: the
    size reported is [s - 1], while the lines and the line height are
    those of the try, whose block was too high. *)
Definition gave_up (measure : string → Q → Q) (text : string)
    (maxWidth maxHeight : Q) (s : Q) (f : Fit) : Prop :=
  (10 <= s)%Q ∧ fontSize f = (s - 1)%Q ∧ ¬ (10 <= fontSize f)%Q ∧
  fit_lines f = wrapText measure text maxWidth s ∧
  lineHeight f = (s * (12 # 10))%Q ∧
  ¬ (inject_Z (Z.of_nat (length (fit_lines f))) * lineHeight f <= maxHeight)%Q.

(** ** The greedy wrapping *)

(** The words of a wrapping, block by block, were taken greedily at
    font size [size]: within a line every word after the first was
    added while the line with it was no wider than [maxWidth], and
    every line was closed only because the line with the first word
    of the next one would have been wider. *)
Definition greedy (measure : string → Q → Q) (maxWidth size : Q)
    (blocks : list (list string)) : Prop :=
  (∀ b n, b ∈ blocks → 2 ≤ n ≤ length b →
     (measure (unwords (take n b)) size <= maxWidth)%Q) ∧
  (∀ i b w b', blocks !! i = Some b → blocks !! S i = Some (w :: b') →
     ¬ (measure (String.append (unwords b) (String.append " " w)) size
        <= maxWidth)%Q).

(** Every word but the last is non-empty. *)
Definition all_but_last_truthy (ws : list string) : Prop :=
  ∀ i w, ws !! i = Some w → S i < length ws → truthy w = true.

(** The state of the loop of [wrapText] after the words [seen], with
    the words [rest] to come. *)
Definition wrap_state (measure : string → Q → Q) (maxWidth size : Q)
    (seen rest : list string) (st : list string * string) : Prop :=
  ∃ blocks cb,
    st.1 = unwords <$> blocks ∧ st.2 = unwords cb ∧
    List.filter truthy (concat blocks ++ cb) = List.filter truthy seen ∧
    greedy measure maxWidth size (blocks ++ [cb]) ∧
    (truthy st.2 = true ∨ blocks = [] ∨ rest = []).

(** ** The zoom read-out *)

(** [Math.round]: the nearest integer, halves upwards. *)
Definition Math_round (q : Q) : Z := Qfloor (q + (1 # 2)).

(** [{Math.round(zoomLevel * 100)}%] *)
Definition zoomPercent (v : Viewport) : Z := Math_round (zoomLevel v * 100).

(** The point of the graph shown at the centre of the viewport. *)
Definition shownAtCentre (v : Viewport) : Q * Q :=
  d3.invert (transform v) (centre v).

(** Equality of numbers, on pairs and on transforms. *)
Definition pair_eq (p q : Q * Q) : Prop :=
  (fst p == fst q)%Q ∧ (snd p == snd q)%Q.

Definition transform_eq (s t : d3.Transform) : Prop :=
  (d3.k s == d3.k t)%Q ∧ (d3.x s == d3.x t)%Q ∧ (d3.y s == d3.y t)%Q.

(** A state of the buttons: the scale is within the extent and the
    read-out holds it. *)
Definition in_extent (v : Viewport) : Prop :=
  (ZOOM.MIN_SCALE <= d3.k (transform v) <= ZOOM.MAX_SCALE)%Q ∧
  zoomLevel v = d3.k (transform v).

(** ** Clicks in time *)

(** A handler does not install its transform at once: it starts a
    transition towards the transform that [zoom.scaleBy] or
    [zoom.transform] computes from the transform in force when the
    transition starts, and a click that arrives while a transition
    is running interrupts it, so that the next one starts from the
    last frame shown.  [clicks] above takes every transition at its
    end.  Here a click comes with the progress of the transition
    started by the click before it: 1 or more when that transition
    has finished, 0 or less when it has not shown a frame yet. *)
Record TimedClick := mkTimed {
  button : Button;
  progress : Q
}.

(** A click that finds the transition before it finished. *)
Definition settled (tc : TimedClick) : bool := Qle_bool 1 (progress tc).

(** The view on the screen at progress [s] of the transition from
    [a] to [b].  [tween] gives the transform of a frame in between,
    which the ['zoom'] listener receives; after d3-zoom the last
    frame is [b] itself. *)
Definition frame (tween : d3.Transform → d3.Transform → Q → d3.Transform)
    (a b : Viewport) (s : Q) : Viewport :=
  if Qle_bool 1 s then b
  else if Qle_bool s 0 then a
  else on_zoom a (tween (transform a) (transform b) s).

(** The state is the transition in flight: the view it started from
    and the view it ends in. *)
Definition timed_click (tween : d3.Transform → d3.Transform → Q → d3.Transform)
    (st : Viewport * Viewport) (tc : TimedClick) : Viewport * Viewport :=
  let shown := frame tween st.1 st.2 (progress tc) in
  (shown, click shown (button tc)).

Definition timed_clicks (tween : d3.Transform → d3.Transform → Q → d3.Transform)
    (cs : list TimedClick) (st : Viewport * Viewport) : Viewport * Viewport :=
  fold_left (timed_click tween) cs st.

(** The view once the last transition has finished. *)
Definition at_rest (st : Viewport * Viewport) : Viewport := st.2.

(** A frame in between that moves the scale in a straight line. *)
Definition linear_tween (a b : d3.Transform) (s : Q) : d3.Transform :=
  d3.mkTransform (d3.k a + s * (d3.k b - d3.k a))%Q
                 (d3.x a + s * (d3.x b - d3.x a))%Q
                 (d3.y a + s * (d3.y b - d3.y a))%Q.

(** ** Node groups *)

Inductive TextAnchor := anchor_end | anchor_start.

(** What is appended to the group of a node: the rounded rectangle of
    the hub with its lines of text, or a circle with its label (drawn
    twice, outline and fill, with the same attributes). *)
Inductive NodeShape :=
| HubRect (rect_fill rect_stroke : string) (texts : list TextElement)
| NodeCircle (circle_fill circle_stroke : string) (textX : Q)
    (textAnchor : TextAnchor) (text : option string).

(** [<g transform="translate(fx,fy)">] and its content. *)
Record NodeGroup := mkGroup {
  translate : option Q * option Q;
  shape : NodeShape
}.

(** What the body of [nodes.forEach] does for one node: append a
    group, or fail on [node.label.split] for a hub without label or
    on [color.fill] when [COLOR_MAP[node.type]] is [undefined].  The
    last case is the fitting loop running out of fuel. *)
Inductive NodeResult :=
| NodeDrawn (g : NodeGroup)
| NodeThrew
| NodeOutOfFuel.

Definition drawNode (measure : string → Q → Q) (h : heap) (node : loc)
    : NodeResult :=
  let tr := (fx h node, fy h node) in
  if type_is h main_reservoir node then
    match get own_label h node with
    | None => NodeThrew
    | Some label =>
        match drawHubText measure label with
        | Some texts =>
            NodeDrawn (mkGroup tr (HubRect (fill (COLOR_MAP main_reservoir))
                                           (stroke (COLOR_MAP main_reservoir))
                                           texts))
        | None => NodeOutOfFuel
        end
    end
  else
    match get own_type h node with
    | None => NodeThrew
    | Some t =>
        let color := COLOR_MAP t in
        let isInflow := type_is h inflow node in
        let textX := if isInflow then (-20)%Q else 20%Q in
        let textAnchor := if isInflow then anchor_end else anchor_start in
        NodeDrawn (mkGroup tr (NodeCircle (fill color) (stroke color)
                                          textX textAnchor
                                          (get own_label h node)))
    end.

Inductive NodesResult :=
| AllDrawn (groups : list NodeGroup)
| NodesThrew
| NodesOutOfFuel.

(** [nodes.forEach(...)]: the groups appended to the node group. *)
Fixpoint drawNodes (measure : string → Q → Q) (h : heap) (ns : list loc)
    (group : list NodeGroup) : NodesResult :=
  match ns with
  | [] => AllDrawn group
  | node :: ns' =>
      match drawNode measure h node with
      | NodeDrawn g => drawNodes measure h ns' (group ++ [g])
      | NodeThrew => NodesThrew
      | NodeOutOfFuel => NodesOutOfFuel
      end
  end.

(** The whole pass on the caller's graph: copy, position, draw nodes. *)
Definition renderNodes (measure : string → Q → Q) (data : IGraphData)
    (h0 : heap) : NodesResult :=
  let p := position_nodes data h0 in
  drawNodes measure (p_heap p) (p_nodes p) [].

(** The group that the node loop appends for one node, when it
    appends one. *)
Definition drawn_group (measure : string → Q → Q) (h : heap) (node : loc)
    : NodeGroup :=
  match drawNode measure h node with
  | NodeDrawn g => g
  | _ => mkGroup (None, None) (HubRect EmptyString EmptyString [])
  end.

Definition is_rect (s : NodeShape) : bool :=
  match s with HubRect _ _ _ => true | NodeCircle _ _ _ _ _ => false end.

(** Every hub record of the graph has a label. *)
Definition hubs_labelled (h0 : heap) (data : IGraphData) : Prop :=
  Forall (λ d, get own_type h0 d = Some main_reservoir →
               is_Some (get own_label h0 d)) (nodes data).

Definition hubs_labelledb (h0 : heap) (data : IGraphData) : bool :=
  forallb (λ d, match get own_type h0 d, get own_label h0 d with
                | Some main_reservoir, None => false
                | _, _ => true
                end) (nodes data).

(** The group of a node other than the hub, given its record: a
    circle in the colours of its type on the column of its type, the
    label outside, away from the hub. *)
Definition circle_of (n : Obj) (grp : NodeGroup) : Prop :=
  ∃ t y, own_type n = Some t ∧ t ≠ main_reservoir ∧
    grp = mkGroup
            (Some (if NodeType_eqb t inflow then leftColumnX else rightColumnX),
             Some y)
            (NodeCircle (fill (COLOR_MAP t)) (stroke (COLOR_MAP t))
               (if NodeType_eqb t inflow then (-20)%Q else 20%Q)
               (if NodeType_eqb t inflow then anchor_end else anchor_start)
               (own_label n)).

(** * Proofs *)

Lemma NodeType_eqb_eq a b : NodeType_eqb a b = true ↔ a = b.
Proof. destruct a, b; simpl; split; congruence. Qed.

(** ** Facts about the heap primitives *)

(** On such a heap the fuel of [get] never runs out: any two amounts
    above the location give the same answer, and [get] satisfies the
    equation of the prototype walk. *)
Lemma lookup_chain_fuel {A} (sel : Obj → option A) (h : heap) :
  ordered h →
  ∀ f f' a, a < f → a < f' →
  lookup_chain sel h f a = lookup_chain sel h f' a.
Proof.
  intros Hord. induction f as [| f IH]; intros f' a Hf Hf'; [lia |].
  destruct f' as [| f']; [lia |]. simpl.
  destruct (h !! a) as [o |] eqn:Ho; [| done].
  destruct (sel o); [done |].
  destruct (proto o) as [p |] eqn:Hp; [| done].
  pose proof (Hord a o p Ho Hp). apply IH; lia.
Qed.

Lemma get_unfold {A} (sel : Obj → option A) (h : heap) a :
  ordered h →
  get sel h a
  = match h !! a with
    | None => None
    | Some o =>
        match sel o with
        | Some v => Some v
        | None => match proto o with Some p => get sel h p | None => None end
        end
    end.
Proof.
  intros Hord. unfold get at 1. simpl.
  destruct (h !! a) as [o |] eqn:Ho; [| done].
  destruct (sel o); [done |].
  destruct (proto o) as [p |] eqn:Hp; [| done].
  pose proof (Hord a o p Ho Hp). pose proof (lookup_lt_Some _ _ _ Ho).
  apply lookup_chain_fuel; [done | lia | lia].
Qed.

(** An own property is found without walking the prototype chain. *)
Lemma get_own {A} (sel : Obj → option A) (h : heap) a o v :
  h !! a = Some o → sel o = Some v → get sel h a = Some v.
Proof. intros Ha Hs. unfold get; simpl. by rewrite Ha, Hs. Qed.

Lemma placed_at_fx h a x y : placed_at h a x y → fx h a = Some x.
Proof. intros (o & Ho & Hx & _). exact (get_own own_fx h a o x Ho Hx). Qed.

Lemma placed_at_fy h a x y : placed_at h a x y → fy h a = Some y.
Proof. intros (o & Ho & _ & Hy). exact (get_own own_fy h a o y Ho Hy). Qed.

Lemma placed_at_same h h' a x y :
  h' !! a = h !! a → placed_at h a x y → placed_at h' a x y.
Proof. intros E (o & Ho & H). exists o. by rewrite E. Qed.

Lemma set_fx_length a v h : length (set_fx a v h) = length h.
Proof. apply length_alter. Qed.

Lemma set_fy_length a v h : length (set_fy a v h) = length h.
Proof. apply length_alter. Qed.

Lemma set_xy_length a x y h : length (set_fy a y (set_fx a x h)) = length h.
Proof. by rewrite set_fy_length, set_fx_length. Qed.

Lemma set_xy_other a b x y (h : heap) :
  a ≠ b → set_fy a y (set_fx a x h) !! b = h !! b.
Proof.
  intros Hne. unfold set_fy, set_fx.
  by rewrite !list_lookup_alter_ne.
Qed.

Lemma set_xy_placed a x y (h : heap) :
  a < length h → placed_at (set_fy a y (set_fx a x h)) a x y.
Proof.
  intros Hlt. destruct (lookup_lt_is_Some_2 h a Hlt) as [o Ho].
  exists (with_fy y (with_fx x o)). unfold set_fy, set_fx.
  rewrite !list_lookup_alter_eq, Ho. done.
Qed.

(** Writes above a prefix leave the prefix alone. *)
Lemma set_xy_take n a x y (h : heap) :
  n ≤ a → take n (set_fy a y (set_fx a x h)) = take n h.
Proof.
  intros Hle. apply list_eq; intros i.
  destruct (decide (i < n)) as [Hi | Hi].
  - rewrite !lookup_take_lt by done. apply set_xy_other. lia.
  - rewrite !lookup_take_ge by lia. done.
Qed.

(** Positions are own properties: writing them changes neither a
    prototype pointer nor any other property. *)
Lemma set_xy_keeps {B} (g : Obj → B) a x y (h : heap) :
  position_free g → g <$> set_fy a y (set_fx a x h) = g <$> h.
Proof.
  intros Hg. unfold set_fy, set_fx. apply list_eq; intros i.
  rewrite !list_lookup_fmap.
  destruct (decide (a = i)) as [-> | Hne].
  - rewrite !list_lookup_alter_eq. destruct (h !! i) as [o |]; [| done].
    simpl. f_equal. rewrite (proj2 (Hg y _)). apply Hg.
  - by rewrite !list_lookup_alter_ne.
Qed.

Lemma proto_position_free : position_free proto.
Proof. done. Qed.

(** *** Allocation *)

Lemma map_object_create_spec ds h h' l :
  map_object_create ds h = (h', l) →
  l = seq (length h) (length ds) ∧
  length h' = length h + length ds ∧
  take (length h) h' = h ∧
  h' = h ++ (blank <$> ds).
Proof.
  revert h h' l. induction ds as [| d ds IH]; intros h h' l; simpl.
  - intros [= <- <-]. rewrite Nat.add_0_r, app_nil_r. by rewrite firstn_all.
  - destruct (map_object_create ds _) as [h2 l2] eqn:E.
    intros [= <- <-]. apply IH in E as (-> & Hlen & Htk & Hpr).
    rewrite length_app in *. simpl in *. split_and!.
    + by rewrite Nat.add_1_r.
    + lia.
    + transitivity (take (length h) (take (length h + 1) h2)).
      * rewrite take_take. f_equal. lia.
      * rewrite Htk. by rewrite take_app_length.
    + rewrite Hpr, <- app_assoc. done.
Qed.

(** *** The column loop *)

Lemma forEach_from_column x startY l : ∀ k h,
  NoDup l → (∀ a, a ∈ l → a < length h) →
  length (forEach_from k l (column_body x startY) h) = length h ∧
  (∀ b, b ∉ l → forEach_from k l (column_body x startY) h !! b = h !! b) ∧
  (∀ i a, l !! i = Some a →
     placed_at (forEach_from k l (column_body x startY) h) a x
               (rowY startY (k + i))).
Proof.
  induction l as [| a l IH]; intros k h Hnd Hin; simpl.
  - split; [done |]. split; [done |]. intros i a [=].
  - apply list.NoDup_cons in Hnd as [Hnotin Hnd].
    assert (Ha : a < length h) by (apply Hin; left).
    assert (Hin' : ∀ b, b ∈ l → b < length (column_body x startY a k h)).
    { intros b Hb. unfold column_body. rewrite set_xy_length. apply Hin. by right. }
    destruct (IH (S k) (column_body x startY a k h) Hnd Hin')
      as (Hlen & Hother & Hplaced).
    split; [| split].
    + rewrite Hlen. apply set_xy_length.
    + intros b Hb. apply not_elem_of_cons in Hb as [Hne Hb].
      rewrite Hother by done. apply set_xy_other. congruence.
    + intros [| i] b; simpl.
      * intros [= <-]. rewrite Nat.add_0_r.
        eapply placed_at_same; [by apply Hother |].
        by apply set_xy_placed.
      * intros Hb. replace (k + S i) with (S k + i) by lia. by apply Hplaced.
Qed.

Lemma place_column_spec x startY l h :
  NoDup l → (∀ a, a ∈ l → a < length h) →
  length (place_column x startY l h) = length h ∧
  (∀ b, b ∉ l → place_column x startY l h !! b = h !! b) ∧
  (∀ i a, l !! i = Some a →
     placed_at (place_column x startY l h) a x (rowY startY i)).
Proof. intros Hnd Hin. exact (forEach_from_column x startY l 0 h Hnd Hin). Qed.

Lemma place_column_take x startY n l h :
  (∀ a, a ∈ l → n ≤ a) →
  take n (place_column x startY l h) = take n h.
Proof.
  unfold place_column, forEach. generalize 0 as k.
  revert h. induction l as [| a l IH]; intros h k Hge; simpl; [done |].
  rewrite IH by (intros b Hb; apply Hge; by right).
  apply set_xy_take. apply Hge. by left.
Qed.

Lemma place_column_field {B} (g : Obj → B) x startY l h :
  position_free g → g <$> place_column x startY l h = g <$> h.
Proof.
  intros Hg. unfold place_column, forEach. generalize 0 as k.
  revert h. induction l as [| a l IH]; intros h k; simpl; [done |].
  rewrite IH. by apply set_xy_keeps.
Qed.

(** *** Selecting nodes by type *)

Lemma filter_elem (f : nat → bool) l a :
  a ∈ List.filter f l ↔ a ∈ l ∧ f a = true.
Proof. rewrite !list_elem_of_In. apply filter_In. Qed.

Lemma filter_NoDup (f : nat → bool) l : NoDup l → NoDup (List.filter f l).
Proof.
  induction 1 as [| a l Ha Hnd IH]; simpl; [constructor |].
  destruct (f a); [| done]. apply NoDup_cons_2; [| done].
  rewrite filter_elem. tauto.
Qed.

Lemma type_is_excl h t1 t2 a :
  t1 ≠ t2 → type_is h t1 a = true → type_is h t2 a = false.
Proof.
  unfold type_is. destruct (get own_type h a) as [t |]; [| done].
  intros Hne H1%NodeType_eqb_eq. subst t.
  destruct (NodeType_eqb t1 t2) eqn:E; [| done].
  by apply NodeType_eqb_eq in E.
Qed.

Lemma filter_type_disjoint h t1 t2 l a :
  t1 ≠ t2 → a ∈ List.filter (type_is h t1) l → a ∉ List.filter (type_is h t2) l.
Proof.
  intros Hne [_ H1]%filter_elem [_ H2]%filter_elem.
  rewrite (type_is_excl h t1 t2 a Hne H1) in H2. done.
Qed.

Lemma find_type_not_in h t1 t2 l m :
  t1 ≠ t2 → List.find (type_is h t1) l = Some m →
  m ∈ l ∧ m ∉ List.filter (type_is h t2) l.
Proof.
  intros Hne [Hin H1]%find_some. split; [by apply list_elem_of_In |].
  intros [_ H2]%filter_elem.
  rewrite (type_is_excl h t1 t2 m Hne H1) in H2. done.
Qed.

Lemma has_none l : Nat.ltb 0 (length l) = false → l = @nil nat.
Proof. destruct l; [done | simpl; intros [=]]. Qed.

(** ** The positioning pass *)

(** A position survives a later column loop that does not visit the
    node: [Hoth] is the loop's "other locations are untouched" fact
    and [tac] shows that the node is not in the loop's list. *)
Ltac carry_over Hoth tac :=
  eapply placed_at_same; [apply Hoth; tac |].

Lemma position_nodes_positioned data h0 :
  positioned (position_nodes data h0).
Proof.
  unfold position_nodes.
  destruct (map_object_create (nodes data) h0) as [h1 ns] eqn:E1.
  destruct (map_object_create (links data) h1) as [h2 ls] eqn:E2.
  apply map_object_create_spec in E1 as (Hns & Hlen1 & Htk1).
  apply map_object_create_spec in E2 as (Hls & Hlen2 & Htk2).
  assert (Hnd : NoDup ns) by (subst ns; apply NoDup_seq).
  assert (Hrange : ∀ a, a ∈ ns → length h0 ≤ a < length h2).
  { intros a Ha. subst ns. apply elem_of_seq in Ha. lia. }
  set (inflows := List.filter (type_is h2 inflow) ns).
  set (outflows := List.filter (type_is h2 outflow) ns).
  set (projects := List.filter (type_is h2 project) ns).
  set (main := List.find (type_is h2 main_reservoir) ns).
  set (h3 := match main with Some m => _ | None => h2 end).
  assert (Hlen3 : length h3 = length h2).
  { subst h3. destruct main; [apply set_xy_length | done]. }
  assert (Hmain3 : ∀ m, main = Some m →
             placed_at h3 m contentCenterX contentCenterY).
  { intros m Hm. subst h3. rewrite Hm. apply set_xy_placed.
    apply find_some in Hm as [Hm _]. apply list_elem_of_In in Hm.
    apply Hrange in Hm. lia. }
  assert (Hin : ∀ t (h : heap), length h = length h2 →
             ∀ a, a ∈ List.filter (type_is h2 t) ns → a < length h).
  { intros t h Hh a [Ha _]%filter_elem. apply Hrange in Ha. lia. }
  assert (Hmain_out : ∀ t m, t ≠ main_reservoir → main = Some m →
             m ∉ List.filter (type_is h2 t) ns).
  { intros t m Ht Hm.
    eapply find_type_not_in in Hm as [_ Hm]; [exact Hm | done]. }
  assert (Hdisj : ∀ t1 t2 i a, t1 ≠ t2 →
             List.filter (type_is h2 t1) ns !! i = Some a →
             a ∉ List.filter (type_is h2 t2) ns).
  { intros t1 t2 i a Hne Ha. apply (filter_type_disjoint h2 t1 t2 ns a Hne).
    by eapply list_elem_of_lookup_2. }
  assert (Hnds : ∀ t, NoDup (List.filter (type_is h2 t) ns)).
  { intros t. by apply filter_NoDup. }
  set (h4 := place_column _ _ inflows h3).
  destruct (place_column_spec (leftX - LAYOUT.HORIZONTAL_SPACING)%Q
              (centeredStartY inflows) inflows h3
              (Hnds inflow) (Hin inflow h3 Hlen3))
    as (Hlen4 & Hoth4 & Hpl4).
  fold h4 in Hlen4, Hoth4, Hpl4. rewrite Hlen3 in Hlen4.
  assert (Hmain4 : ∀ m, main = Some m →
             placed_at h4 m contentCenterX contentCenterY).
  { intros m Hm. carry_over Hoth4 ltac:(by apply Hmain_out).
    by apply Hmain3. }
  destruct (Nat.ltb 0 (length outflows)) eqn:Eo;
    destruct (Nat.ltb 0 (length projects)) eqn:Ep; simpl.
  - (* both groups *)
    set (so := (contentCenterY - LAYOUT.MAIN_RECT_HEIGHT / 4
                - (len outflows - 1) * LAYOUT.NODE_SPACING)%Q).
    set (sp := (contentCenterY + LAYOUT.MAIN_RECT_HEIGHT / 4)%Q).
    set (h5 := place_column _ so outflows h4).
    destruct (place_column_spec (rightX + LAYOUT.HORIZONTAL_SPACING)%Q
                so outflows h4 (Hnds outflow) (Hin outflow h4 Hlen4))
      as (Hlen5 & Hoth5 & Hpl5).
    fold h5 in Hlen5, Hoth5, Hpl5. rewrite Hlen4 in Hlen5.
    destruct (place_column_spec (rightX + LAYOUT.HORIZONTAL_SPACING)%Q
                sp projects h5 (Hnds project) (Hin project h5 Hlen5))
      as (Hlen6 & Hoth6 & Hpl6).
    split; simpl.
    + intros m Hm. carry_over Hoth6 ltac:(by apply Hmain_out).
      carry_over Hoth5 ltac:(by apply Hmain_out). by apply Hmain4.
    + intros i a Ha. carry_over Hoth6 ltac:(by apply (Hdisj inflow _ i)).
      carry_over Hoth5 ltac:(by apply (Hdisj inflow _ i)). by apply Hpl4.
    + intros i a Ha. carry_over Hoth6 ltac:(by apply (Hdisj outflow _ i)).
      by apply Hpl5.
    + intros i a Ha. by apply Hpl6.
  - (* outflows only *)
    apply has_none in Ep.
    destruct (place_column_spec (rightX + LAYOUT.HORIZONTAL_SPACING)%Q
                (centeredStartY outflows) outflows h4
                (Hnds outflow) (Hin outflow h4 Hlen4))
      as (Hlen5 & Hoth5 & Hpl5).
    split; simpl.
    + intros m Hm. carry_over Hoth5 ltac:(by apply Hmain_out).
      by apply Hmain4.
    + intros i a Ha. carry_over Hoth5 ltac:(by apply (Hdisj inflow _ i)).
      by apply Hpl4.
    + intros i a Ha. by apply Hpl5.
    + fold projects. rewrite Ep. intros i a [=].
  - (* projects only *)
    apply has_none in Eo.
    destruct (place_column_spec (rightX + LAYOUT.HORIZONTAL_SPACING)%Q
                (centeredStartY projects) projects h4
                (Hnds project) (Hin project h4 Hlen4))
      as (Hlen5 & Hoth5 & Hpl5).
    split; simpl.
    + intros m Hm. carry_over Hoth5 ltac:(by apply Hmain_out).
      by apply Hmain4.
    + intros i a Ha. carry_over Hoth5 ltac:(by apply (Hdisj inflow _ i)).
      by apply Hpl4.
    + fold outflows. rewrite Eo. intros i a [=].
    + intros i a Ha. by apply Hpl5.
  - (* an empty right-hand column *)
    apply has_none in Eo, Ep. split; simpl.
    + done.
    + done.
    + fold outflows. rewrite Eo. intros i a [=].
    + fold projects. rewrite Ep. intros i a [=].
Qed.

(** The pass writes only above the caller's part of the heap, and the
    objects it allocates are, in order, one per caller node and one
    per caller link: each is [blank d] for its record [d], up to the
    positions written since. *)
Lemma position_nodes_frame data h0 :
  let p := position_nodes data h0 in
  take (length h0) (p_heap p) = h0 ∧
  (∀ B (g : Obj → B), position_free g →
     g <$> drop (length h0) (p_heap p)
     = g ∘ blank <$> (nodes data ++ links data)) ∧
  p_nodes p = seq (length h0) (length (nodes data)) ∧
  p_links p = seq (length h0 + length (nodes data)) (length (links data)).
Proof.
  unfold position_nodes.
  destruct (map_object_create (nodes data) h0) as [h1 ns] eqn:E1.
  destruct (map_object_create (links data) h1) as [h2 ls] eqn:E2.
  apply map_object_create_spec in E1 as (Hns & Hlen1 & Htk1 & Hh1).
  apply map_object_create_spec in E2 as (Hls & Hlen2 & Htk2 & Hh2).
  assert (Hge : ∀ t a, a ∈ List.filter (type_is h2 t) ns → length h0 ≤ a).
  { intros t a [Ha _]%filter_elem. subst ns. apply elem_of_seq in Ha. lia. }
  assert (Htk : take (length h0) h2 = h0).
  { rewrite <- Htk1 at 2. rewrite <- Htk2. rewrite take_take. f_equal. lia. }
  assert (Hdrop : drop (length h0) h2 = blank <$> (nodes data ++ links data)).
  { rewrite Hh2, Hh1, <- app_assoc, drop_app_length. by rewrite fmap_app. }
  set (main := List.find (type_is h2 main_reservoir) ns).
  set (h3 := match main with Some m => _ | None => h2 end).
  assert (H3 : take (length h0) h3 = h0 ∧
               ∀ B (g : Obj → B), position_free g → g <$> h3 = g <$> h2).
  { subst h3. destruct main as [m |] eqn:Em; [| done].
    apply find_some in Em as [Hm _]. apply list_elem_of_In in Hm.
    subst ns. apply elem_of_seq in Hm.
    rewrite set_xy_take by lia. split; [done |].
    intros B g Hg. by apply set_xy_keeps. }
  destruct H3 as [Htk3 Hg3].
  assert (Hdone : ∀ h : heap,
    take (length h0) h = h0 →
    (∀ B (g : Obj → B), position_free g → g <$> h = g <$> h2) →
    take (length h0) h = h0 ∧
    ∀ B (g : Obj → B), position_free g →
      g <$> drop (length h0) h = g ∘ blank <$> (nodes data ++ links data)).
  { intros h Hh Hp. split; [done |]. intros B g Hg.
    by rewrite fmap_drop, (Hp B g Hg), <- fmap_drop, Hdrop,
      <- list_fmap_compose. }
  rewrite Hlen1 in Hls.
  destruct (Nat.ltb 0 _); destruct (Nat.ltb 0 _); simpl;
    (split_and!; [apply Hdone | apply Hdone | done | done]);
    try (intros B g Hg); rewrite ?place_column_field, ?place_column_take;
    eauto.
Qed.

(** The start rows chosen in the four cases of the right-hand column. *)
Lemma position_nodes_both data h0 :
  let p := position_nodes data h0 in
  outflowNodes p ≠ [] → projectNodes p ≠ [] →
  outflowStartY p
    = (outflowAnchorY - (len (outflowNodes p) - 1) * LAYOUT.NODE_SPACING)%Q ∧
  projectStartY p = projectAnchorY.
Proof.
  unfold position_nodes.
  destruct (map_object_create (nodes data) h0) as [h1 ns].
  destruct (map_object_create (links data) h1) as [h2 ls].
  destruct (Nat.ltb 0 (length (List.filter (type_is h2 outflow) ns))) eqn:Eo;
    destruct (Nat.ltb 0 (length (List.filter (type_is h2 project) ns))) eqn:Ep;
    simpl; intros Ho Hp.
  - split; reflexivity.
  - apply has_none in Ep. done.
  - apply has_none in Eo. done.
  - apply has_none in Eo. done.
Qed.

(** Reading through a copy.  On a heap whose prototype chains descend,
    and for a graph that refers to records of that heap, a property
    other than [fx] and [fy] read on the copy of a record is the
    property of the record itself. *)
Lemma get_prefix {A} (sel : Obj → option A) (h0 h : heap) :
  ordered h → ordered h0 → take (length h0) h = h0 →
  ∀ d, d < length h0 → get sel h d = get sel h0 d.
Proof.
  intros Hord Hord0 Htk d. induction (lt_wf d) as [d _ IH]. intros Hd.
  rewrite (get_unfold sel h d Hord), (get_unfold sel h0 d Hord0).
  assert (E : h !! d = h0 !! d) by (by rewrite <- Htk, lookup_take_lt).
  rewrite E. destruct (h0 !! d) as [o |] eqn:Ho; [| done].
  destruct (sel o); [done |].
  destruct (proto o) as [p |] eqn:Hp; [| done].
  pose proof (Hord0 d o p Ho Hp). apply IH; lia.
Qed.

Lemma position_nodes_ordered data h0 :
  ordered h0 →
  Forall (λ d, d < length h0) (nodes data ++ links data) →
  ordered (p_heap (position_nodes data h0)).
Proof.
  intros Hord Hvalid a o p Ho Hp.
  destruct (position_nodes_frame data h0) as (Htk & Hfield & _).
  destruct (decide (a < length h0)) as [Ha | Ha].
  - apply (Hord a o p); [| done].
    by rewrite <- Htk, lookup_take_lt.
  - specialize (Hfield _ proto proto_position_free).
    apply (f_equal (λ l, l !! (a - length h0))) in Hfield.
    rewrite !list_lookup_fmap, lookup_drop in Hfield.
    replace (length h0 + (a - length h0)) with a in Hfield by lia.
    rewrite Ho in Hfield. simpl in Hfield.
    destruct ((nodes data ++ links data) !! (a - length h0)) as [d |] eqn:Hd;
      [| done].
    simpl in Hfield. injection Hfield as Hpd. rewrite Hp in Hpd.
    injection Hpd as ->.
    rewrite Forall_forall in Hvalid.
    assert (d < length h0).
    { apply Hvalid. apply list_elem_of_In. by eapply list_elem_of_lookup_2. }
    lia.
Qed.

Lemma copies_inherit {A} (sel : Obj → option A) data h0 :
  position_free sel → (∀ d, sel (blank d) = None) →
  ordered h0 →
  Forall (λ d, d < length h0) (nodes data ++ links data) →
  ∀ i d, (nodes data ++ links data) !! i = Some d →
    get sel (p_heap (position_nodes data h0)) (length h0 + i) = get sel h0 d.
Proof.
  intros Hfree Hblank Hord Hvalid i d Hd.
  pose proof (position_nodes_ordered data h0 Hord Hvalid) as Hordp.
  destruct (position_nodes_frame data h0) as (Htk & Hfield & _).
  pose proof (Hfield _ sel Hfree) as Hs.
  pose proof (Hfield _ proto proto_position_free) as Hp.
  apply (f_equal (λ l, l !! i)) in Hs. apply (f_equal (λ l, l !! i)) in Hp.
  rewrite !list_lookup_fmap, lookup_drop, Hd in Hs.
  rewrite !list_lookup_fmap, lookup_drop, Hd in Hp. simpl in Hs, Hp.
  rewrite (get_unfold sel _ _ Hordp).
  destruct (p_heap (position_nodes data h0) !! (length h0 + i)) as [o |];
    [| done].
  simpl in Hs, Hp. injection Hs as Hs. injection Hp as Hp.
  rewrite Hs, Hblank, Hp.
  apply get_prefix; [done | done | done |].
  rewrite Forall_forall in Hvalid. apply Hvalid.
  apply list_elem_of_In. by eapply list_elem_of_lookup_2.
Qed.

(** ** Numbers *)

Lemma idx_nonneg i : (0 <= idx i)%Q.
Proof. unfold idx. change 0%Q with (inject_Z 0). rewrite <- Zle_Qle. lia. Qed.

Lemma idx_below_len (l : list nat) i a :
  l !! i = Some a → (idx i <= len l - 1)%Q.
Proof.
  intros H%lookup_lt_Some. unfold idx, len.
  assert (E : (inject_Z (Z.of_nat i + 1) <= inject_Z (Z.of_nat (length l)))%Q)
    by (rewrite <- Zle_Qle; lia).
  rewrite inject_Z_plus in E. change (inject_Z 1) with 1%Q in E. lra.
Qed.

(** C2, as stated, fails.  In the sample graph of reservoirData.ts both
    groups are present, yet the first of the two outflows is not at
    the centred offset from its anchor: it sits at -60 where the
    centring formula gives -20 + (-(2-1)*40/2 + 0*40) = -40. *)
Lemma right_column_not_centered :
  ∃ a y,
    outflowNodes reservoirData_placed !! 0 = Some a ∧
    projectNodes reservoirData_placed ≠ [] ∧
    fy (p_heap reservoirData_placed) a = Some y ∧
    ¬ (y == outflowAnchorY
             + centeredOffset (len (outflowNodes reservoirData_placed)) 0)%Q.
Proof.
  eexists _, _. split; [vm_compute; reflexivity |].
  split; [vm_compute; discriminate |].
  split; [vm_compute; reflexivity |].
  vm_compute. discriminate.
Qed.

(** C2, amended.  When both the outflow list and the project list are
    non-empty, every node of both lists is on the right-hand column
    x = HORIZONTAL_SPACING; the outflows are stacked upwards from their
    anchor, the i-th of N at y = -MAIN_RECT_HEIGHT/4 - (N-1-i)*spacing
    (so the last one is on the anchor), and the projects downwards
    from theirs, the i-th at y = +MAIN_RECT_HEIGHT/4 + i*spacing (so
    the first one is on the anchor).  Every outflow is therefore at
    or above -MAIN_RECT_HEIGHT/4, every project at or below
    +MAIN_RECT_HEIGHT/4, and the two groups never overlap, whatever
    the two counts. *)
Theorem right_column_groups data h0 :
  let p := position_nodes data h0 in
  outflowNodes p ≠ [] → projectNodes p ≠ [] →
  (∀ i a, outflowNodes p !! i = Some a →
     fx (p_heap p) a = Some rightColumnX ∧
     ∃ y, fy (p_heap p) a = Some y ∧
          (y == outflowAnchorY
                - (len (outflowNodes p) - 1 - idx i) * LAYOUT.NODE_SPACING)%Q ∧
          (y <= outflowAnchorY)%Q) ∧
  (∀ i a, projectNodes p !! i = Some a →
     fx (p_heap p) a = Some rightColumnX ∧
     ∃ y, fy (p_heap p) a = Some y ∧
          (y == projectAnchorY + idx i * LAYOUT.NODE_SPACING)%Q ∧
          (projectAnchorY <= y)%Q) ∧
  (outflowAnchorY < projectAnchorY)%Q.
Proof.
  intros p Ho Hp.
  destruct (position_nodes_both data h0 Ho Hp) as [Eo Ep].
  destruct (position_nodes_positioned data h0) as [_ _ Hout Hproj].
  fold p in Eo, Ep, Hout, Hproj. split_and!.
  - intros i a Ha. specialize (Hout i a Ha).
    split; [by eapply placed_at_fx |].
    eexists. split; [by eapply placed_at_fy |].
    pose proof (idx_below_len _ _ _ Ha). pose proof (idx_nonneg i).
    rewrite Eo. unfold rowY, LAYOUT.NODE_SPACING in *. split; lra.
  - intros i a Ha. specialize (Hproj i a Ha).
    split; [by eapply placed_at_fx |].
    eexists. split; [by eapply placed_at_fy |].
    pose proof (idx_nonneg i).
    rewrite Ep. unfold rowY, LAYOUT.NODE_SPACING in *. split; lra.
  - reflexivity.
Qed.

(** The amended C2 at the sample graph: its first outflow is at -60. *)
Lemma right_column_groups_sample :
  outflowNodes reservoirData_placed ≠ [] ∧
  projectNodes reservoirData_placed ≠ [] ∧
  ∃ y, fy (p_heap reservoirData_placed) 21 = Some y ∧ (y == -60)%Q.
Proof.
  assert (Ho : outflowNodes reservoirData_placed ≠ [])
    by (vm_compute; discriminate).
  assert (Hp : projectNodes reservoirData_placed ≠ [])
    by (vm_compute; discriminate).
  split; [exact Ho |]. split; [exact Hp |].
  destruct (right_column_groups reservoirData reservoirData_heap Ho Hp)
    as (Hout & _ & _).
  destruct (Hout 0 21 eq_refl) as (_ & y & Hy & Hval & _).
  exists y. split; [exact Hy |]. rewrite Hval. vm_compute. reflexivity.
Defined.

(** ** Content bounds *)

Lemma len_nonempty (l : list nat) : l ≠ [] → (1 <= len l)%Q.
Proof.
  intros Hl. unfold len. change 1%Q with (inject_Z 1). rewrite <- Zle_Qle.
  destruct l; [done | simpl; lia].
Qed.

(** Where the bounds are right: with both groups on the right-hand
    column, the hub and every inflow, outflow and project lie inside
    the content bounds, [PADDING] away from the upper and lower
    edge. *)
Lemma bounds_contain_both_groups data h0 :
  let p := position_nodes data h0 in
  outflowNodes p ≠ [] → projectNodes p ≠ [] →
  ∀ a,
    mainNode p = Some a ∨ a ∈ inflowNodes p ∨
    a ∈ outflowNodes p ∨ a ∈ projectNodes p →
    ∃ x y, fx (p_heap p) a = Some x ∧ fy (p_heap p) a = Some y ∧
           (minX <= x <= maxX)%Q ∧
           (minY p + LAYOUT.PADDING <= y <= maxY p - LAYOUT.PADDING)%Q.
Proof.
  intros p Ho Hp a Ha.
  destruct (position_nodes_both data h0 Ho Hp) as [Eo Ep].
  destruct (position_nodes_positioned data h0) as [Hmain Hin Hout Hproj].
  fold p in Eo, Ep, Hmain, Hin, Hout, Hproj.
  pose proof (len_nonempty _ Ho) as Lo. pose proof (len_nonempty _ Hp) as Lp.
  assert (Hmin : (minY p + LAYOUT.PADDING <= inflowStartY p)%Q ∧
                 (minY p + LAYOUT.PADDING <= outflowStartY p)%Q).
  { unfold minY. pose proof (Q.le_min_l (inflowStartY p) (outflowStartY p)).
    pose proof (Q.le_min_r (inflowStartY p) (outflowStartY p)). split; lra. }
  assert (Hmax :
    (inflowStartY p + (len (inflowNodes p) - 1) * LAYOUT.NODE_SPACING
       <= maxY p - LAYOUT.PADDING)%Q ∧
    (projectStartY p + (len (projectNodes p) - 1) * LAYOUT.NODE_SPACING
       <= maxY p - LAYOUT.PADDING)%Q).
  { unfold maxY.
    pose proof (Q.le_max_l
      (inflowStartY p + (len (inflowNodes p) - 1) * LAYOUT.NODE_SPACING)
      (projectStartY p + (len (projectNodes p) - 1) * LAYOUT.NODE_SPACING)).
    pose proof (Q.le_max_r
      (inflowStartY p + (len (inflowNodes p) - 1) * LAYOUT.NODE_SPACING)
      (projectStartY p + (len (projectNodes p) - 1) * LAYOUT.NODE_SPACING)).
    split; lra. }
  destruct Hmin as [Hmin1 Hmin2]. destruct Hmax as [Hmax1 Hmax2].
  rewrite Eo in Hmin2. rewrite Ep in Hmax2.
  assert (Ao : (outflowAnchorY == -20)%Q) by reflexivity.
  assert (Ap : (projectAnchorY == 20)%Q) by reflexivity.
  unfold LAYOUT.NODE_SPACING in *.
  assert (Hx : ∀ x, x = contentCenterX ∨ x = leftColumnX ∨ x = rightColumnX →
                    (minX <= x <= maxX)%Q).
  { intros x [-> | [-> | ->]]; split; vm_compute; discriminate. }
  destruct Ha as [Ha | [Ha | [Ha | Ha]]].
  - apply Hmain in Ha. eexists _, _.
    split; [by eapply placed_at_fx |]. split; [by eapply placed_at_fy |].
    split; [apply Hx; by left |]. unfold contentCenterY. lra.
  - apply list_elem_of_lookup_1 in Ha as [i Hi].
    pose proof (Hin i a Hi) as Hpl.
    eexists _, _.
    split; [by eapply placed_at_fx |]. split; [by eapply placed_at_fy |].
    split; [apply Hx; by right; left |].
    pose proof (idx_below_len _ _ _ Hi). pose proof (idx_nonneg i).
    unfold rowY, LAYOUT.NODE_SPACING. lra.
  - apply list_elem_of_lookup_1 in Ha as [i Hi].
    pose proof (Hout i a Hi) as Hpl.
    eexists _, _.
    split; [by eapply placed_at_fx |]. split; [by eapply placed_at_fy |].
    split; [apply Hx; by right; right |].
    pose proof (idx_below_len _ _ _ Hi). pose proof (idx_nonneg i).
    rewrite Eo. unfold rowY, LAYOUT.NODE_SPACING. lra.
  - apply list_elem_of_lookup_1 in Ha as [i Hi].
    pose proof (Hproj i a Hi) as Hpl.
    eexists _, _.
    split; [by eapply placed_at_fx |]. split; [by eapply placed_at_fy |].
    split; [apply Hx; by right; right |].
    pose proof (idx_below_len _ _ _ Hi). pose proof (idx_nonneg i).
    rewrite Ep. unfold rowY, LAYOUT.NODE_SPACING. lra.
Qed.

(** C3 at a hub with six outflows and nothing else.  The lone outflow
    column is centred on y = 0 and reaches y = 100, but [maxY] only
    looks at the inflow and project columns and is 80: the last
    outflow lies below the lower edge of the content bounds. *)
Theorem bounds_miss_lone_outflow_column :
  let p := position_nodes outflowsOnly outflowsOnly_heap in
  ∃ a y,
    outflowNodes p !! 5 = Some a ∧
    fy (p_heap p) a = Some y ∧
    (maxY p == 80)%Q ∧ (y == 100)%Q ∧ (maxY p < y)%Q.
Proof.
  eexists _, _. split; [vm_compute; reflexivity |].
  split; [vm_compute; reflexivity |].
  split_and!; vm_compute; reflexivity.
Qed.

(** C9.  For every graph and every heap, the positioning pass leaves
    the caller's part of the heap exactly as it was: no record of the
    caller gains or changes a field.  The node and link arrays the
    pass works on hold only locations allocated by the pass, and the
    objects allocated are, in order, one per caller node and one per
    caller link, each having that record as its prototype.  The paths
    drawn from them ([renderLinks]) are built from numbers and strings
    only and hold no location. *)
Theorem caller_graph_unchanged data h0 :
  let p := position_nodes data h0 in
  take (length h0) (p_heap p) = h0 ∧
  Forall (λ a, length h0 ≤ a) (p_nodes p ++ p_links p) ∧
  proto <$> drop (length h0) (p_heap p) = Some <$> (nodes data ++ links data).
Proof.
  intros p. destruct (position_nodes_frame data h0) as (Htk & Hpr & Hn & Hl).
  fold p in Htk, Hpr, Hn, Hl. split_and!; [done | |].
  2: { rewrite (Hpr _ proto proto_position_free). done. }
  rewrite Hn, Hl. apply Forall_app. split; apply Forall_forall; intros a Ha;
    apply in_seq in Ha; lia.
Qed.

(** ** Connectors *)

Lemma drawLinks_app h ns before : ∀ after group,
  drawLinks h ns (before ++ after) group
  = match drawLinks h ns before group with
    | Some group' => drawLinks h ns after group'
    | None => None
    end.
Proof.
  induction before as [| l before IH]; intros after group; simpl; [done |].
  destruct (drawLink h ns l); by rewrite ?IH.
Qed.

(** C8.  A link whose source id or target id matches no node makes
    the loop body return early: the result is [Skipped], which is
    neither a path nor an error, and the paths drawn for a list of
    links are the same with or without that link in it. *)
Theorem dangling_link_skipped h ns link :
  find_by_id h ns (get own_source h link) = None ∨
  find_by_id h ns (get own_target h link) = None →
  drawLink h ns link = Skipped ∧
  ∀ before after group,
    drawLinks h ns (before ++ link :: after) group
    = drawLinks h ns (before ++ after) group.
Proof.
  intros Hd.
  assert (Hs : drawLink h ns link = Skipped).
  { unfold drawLink. destruct Hd as [-> | ->]; [done |].
    by destruct (find_by_id h ns (get own_source h link)). }
  split; [exact Hs |]. intros before after group.
  rewrite !drawLinks_app. destruct (drawLinks h ns before group); [| done].
  simpl. by rewrite Hs.
Qed.

(** C8 at the "links with missing nodes" graph of the tests: the link
    from "nonexistent" is skipped, and the pass draws no path. *)
Lemma dangling_link_skipped_sample :
  let p := position_nodes invalidLinks invalidLinks_heap in
  find_by_id (p_heap p) (p_nodes p) (get own_source (p_heap p) 4) = None ∧
  drawLink (p_heap p) (p_nodes p) 4 = Skipped ∧
  renderLinks invalidLinks invalidLinks_heap = Some [].
Proof.
  intros p.
  assert (H : find_by_id (p_heap p) (p_nodes p)
                 (get own_source (p_heap p) 4) = None)
    by (vm_compute; reflexivity).
  split; [exact H |]. split; [| vm_compute; reflexivity].
  exact (proj1 (dangling_link_skipped (p_heap p) (p_nodes p) 4 (or_introl H))).
Defined.

(** C7.  A link whose two ends resolve is drawn with the stroke of
    the target's type, except that a link into the main reservoir
    takes the stroke of the source's type. *)
Theorem link_color h ns link source target ts tt :
  find_by_id h ns (get own_source h link) = Some source →
  find_by_id h ns (get own_target h link) = Some target →
  get own_type h source = Some ts →
  get own_type h target = Some tt →
  ∃ e, drawLink h ns link = Drawn e ∧
       path_stroke e
       = stroke (COLOR_MAP (match tt with main_reservoir => ts | _ => tt end)).
Proof.
  intros Hs Ht Hts Htt. unfold drawLink. rewrite Hs, Ht.
  unfold linkTargetType, type_is. rewrite Hts, Htt.
  destruct (pathStart h source target) as [x1 y1].
  destruct tt, ts; simpl; eexists; split; reflexivity.
Qed.

(** C7 at the first link of the sample graph, an inflow into the hub:
    it has the inflow stroke. *)
Lemma link_color_sample :
  let p := reservoirData_placed in
  find_by_id (p_heap p) (p_nodes p) (get own_source (p_heap p) 26) = Some 18 ∧
  find_by_id (p_heap p) (p_nodes p) (get own_target (p_heap p) 26) = Some 17 ∧
  ∃ e, drawLink (p_heap p) (p_nodes p) 26 = Drawn e ∧
       path_stroke e = stroke (COLOR_MAP inflow).
Proof.
  intros p.
  assert (Hs : find_by_id (p_heap p) (p_nodes p)
                  (get own_source (p_heap p) 26) = Some 18)
    by (vm_compute; reflexivity).
  assert (Ht : find_by_id (p_heap p) (p_nodes p)
                  (get own_target (p_heap p) 26) = Some 17)
    by (vm_compute; reflexivity).
  split; [exact Hs |]. split; [exact Ht |].
  refine (link_color (p_heap p) (p_nodes p) 26 18 17
            inflow main_reservoir Hs Ht _ _);
    vm_compute; reflexivity.
Defined.

(** C6.  A link whose two ends resolve and are positioned is drawn as
    exactly four points: the start (x1, y1), then (midX, y1) with
    midX = (x1 + x2) / 2, then (midX, y2), then the end (x2, y2); that
    is a horizontal, a vertical and a horizontal segment.  The start
    is the source's position, moved to the right edge of the hub
    rectangle (and to its upper or lower quarter for an outflow or a
    project) when the source is the main reservoir.  Nothing depends
    on the coordinates being distinct, so segments of length zero are
    emitted like any other. *)
Theorem connector_elbow h ns link source target ts tt sx sy tx ty :
  find_by_id h ns (get own_source h link) = Some source →
  find_by_id h ns (get own_target h link) = Some target →
  get own_type h source = Some ts →
  get own_type h target = Some tt →
  fx h source = Some sx → fy h source = Some sy →
  fx h target = Some tx → fy h target = Some ty →
  let x1 :=
    match ts with
    | main_reservoir => (sx + LAYOUT.MAIN_RECT_WIDTH / 2)%Q
    | _ => sx
    end in
  let y1 :=
    match ts, tt with
    | main_reservoir, outflow => (sy - LAYOUT.MAIN_RECT_HEIGHT / 4)%Q
    | main_reservoir, project => (sy + LAYOUT.MAIN_RECT_HEIGHT / 4)%Q
    | _, _ => sy
    end in
  let midX := ((x1 + tx) / 2)%Q in
  ∃ e, drawLink h ns link = Drawn e ∧
       d e = [MoveTo (Some x1) (Some y1);
              LineTo (Some midX) (Some y1);
              LineTo (Some midX) (Some ty);
              LineTo (Some tx) (Some ty)].
Proof.
  intros Hs Ht Hts Htt Hsx Hsy Htx Hty. unfold drawLink. rewrite Hs, Ht.
  unfold linkTargetType, pathStart, type_is.
  rewrite Hts, Htt, Hsx, Hsy, Htx, Hty.
  destruct ts, tt; simpl; eexists; split; reflexivity.
Qed.

(** C6 at the link from the hub to the first outflow of the sample
    graph. *)
Lemma connector_elbow_sample :
  let p := reservoirData_placed in
  ∃ e, drawLink (p_heap p) (p_nodes p) 29 = Drawn e ∧
       d e = [MoveTo (Some (0 + 180 / 2)%Q) (Some (0 - 80 / 4)%Q);
              LineTo (Some ((0 + 180 / 2 + 220) / 2)%Q) (Some (0 - 80 / 4)%Q);
              LineTo (Some ((0 + 180 / 2 + 220) / 2)%Q) (Some (-240 # 4)%Q);
              LineTo (Some 220%Q) (Some (-240 # 4)%Q)].
Proof.
  intros p.
  refine (connector_elbow (p_heap p) (p_nodes p) 29 17 21
            main_reservoir outflow 0 0 220 (-240 # 4) _ _ _ _ _ _ _ _);
    vm_compute; reflexivity.
Defined.

(** ** Hub text *)

Section TextFitterFacts.

Variable measure : string → Q → Q.
Variable text : string.
Variables maxWidth maxHeight : Q.

(** One step of the word loop keeps every closed line, and the line
    being built, acceptable. *)
Lemma wrap_step_ok size lines cur word :
  word ∈ split_ws text →
  Forall (line_ok measure text maxWidth size) lines →
  (truthy cur = true → line_ok measure text maxWidth size cur) →
  let st := wrap_step measure maxWidth size (lines, cur) word in
  Forall (line_ok measure text maxWidth size) st.1 ∧
  (truthy st.2 = true → line_ok measure text maxWidth size st.2).
Proof.
  intros Hw Hlines Hcur. unfold wrap_step.
  destruct (truthy cur) eqn:Et; simpl.
  - destruct (Qle_bool _ maxWidth) eqn:Ew; simpl.
    + split; [done |]. intros _. right. by apply Qle_bool_iff.
    + split; [| intros _; by left].
      apply Forall_app. split; [done |]. apply Forall_singleton. by apply Hcur.
  - rewrite andb_false_r. simpl. split; [done |]. intros _. by left.
Qed.

Lemma wrap_fold_ok size ws : ∀ st,
  (∀ w, w ∈ ws → w ∈ split_ws text) →
  Forall (line_ok measure text maxWidth size) st.1 →
  (truthy st.2 = true → line_ok measure text maxWidth size st.2) →
  let st' := fold_left (wrap_step measure maxWidth size) ws st in
  Forall (line_ok measure text maxWidth size) st'.1 ∧
  (truthy st'.2 = true → line_ok measure text maxWidth size st'.2).
Proof.
  induction ws as [| w ws IH]; intros [lines cur] Hsub Hl Hc; simpl; [done |].
  apply IH.
  - intros v Hv. apply Hsub. by right.
  - apply wrap_step_ok; [apply Hsub; by left | done | done].
  - apply wrap_step_ok; [apply Hsub; by left | done | done].
Qed.

Lemma wrapText_lines_ok size :
  Forall (line_ok measure text maxWidth size)
         (wrapText measure text maxWidth size).
Proof.
  unfold wrapText.
  pose proof (wrap_fold_ok size (split_ws text) ([], EmptyString)) as H.
  simpl in H.
  destruct (fold_left _ _ _) as [lines cur].
  destruct H as [Hl Hc]; [done | constructor | done |].
  simpl in *. destruct (truthy cur); [| done].
  apply Forall_app. split; [done |]. apply Forall_singleton. by apply Hc.
Qed.

Lemma fit_loop_S n st :
  fit_loop measure (S n) text maxWidth maxHeight st
  = if Qle_bool 10 (fontSize st) then
      let lines := wrapText measure text maxWidth (fontSize st) in
      let lineHeight := (fontSize st * (12 # 10))%Q in
      if Qle_bool (inject_Z (Z.of_nat (length lines)) * lineHeight) maxHeight
      then Some (mkFit (fontSize st) lines lineHeight)
      else fit_loop measure n text maxWidth maxHeight
             (mkFit (fontSize st - 1)%Q lines lineHeight)
    else Some st.
Proof. reflexivity. Qed.

(** The loop stops: with [n + 1] tests of the condition available and
    a font size below [10 + n], a result is produced. *)
Lemma fit_loop_total n : ∀ st,
  (fontSize st < 10 + inject_Z (Z.of_nat n))%Q →
  ∃ f, fit_loop measure (S n) text maxWidth maxHeight st = Some f.
Proof.
  induction n as [| n IH]; intros st Hlt; rewrite fit_loop_S.
  - destruct (Qle_bool 10 (fontSize st)) eqn:E; [| by eexists].
    apply Qle_bool_iff in E.
    change (inject_Z (Z.of_nat 0)) with 0%Q in Hlt. lra.
  - destruct (Qle_bool 10 (fontSize st)) eqn:E; [| by eexists].
    cbv zeta. destruct (Qle_bool _ maxHeight); [by eexists |].
    apply IH. cbn [fontSize].
    rewrite Nat2Z.inj_succ, <- Z.add_1_r, inject_Z_plus in Hlt.
    change (inject_Z 1) with 1%Q in Hlt. lra.
Qed.

(** What the loop hands back was wrapped at a size that is at least
    the size it reports. *)
Lemma fit_loop_wrapped n : ∀ st f,
  wrapped_at measure text maxWidth st →
  fit_loop measure n text maxWidth maxHeight st = Some f →
  wrapped_at measure text maxWidth f.
Proof.
  induction n as [| n IH]; intros st f Hst; [done |]. rewrite fit_loop_S.
  destruct (Qle_bool 10 (fontSize st)); [| by intros [= <-]].
  cbv zeta. destruct (Qle_bool _ maxHeight).
  - intros [= <-]. right. exists (fontSize st). simpl. split; [lra | done].
  - apply IH. right. exists (fontSize st). simpl. split; [lra | done].
Qed.

(** The size reported by the loop lies between one below the floor
    and the size it started from. *)
Lemma fit_loop_range n : ∀ st f,
  (9 <= fontSize st)%Q →
  fit_loop measure n text maxWidth maxHeight st = Some f →
  (9 <= fontSize f <= fontSize st)%Q.
Proof.
  induction n as [| n IH]; intros st f Hst; [done |]. rewrite fit_loop_S.
  destruct (Qle_bool 10 (fontSize st)) eqn:E; [| intros [= <-]; lra].
  apply Qle_bool_iff in E.
  cbv zeta. destruct (Qle_bool _ maxHeight).
  - intros [= <-]. simpl. lra.
  - intros H. apply IH in H; simpl in *; lra.
Qed.

End TextFitterFacts.

Lemma fitText_total measure label : ∃ f, fitText measure label = Some f.
Proof.
  apply (fit_loop_total measure label hubMaxWidth hubMaxHeight 7).
  reflexivity.
Qed.

Lemma char_measure_monotonic : monotonic char_measure.
Proof.
  intros s a b Hab. unfold char_measure.
  assert (0 <= inject_Z (Z.of_nat (String.length s)))%Q
    by (change 0%Q with (inject_Z 0); rewrite <- Zle_Qle; lia).
  nra.
Qed.

(** C4 at a label that wraps into six lines at every candidate size,
    measured at six tenths of the font size per character.  No size
    from 16 down to 10 fits the 60 px of height, the loop leaves
    [fontSize] at 9, and all six lines are drawn at 9 px, below the
    floor of 10. *)
Theorem hub_text_below_floor :
  ∃ els,
    drawHubText char_measure longLabel = Some els ∧
    length els = 6 ∧
    Forall (λ e, (text_fontSize e == 9)%Q ∧ (text_fontSize e < 10)%Q) els.
Proof.
  eexists. split; [vm_compute; reflexivity |]. split; [reflexivity |].
  repeat constructor.
Qed.

(** C5, as stated, fails.  With a monotonic measurement, a label made
    of one 41-character word is fitted at 16 px as a single line of
    width 393.6, wider than the 160 px allowed. *)
Lemma unbreakable_word_too_wide :
  monotonic char_measure ∧
  ∃ f line,
    fitText char_measure unbreakableLabel = Some f ∧
    line ∈ fit_lines f ∧
    ¬ (char_measure line (fontSize f) <= hubMaxWidth)%Q.
Proof.
  split; [exact char_measure_monotonic |].
  eexists _, _. split; [vm_compute; reflexivity |].
  split; [left |]. vm_compute. intros H. by apply H.
Qed.

(** ** Zoom buttons *)

Lemma clamp_inside (lo hi v : Q) :
  (lo <= v)%Q → (v <= hi)%Q → (Qmax lo (Qmin hi v) == v)%Q.
Proof.
  intros Hlo Hhi. rewrite (Q.min_r hi v Hhi). by apply Q.max_r.
Qed.

Lemma scaleBy_k extent c t f :
  d3.k (d3.scaleBy extent c t f)
  = Qmax (fst extent) (Qmin (snd extent) (d3.k t * f)%Q).
Proof. reflexivity. Qed.

(** C1 after any sequence of button clicks.  The reset button installs
    [d3.zoomIdentity]: the translation is cleared, but the scale is 1,
    not the INITIAL_SCALE = 0.8 that the same component sets when it
    builds the scene. *)
Theorem reset_installs_identity bs c :
  let v := handleResetZoom (clicks bs (mount c)) in
  transform v = d3.zoomIdentity ∧
  d3.k (transform v) = 1%Q ∧
  d3.x (transform v) = 0%Q ∧ d3.y (transform v) = 0%Q ∧
  zoomLevel v = 1%Q ∧
  ¬ (d3.k (transform v) == ZOOM.INITIAL_SCALE)%Q ∧
  (d3.k (transform (mount c)) == ZOOM.INITIAL_SCALE)%Q.
Proof. split_and!; try reflexivity. intros H. discriminate H. Qed.

(** C10.  The zoom-in factor is 1.3 and the zoom-out factor is 0.7,
    which is not 1/1.3.  At every scale s with 1.3*s <= MAX_SCALE and
    MIN_SCALE <= 0.91*s neither button clamps, and zooming in and then
    out ends at scale 0.91*s, which is not s. *)
Theorem zoom_in_then_out_not_inverse v :
  let s := d3.k (transform v) in
  (ZOOM.ZOOM_IN_FACTOR * s <= ZOOM.MAX_SCALE)%Q →
  (ZOOM.MIN_SCALE <= (91 # 100) * s)%Q →
  let s' := d3.k (transform (handleZoomOut (handleZoomIn v))) in
  (s' == (91 # 100) * s)%Q ∧ ¬ (s' == s)%Q ∧
  (ZOOM.ZOOM_IN_FACTOR == 13 # 10)%Q ∧ (ZOOM.ZOOM_OUT_FACTOR == 7 # 10)%Q ∧
  ¬ (ZOOM.ZOOM_OUT_FACTOR == 1 / ZOOM.ZOOM_IN_FACTOR)%Q.
Proof.
  intros s Hin Hout s'.
  unfold ZOOM.ZOOM_IN_FACTOR, ZOOM.MAX_SCALE, ZOOM.MIN_SCALE in *.
  assert (E : (s' == (91 # 100) * s)%Q).
  { subst s'. unfold handleZoomOut, handleZoomIn, on_zoom. cbn [transform centre].
    rewrite !scaleBy_k. cbn [fst snd scaleExtent].
    unfold ZOOM.ZOOM_IN_FACTOR, ZOOM.ZOOM_OUT_FACTOR, ZOOM.MAX_SCALE, ZOOM.MIN_SCALE.
    fold s.
    assert (E1 : (Qmax (5 # 10) (Qmin 3 (s * (13 # 10))) == s * (13 # 10))%Q)
      by (apply clamp_inside; lra).
    rewrite E1. rewrite clamp_inside; lra. }
  split_and!; [exact E | | reflexivity | reflexivity | ].
  - rewrite E. lra.
  - intros H. discriminate H.
Qed.

(** C10 from the initial view: 0.8 becomes 0.728. *)
Lemma zoom_in_then_out_from_initial :
  let v := mount (400, 300)%Q in
  (ZOOM.ZOOM_IN_FACTOR * d3.k (transform v) <= ZOOM.MAX_SCALE)%Q ∧
  (ZOOM.MIN_SCALE <= (91 # 100) * d3.k (transform v))%Q ∧
  (d3.k (transform (handleZoomOut (handleZoomIn v))) == 728 # 1000)%Q.
Proof.
  intros v.
  assert (H1 : (ZOOM.ZOOM_IN_FACTOR * d3.k (transform v) <= ZOOM.MAX_SCALE)%Q)
    by (vm_compute; discriminate).
  assert (H2 : (ZOOM.MIN_SCALE <= (91 # 100) * d3.k (transform v))%Q)
    by (vm_compute; discriminate).
  split; [exact H1 |]. split; [exact H2 |].
  destruct (zoom_in_then_out_not_inverse v H1 H2) as (E & _).
  rewrite E. vm_compute. reflexivity.
Defined.

(** * Further properties of the code *)

(** ** More about the positioning pass *)

Lemma lookup_chain_ext {A} (sel : Obj → option A) (h h' : heap) :
  sel <$> h = sel <$> h' → proto <$> h = proto <$> h' →
  ∀ f a, lookup_chain sel h f a = lookup_chain sel h' f a.
Proof.
  intros Hs Hp. induction f as [| f IH]; intros a; simpl; [done |].
  pose proof (f_equal (λ l, l !! a) Hs) as Hsa.
  pose proof (f_equal (λ l, l !! a) Hp) as Hpa.
  simpl in Hsa, Hpa. rewrite !list_lookup_fmap in Hsa.
  rewrite !list_lookup_fmap in Hpa.
  destruct (h !! a) as [o |], (h' !! a) as [o' |]; simpl in *; try done.
  injection Hsa as ->. injection Hpa as ->.
  destruct (sel o'); [done |]. destruct (proto o'); [apply IH | done].
Qed.

Lemma get_ext {A} (sel : Obj → option A) (h h' : heap) a :
  sel <$> h = sel <$> h' → proto <$> h = proto <$> h' →
  get sel h a = get sel h' a.
Proof.
  intros Hs Hp. unfold get.
  replace (length h) with (length h').
  - by apply lookup_chain_ext.
  - by rewrite <- (length_fmap proto h'), <- Hp, length_fmap.
Qed.

Lemma position_nodes_view {B} (g : Obj → B) data h0 :
  position_free g →
  g <$> p_heap (position_nodes data h0) = g <$> allocated data h0.
Proof.
  intros Hg. destruct (position_nodes_frame data h0) as (Htk & Hfield & _).
  rewrite <- (take_drop (length h0) (p_heap (position_nodes data h0))).
  rewrite fmap_app, Htk, (Hfield _ g Hg). unfold allocated.
  by rewrite !fmap_app, <- !list_fmap_compose.
Qed.

Lemma own_type_position_free : position_free own_type.
Proof. done. Qed.

Lemma type_is_placed data h0 t a :
  type_is (p_heap (position_nodes data h0)) t a = type_is (allocated data h0) t a.
Proof.
  unfold type_is. rewrite (get_ext own_type _ (allocated data h0)); [done | |].
  - apply position_nodes_view, own_type_position_free.
  - apply position_nodes_view, proto_position_free.
Qed.

Lemma map_object_create_heap ds h h' l :
  map_object_create ds h = (h', l) → h' = h ++ (blank <$> ds).
Proof. intros H. by apply map_object_create_spec in H as (_ & _ & _ & ?). Qed.

Lemma find_ext {A} (f g : A → bool) l :
  (∀ a, f a = g a) → List.find f l = List.find g l.
Proof.
  intros E. induction l as [| a l IH]; simpl; [done |].
  rewrite E. by destruct (g a).
Qed.

Lemma position_nodes_lists data h0 :
  let p := position_nodes data h0 in
  inflowNodes p = List.filter (type_is (p_heap p) inflow) (p_nodes p) ∧
  outflowNodes p = List.filter (type_is (p_heap p) outflow) (p_nodes p) ∧
  projectNodes p = List.filter (type_is (p_heap p) project) (p_nodes p) ∧
  mainNode p = List.find (type_is (p_heap p) main_reservoir) (p_nodes p).
Proof.
  intros p.
  assert (H : inflowNodes p = List.filter (type_is (allocated data h0) inflow) (p_nodes p) ∧
    outflowNodes p = List.filter (type_is (allocated data h0) outflow) (p_nodes p) ∧
    projectNodes p = List.filter (type_is (allocated data h0) project) (p_nodes p) ∧
    mainNode p = List.find (type_is (allocated data h0) main_reservoir) (p_nodes p)).
  { subst p. unfold position_nodes, allocated.
    destruct (map_object_create (nodes data) h0) as [h1 ns] eqn:E1.
    destruct (map_object_create (links data) h1) as [h2 ls] eqn:E2.
    apply map_object_create_heap in E1, E2. subst h1 h2.
    rewrite fmap_app, app_assoc.
    destruct (Nat.ltb 0 _); destruct (Nat.ltb 0 _); done. }
  destruct H as (Hi & Ho & Hp & Hm). rewrite Hi, Ho, Hp, Hm.
  subst p. split_and!.
  1-3: apply filter_ext; intros a; by rewrite type_is_placed.
  apply find_ext; intros a; by rewrite type_is_placed.
Qed.

Lemma centeredStartY_eq (l : list nat) :
  (centeredStartY l == - (len l - 1) * 20)%Q.
Proof.
  unfold centeredStartY, contentCenterY, LAYOUT.NODE_SPACING. field.
Qed.

Lemma place_column_other x startY l (h : heap) b :
  b ∉ l → place_column x startY l h !! b = h !! b.
Proof.
  unfold place_column, forEach. generalize 0 as k. revert h.
  induction l as [| a l IH]; intros h k Hb; simpl; [done |].
  apply not_elem_of_cons in Hb as [Hne Hb].
  rewrite IH by done. apply set_xy_other. congruence.
Qed.

(** A node that no loop visits is left as [Object.create] made it. *)
Lemma position_nodes_untouched data h0 b :
  ¬ positioned_node (position_nodes data h0) b →
  p_heap (position_nodes data h0) !! b = allocated data h0 !! b.
Proof.
  unfold positioned_node, position_nodes, allocated.
  destruct (map_object_create (nodes data) h0) as [h1 ns] eqn:E1.
  destruct (map_object_create (links data) h1) as [h2 ls] eqn:E2.
  apply map_object_create_heap in E1, E2. subst h1.
  rewrite <- app_assoc, <- fmap_app in E2. subst h2.
  set (h2 := h0 ++ (blank <$> nodes data ++ links data)).
  set (main := List.find (type_is h2 main_reservoir) ns).
  set (h3 := match main with Some m => _ | None => h2 end).
  assert (H3 : main ≠ Some b → h3 !! b = h2 !! b).
  { subst h3. destruct main as [m |]; [| done].
    intros Hm. apply set_xy_other. congruence. }
  destruct (Nat.ltb 0 _); destruct (Nat.ltb 0 _); simpl; intros Hn;
    rewrite ?place_column_other by tauto; apply H3; tauto.
Qed.

(** The start rows in the cases the right-hand column can be in. *)
Lemma position_nodes_starts data h0 :
  let p := position_nodes data h0 in
  inflowStartY p = centeredStartY (inflowNodes p) ∧
  (outflowNodes p ≠ [] → projectNodes p = [] →
     outflowStartY p = centeredStartY (outflowNodes p)) ∧
  (outflowNodes p = [] → projectNodes p ≠ [] →
     projectStartY p = centeredStartY (projectNodes p)) ∧
  (outflowStartY p <= 0)%Q.
Proof.
  unfold position_nodes.
  destruct (map_object_create (nodes data) h0) as [h1 ns].
  destruct (map_object_create (links data) h1) as [h2 ls].
  set (outflows := List.filter (type_is h2 outflow) ns).
  set (projects := List.filter (type_is h2 project) ns).
  assert (Hc : ∀ l : list nat, l ≠ [] → (centeredStartY l <= 0)%Q).
  { intros l Hl. pose proof (len_nonempty l Hl).
    rewrite centeredStartY_eq. lra. }
  destruct (Nat.ltb 0 (length outflows)) eqn:Eo;
    destruct (Nat.ltb 0 (length projects)) eqn:Ep; simpl.
  - split_and!; [done | | | ].
    + intros _ Hp. apply Nat.ltb_lt in Ep. rewrite Hp in Ep. simpl in Ep. lia.
    + intros Ho. apply Nat.ltb_lt in Eo. rewrite Ho in Eo. simpl in Eo. lia.
    + assert (outflows ≠ []) as Hne.
      { intros E. apply Nat.ltb_lt in Eo. rewrite E in Eo. simpl in Eo. lia. }
      pose proof (len_nonempty _ Hne).
      assert (Ao : (contentCenterY - LAYOUT.MAIN_RECT_HEIGHT / 4 == -20)%Q)
        by reflexivity.
      unfold LAYOUT.NODE_SPACING. lra.
  - split_and!; [done | done | | ].
    + intros Ho. apply Nat.ltb_lt in Eo. rewrite Ho in Eo. simpl in Eo. lia.
    + apply Hc. intros E. apply Nat.ltb_lt in Eo. rewrite E in Eo.
      simpl in Eo. lia.
  - split_and!; [done | | done | done].
    intros Ho. apply has_none in Eo. done.
  - split_and!; [done | | | done].
    + intros Ho. apply has_none in Eo. done.
    + intros _ Hp. apply has_none in Ep. done.
Qed.

Lemma orderedb_from_spec h : ∀ a,
  orderedb_from a h = true →
  ∀ i o p, h !! i = Some o → proto o = Some p → p < a + i.
Proof.
  induction h as [| o' h IH]; intros a Hb i o p Ho Hp; [done |].
  simpl in Hb. apply andb_true_iff in Hb as [H1 H2].
  destruct i as [| i]; simpl in Ho.
  - injection Ho as ->. rewrite Hp in H1. apply Nat.ltb_lt in H1. lia.
  - specialize (IH (S a) H2 i o p Ho Hp). lia.
Qed.

Lemma wf_graphb_spec h0 data : wf_graphb h0 data = true → wf_graph h0 data.
Proof.
  unfold wf_graphb. intros [H1 H2]%andb_true_iff. split.
  - intros a o p Ho Hp. exact (orderedb_from_spec h0 0 H1 a o p Ho Hp).
  - apply Forall_forall. intros d Hd.
    rewrite forallb_forall in H2. apply Nat.ltb_lt. by apply H2.
Qed.

Lemma idx_inj i j : (idx i == idx j)%Q → i = j.
Proof.
  unfold idx. intros H. apply (proj1 (inject_Z_injective _ _)) in H. lia.
Qed.

Lemma rowY_inj s i j : (rowY s i == rowY s j)%Q → i = j.
Proof.
  unfold rowY, LAYOUT.NODE_SPACING. intros H. apply idx_inj. lra.
Qed.

Lemma centeredOffset_eq n i :
  (centeredOffset n i == - (n - 1) * 20 + idx i * 40)%Q.
Proof. unfold centeredOffset, LAYOUT.NODE_SPACING. field. Qed.

Lemma centered_row (l : list nat) i :
  (rowY (centeredStartY l) i == centeredOffset (len l) i)%Q.
Proof.
  unfold rowY. rewrite centeredStartY_eq, centeredOffset_eq.
  unfold LAYOUT.NODE_SPACING. lra.
Qed.

Lemma idx_mirror (l : list nat) i j :
  i + j + 1 = length l → (idx i + idx j == len l - 1)%Q.
Proof.
  intros H. unfold idx, len. rewrite <- H.
  rewrite !Nat2Z.inj_add, !inject_Z_plus.
  change (inject_Z (Z.of_nat 1)) with 1%Q. lra.
Qed.

(** X1.  Every inflow is on the left-hand column, x = -220; the i-th of
    N inflows is at y = -(N-1)*40/2 + i*40, so the column is centred
    on the hub's row: two inflows at mirrored ranks i and N-1-i have
    opposite y. *)
Theorem inflow_column_centered data h0 i a :
  let p := position_nodes data h0 in
  inflowNodes p !! i = Some a →
  fx (p_heap p) a = Some leftColumnX ∧ (leftColumnX == -220)%Q ∧
  ∃ y, fy (p_heap p) a = Some y ∧
       (y == centeredOffset (len (inflowNodes p)) i)%Q ∧
       ∀ j b, inflowNodes p !! j = Some b →
              i + j + 1 = length (inflowNodes p) →
              ∃ y', fy (p_heap p) b = Some y' ∧ (y + y' == 0)%Q.
Proof.
  intros p Ha.
  destruct (position_nodes_positioned data h0) as [_ Hin _ _].
  destruct (position_nodes_starts data h0) as (Es & _). fold p in Hin, Es.
  pose proof (Hin i a Ha) as Hpl.
  split; [by eapply placed_at_fx |]. split; [reflexivity |].
  eexists. split; [by eapply placed_at_fy |]. rewrite Es.
  split; [apply centered_row |].
  intros j b Hb Hij. eexists. split; [eapply placed_at_fy; by apply Hin |].
  rewrite Es, !centered_row, !centeredOffset_eq.
  pose proof (idx_mirror _ i j Hij). lra.
Qed.

Lemma inflow_column_centered_sample :
  inflowNodes reservoirData_placed !! 0 = Some 18 ∧
  ∃ y, fy (p_heap reservoirData_placed) 18 = Some y ∧ (y == -40)%Q.
Proof.
  assert (H : inflowNodes reservoirData_placed !! 0 = Some 18) by reflexivity.
  split; [exact H |].
  destruct (inflow_column_centered reservoirData reservoirData_heap 0 18 H)
    as (_ & _ & y & Hy & Hv & _).
  exists y. split; [exact Hy |]. rewrite Hv. vm_compute. reflexivity.
Defined.

(** X2.  When only one of the two right-hand lists is non-empty, that
    list alone is centred on the hub's row at x = +220: its i-th of N
    nodes is at y = -(N-1)*40/2 + i*40. *)
Theorem lone_group_centered data h0 (l : list nat) i a :
  let p := position_nodes data h0 in
  (l = outflowNodes p ∧ projectNodes p = [] ∨
   l = projectNodes p ∧ outflowNodes p = []) →
  l !! i = Some a →
  fx (p_heap p) a = Some rightColumnX ∧ (rightColumnX == 220)%Q ∧
  ∃ y, fy (p_heap p) a = Some y ∧ (y == centeredOffset (len l) i)%Q.
Proof.
  intros p Hl Ha.
  destruct (position_nodes_positioned data h0) as [_ _ Hout Hproj].
  destruct (position_nodes_starts data h0) as (_ & Eo & Ep & _).
  fold p in Hout, Hproj, Eo, Ep.
  assert (Hne : l ≠ []) by (intros ->; done).
  destruct Hl as [[-> Hnone] | [-> Hnone]].
  - pose proof (Hout i a Ha) as Hpl. rewrite (Eo Hne Hnone) in Hpl.
    split; [by eapply placed_at_fx |]. split; [reflexivity |].
    eexists. split; [by eapply placed_at_fy |]. apply centered_row.
  - pose proof (Hproj i a Ha) as Hpl. rewrite (Ep Hnone Hne) in Hpl.
    split; [by eapply placed_at_fx |]. split; [reflexivity |].
    eexists. split; [by eapply placed_at_fy |]. apply centered_row.
Qed.

Lemma lone_group_centered_sample :
  let p := position_nodes outflowsOnly outflowsOnly_heap in
  projectNodes p = [] ∧ outflowNodes p !! 0 = Some 8 ∧
  ∃ y, fy (p_heap p) 8 = Some y ∧ (y == -100)%Q.
Proof.
  intros p.
  assert (Hp : projectNodes p = []) by reflexivity.
  assert (Ha : outflowNodes p !! 0 = Some 8) by reflexivity.
  split; [exact Hp |]. split; [exact Ha |].
  destruct (lone_group_centered outflowsOnly outflowsOnly_heap
              (outflowNodes p) 0 8 (or_introl (conj eq_refl Hp)) Ha)
    as (_ & _ & y & Hy & Hv).
  exists y. split; [exact Hy |]. rewrite Hv. vm_compute. reflexivity.
Defined.

(** Where a positioned node is, by the list that holds it. *)
Lemma positioned_node_coords data h0 a :
  let p := position_nodes data h0 in
  positioned_node p a →
  (mainNode p = Some a ∧
   placed_at (p_heap p) a contentCenterX contentCenterY) ∨
  (∃ i, inflowNodes p !! i = Some a ∧
        placed_at (p_heap p) a leftColumnX (rowY (inflowStartY p) i)) ∨
  (∃ i, outflowNodes p !! i = Some a ∧
        placed_at (p_heap p) a rightColumnX (rowY (outflowStartY p) i)) ∨
  (∃ i, projectNodes p !! i = Some a ∧
        placed_at (p_heap p) a rightColumnX (rowY (projectStartY p) i)).
Proof.
  intros p Ha.
  destruct (position_nodes_positioned data h0) as [Hmain Hin Hout Hproj].
  fold p in Hmain, Hin, Hout, Hproj.
  destruct Ha as [Ha | [Ha | [Ha | Ha]]].
  - left. split; [done | by apply Hmain].
  - right; left. apply list_elem_of_lookup_1 in Ha as [i Hi].
    exists i. split; [done | by apply Hin].
  - right; right; left. apply list_elem_of_lookup_1 in Ha as [i Hi].
    exists i. split; [done | by apply Hout].
  - right; right; right. apply list_elem_of_lookup_1 in Ha as [i Hi].
    exists i. split; [done | by apply Hproj].
Qed.

Lemma placed_at_agree h a x y x' y' :
  placed_at h a x y → placed_at h a x' y' → x = x' ∧ y = y'.
Proof.
  intros (o & Ho & Hx & Hy) (o' & Ho' & Hx' & Hy'). rewrite Ho in Ho'.
  injection Ho' as <-. rewrite Hx in Hx'. rewrite Hy in Hy'.
  by injection Hx' as <-; injection Hy' as <-.
Qed.

Lemma lookup_in_same_list (l : list nat) i j a b :
  l !! i = Some a → l !! j = Some b → a ≠ b → i ≠ j.
Proof. intros Ha Hb Hne ->. rewrite Ha in Hb. by injection Hb. Qed.

(** X3.  No two positioned nodes coincide: the hub, the inflows, the
    outflows and the projects all get pairwise different (x, y). *)
Theorem positions_distinct data h0 a b :
  let p := position_nodes data h0 in
  positioned_node p a → positioned_node p b → a ≠ b →
  ∃ xa ya xb yb,
    fx (p_heap p) a = Some xa ∧ fy (p_heap p) a = Some ya ∧
    fx (p_heap p) b = Some xb ∧ fy (p_heap p) b = Some yb ∧
    ¬ (xa == xb ∧ ya == yb)%Q.
Proof.
  intros p Ha Hb Hne.
  assert (Hxs : ¬ (contentCenterX == leftColumnX)%Q ∧
                ¬ (contentCenterX == rightColumnX)%Q ∧
                ¬ (leftColumnX == rightColumnX)%Q) by (split_and!; done).
  destruct Hxs as (Hx1 & Hx2 & Hx3).
  assert (Hgap : ∀ i j, outflowNodes p !! i = Some a ∨ outflowNodes p !! i = Some b →
            projectNodes p !! j = Some a ∨ projectNodes p !! j = Some b →
            ¬ (rowY (outflowStartY p) i == rowY (projectStartY p) j)%Q).
  { intros i j Hi Hj.
    assert (Ho : outflowNodes p ≠ []) by (intros E; rewrite E in Hi; by destruct Hi).
    assert (Hp : projectNodes p ≠ []) by (intros E; rewrite E in Hj; by destruct Hj).
    destruct (position_nodes_both data h0 Ho Hp) as [Eo Ep]. fold p in Eo, Ep.
    assert (Hi' : (idx i <= len (outflowNodes p) - 1)%Q)
      by (destruct Hi as [Hi | Hi]; by eapply idx_below_len).
    pose proof (idx_nonneg j).
    assert (Ao : (outflowAnchorY == -20)%Q) by reflexivity.
    assert (Ap : (projectAnchorY == 20)%Q) by reflexivity.
    rewrite Eo, Ep. unfold rowY, LAYOUT.NODE_SPACING. lra. }
  pose proof (positioned_node_coords data h0 a Ha) as Ca.
  pose proof (positioned_node_coords data h0 b Hb) as Cb.
  fold p in Ca, Cb.
  destruct Ca as [[Ma Pa] | [(i & Ia & Pa) | [(i & Ia & Pa) | (i & Ia & Pa)]]];
  destruct Cb as [[Mb Pb] | [(j & Ib & Pb) | [(j & Ib & Pb) | (j & Ib & Pb)]]];
  eexists _, _, _, _;
  (split; [by eapply placed_at_fx |]); (split; [by eapply placed_at_fy |]);
  (split; [by eapply placed_at_fx |]); (split; [by eapply placed_at_fy |]);
  intros [Ex Ey].
  - congruence.
  - done.
  - done.
  - done.
  - by symmetry in Ex.
  - apply rowY_inj in Ey. by eapply (lookup_in_same_list _ i j a b).
  - done.
  - done.
  - by symmetry in Ex.
  - by symmetry in Ex.
  - apply rowY_inj in Ey. by eapply (lookup_in_same_list _ i j a b).
  - eapply Hgap; [by left | by right | done].
  - by symmetry in Ex.
  - by symmetry in Ex.
  - symmetry in Ey. eapply Hgap; [by right | by left | done].
  - apply rowY_inj in Ey. by eapply (lookup_in_same_list _ i j a b).
Qed.

Lemma positions_distinct_sample :
  let p := reservoirData_placed in
  positioned_node p 22 ∧ positioned_node p 23 ∧
  ∃ ya yb, fy (p_heap p) 22 = Some ya ∧ fy (p_heap p) 23 = Some yb ∧
           ¬ (ya == yb)%Q.
Proof.
  intros p.
  assert (Ha : positioned_node p 22).
  { right; right; left. apply (list_elem_of_lookup_2 _ 1). reflexivity. }
  assert (Hb : positioned_node p 23).
  { right; right; right. apply (list_elem_of_lookup_2 _ 0). reflexivity. }
  assert (Hne : 22 ≠ 23) by lia.
  split; [exact Ha |]. split; [exact Hb |].
  destruct (positions_distinct reservoirData reservoirData_heap 22 23 Ha Hb Hne)
    as (xa & ya & xb & yb & Hxa & Hya & Hxb & Hyb & Hd).
  exists ya, yb. split; [exact Hya |]. split; [exact Hyb |].
  intros E. apply Hd. split; [| exact E].
  assert (Ea : Some xa = Some rightColumnX) by (rewrite <- Hxa; reflexivity).
  assert (Eb : Some xb = Some rightColumnX) by (rewrite <- Hxb; reflexivity).
  injection Ea as ->. injection Eb as ->. reflexivity.
Defined.

(** X5.  The viewBox is never degenerate.  For every graph, the empty
    one included, the bounds are x from -320 to 420 and at least
    y from -100 to 80, so the box is 740 wide and at least 180 high.
    The hub always lies inside it, at least 100 below the upper and 80
    above the lower edge, and so does every inflow, at least [PADDING]
    away from both. *)
Theorem viewBox_never_degenerate data h0 :
  let p := position_nodes data h0 in
  (minX == -320)%Q ∧ (maxX == 420)%Q ∧
  (minY p <= -100)%Q ∧ (80 <= maxY p)%Q ∧
  (180 <= maxY p - minY p)%Q ∧
  Forall (λ a, ∃ x y, fx (p_heap p) a = Some x ∧ fy (p_heap p) a = Some y ∧
                      (minX <= x <= maxX)%Q ∧
                      (minY p + 100 <= y <= maxY p - 80)%Q)
         (option_list (mainNode p)) ∧
  Forall (λ a, ∃ x y, fx (p_heap p) a = Some x ∧ fy (p_heap p) a = Some y ∧
                      (minX <= x <= maxX)%Q ∧
                      (minY p + LAYOUT.PADDING <= y
                       <= maxY p - LAYOUT.PADDING)%Q)
         (inflowNodes p).
Proof.
  intros p.
  destruct (position_nodes_positioned data h0) as [Hmain Hin _ _].
  destruct (position_nodes_starts data h0) as (Es & _ & _ & Eo).
  fold p in Hmain, Hin, Es, Eo.
  assert (Hlen : (0 <= len (inflowNodes p))%Q).
  { unfold len. change 0%Q with (inject_Z 0). rewrite <- Zle_Qle. lia. }
  assert (Hmin : (minY p + LAYOUT.PADDING <= inflowStartY p)%Q ∧
                 (minY p + LAYOUT.PADDING <= outflowStartY p)%Q).
  { unfold minY. pose proof (Q.le_min_l (inflowStartY p) (outflowStartY p)).
    pose proof (Q.le_min_r (inflowStartY p) (outflowStartY p)). split; lra. }
  assert (Hmax :
    (inflowStartY p + (len (inflowNodes p) - 1) * LAYOUT.NODE_SPACING
       <= maxY p - LAYOUT.PADDING)%Q).
  { unfold maxY.
    pose proof (Q.le_max_l
      (inflowStartY p + (len (inflowNodes p) - 1) * LAYOUT.NODE_SPACING)
      (projectStartY p + (len (projectNodes p) - 1) * LAYOUT.NODE_SPACING)).
    lra. }
  destruct Hmin as [Hmin1 Hmin2].
  rewrite Es in Hmin1, Hmax. rewrite centeredStartY_eq in Hmin1, Hmax.
  unfold LAYOUT.PADDING, LAYOUT.NODE_SPACING in *.
  split; [reflexivity |]. split; [reflexivity |].
  split; [lra |]. split; [lra |]. split; [lra |]. split.
  - destruct (mainNode p) as [m |] eqn:Em; [| constructor].
    apply Forall_singleton. specialize (Hmain m eq_refl).
    eexists _, _. split; [by eapply placed_at_fx |].
    split; [by eapply placed_at_fy |].
    split; [split; vm_compute; discriminate |].
    unfold contentCenterY. lra.
  - apply list.Forall_forall. intros a Ha.
    apply list_elem_of_lookup_1 in Ha as [i Hi].
    pose proof (Hin i a Hi) as Hpl.
    eexists _, _. split; [by eapply placed_at_fx |].
    split; [by eapply placed_at_fy |].
    split; [split; vm_compute; discriminate |].
    pose proof (idx_below_len _ _ _ Hi). pose proof (idx_nonneg i).
    rewrite Es. unfold rowY, LAYOUT.NODE_SPACING.
    rewrite centeredStartY_eq. lra.
Qed.

(** *** Copies and their records *)

Lemma copy_type data h0 i d :
  wf_graph h0 data → nodes data !! i = Some d →
  get own_type (p_heap (position_nodes data h0)) (length h0 + i)
  = get own_type h0 d.
Proof.
  intros [Hord Hvalid] Hd.
  apply (copies_inherit own_type data h0); [done | done | done | done |].
  by apply lookup_app_l_Some.
Qed.

Lemma copy_in_nodes data h0 i d :
  nodes data !! i = Some d →
  length h0 + i ∈ p_nodes (position_nodes data h0).
Proof.
  intros Hd%lookup_lt_Some.
  destruct (position_nodes_frame data h0) as (_ & _ & -> & _).
  apply elem_of_seq. lia.
Qed.

Lemma allocated_copy data h0 i d :
  nodes data !! i = Some d → allocated data h0 !! (length h0 + i) = Some (blank d).
Proof.
  intros Hd. unfold allocated. rewrite lookup_app_r by lia.
  replace (length h0 + i - length h0) with i by lia.
  rewrite list_lookup_fmap, (lookup_app_l_Some _ _ _ _ Hd). done.
Qed.

Lemma find_seq_first (f : nat → bool) n k m :
  List.find f (seq n k) = Some m → ∀ i, n ≤ i < m → f i = false.
Proof.
  revert n. induction k as [| k IH]; intros n; simpl; [done |].
  destruct (f n) eqn:E.
  - intros [= <-] i Hi. lia.
  - intros Hm i Hi. destruct (decide (i = n)) as [-> | Hne]; [done |].
    apply (IH (S n) Hm). lia.
Qed.

(** X6.  No satellite is left without a position: every node whose
    record says inflow, outflow or project is given coordinates, on
    the left-hand column for an inflow and on the right-hand column
    otherwise. *)
Theorem every_satellite_positioned data h0 i d t :
  let p := position_nodes data h0 in
  wf_graph h0 data →
  nodes data !! i = Some d →
  get own_type h0 d = Some t → t ≠ main_reservoir →
  positioned_node p (length h0 + i) ∧
  ∃ x y, fx (p_heap p) (length h0 + i) = Some x ∧
         fy (p_heap p) (length h0 + i) = Some y ∧
         (x == match t with inflow => -220 | _ => 220 end)%Q.
Proof.
  intros p Hwf Hd Ht Hne.
  assert (Hty : type_is (p_heap p) t (length h0 + i) = true).
  { unfold type_is. subst p. rewrite (copy_type data h0 i d Hwf Hd), Ht.
    by apply NodeType_eqb_eq. }
  pose proof (copy_in_nodes data h0 i d Hd) as Hin. fold p in Hin.
  assert (Hel : length h0 + i ∈ List.filter (type_is (p_heap p) t) (p_nodes p))
    by (by apply filter_elem).
  destruct (position_nodes_lists data h0) as (Li & Lo & Lp & _).
  fold p in Li, Lo, Lp.
  destruct (position_nodes_positioned data h0) as [_ Pin Pout Pproj].
  fold p in Pin, Pout, Pproj.
  destruct t; [done | | |].
  - rewrite <- Li in Hel. split; [by right; left |].
    apply list_elem_of_lookup_1 in Hel as [k Hk]. pose proof (Pin k _ Hk).
    eexists _, _. split; [by eapply placed_at_fx |].
    split; [by eapply placed_at_fy | reflexivity].
  - rewrite <- Lo in Hel. split; [by right; right; left |].
    apply list_elem_of_lookup_1 in Hel as [k Hk]. pose proof (Pout k _ Hk).
    eexists _, _. split; [by eapply placed_at_fx |].
    split; [by eapply placed_at_fy | reflexivity].
  - rewrite <- Lp in Hel. split; [by right; right; right |].
    apply list_elem_of_lookup_1 in Hel as [k Hk]. pose proof (Pproj k _ Hk).
    eexists _, _. split; [by eapply placed_at_fx |].
    split; [by eapply placed_at_fy | reflexivity].
Qed.

Lemma every_satellite_positioned_sample :
  wf_graph reservoirData_heap reservoirData ∧
  ∃ x y, fx (p_heap reservoirData_placed) (17 + 4) = Some x ∧
         fy (p_heap reservoirData_placed) (17 + 4) = Some y ∧
         (x == 220)%Q.
Proof.
  assert (Hwf : wf_graph reservoirData_heap reservoirData)
    by (apply wf_graphb_spec; reflexivity).
  split; [exact Hwf |].
  assert (Hne : outflow ≠ main_reservoir) by discriminate.
  exact (proj2 (every_satellite_positioned reservoirData reservoirData_heap
                  4 4 outflow Hwf eq_refl eq_refl Hne)).
Defined.

(** X4.  Only the first main reservoir is positioned.  When the node
    array holds a main reservoir before another one, the later one is
    not the hub and no loop visits its copy: its [fx] and [fy] read
    whatever the caller's record holds, which is nothing for a record
    without coordinates. *)
Theorem later_hub_not_positioned data h0 i j d d' :
  let p := position_nodes data h0 in
  wf_graph h0 data →
  nodes data !! i = Some d → nodes data !! j = Some d' → i < j →
  get own_type h0 d = Some main_reservoir →
  get own_type h0 d' = Some main_reservoir →
  mainNode p ≠ Some (length h0 + j) ∧
  fx (p_heap p) (length h0 + j) = get own_fx h0 d' ∧
  fy (p_heap p) (length h0 + j) = get own_fy h0 d'.
Proof.
  intros p Hwf Hd Hd' Hij Ht Ht'.
  destruct (position_nodes_lists data h0) as (Li & Lo & Lp & Lm).
  fold p in Li, Lo, Lp, Lm.
  assert (Hty : ∀ k e, nodes data !! k = Some e →
            get own_type h0 e = Some main_reservoir →
            type_is (p_heap p) main_reservoir (length h0 + k) = true).
  { intros k e Hk He. unfold type_is. subst p.
    by rewrite (copy_type data h0 k e Hwf Hk), He. }
  assert (Hmain : mainNode p ≠ Some (length h0 + j)).
  { rewrite Lm. intros Hf.
    destruct (position_nodes_frame data h0) as (_ & _ & Hn & _).
    fold p in Hn. rewrite Hn in Hf.
    pose proof (find_seq_first _ _ _ _ Hf (length h0 + i)) as Hfalse.
    rewrite (Hty i d Hd Ht) in Hfalse. discriminate Hfalse. lia. }
  split; [exact Hmain |].
  assert (Hnot : ¬ positioned_node p (length h0 + j)).
  { pose proof (Hty j d' Hd' Ht') as Hj.
    intros [Hm | [Hin | [Hin | Hin]]]; [done | | |].
    - rewrite Li in Hin. apply filter_elem in Hin as [_ Hin].
      by rewrite (type_is_excl _ main_reservoir inflow _ ltac:(done) Hj) in Hin.
    - rewrite Lo in Hin. apply filter_elem in Hin as [_ Hin].
      by rewrite (type_is_excl _ main_reservoir outflow _ ltac:(done) Hj) in Hin.
    - rewrite Lp in Hin. apply filter_elem in Hin as [_ Hin].
      by rewrite (type_is_excl _ main_reservoir project _ ltac:(done) Hj) in Hin. }
  pose proof (position_nodes_untouched data h0 _ Hnot) as Hob. fold p in Hob.
  rewrite (allocated_copy data h0 j d' Hd') in Hob.
  destruct Hwf as [Hord Hvalid].
  pose proof (position_nodes_ordered data h0 Hord Hvalid) as Hordp.
  fold p in Hordp.
  destruct (position_nodes_frame data h0) as (Htk & _). fold p in Htk.
  assert (Hd'lt : d' < length h0).
  { rewrite Forall_forall in Hvalid. apply Hvalid. apply list_elem_of_In.
    apply elem_of_app. left. by eapply list_elem_of_lookup_2. }
  unfold fx, fy. rewrite !(get_unfold _ (p_heap p) _ Hordp), Hob. simpl.
  split; by apply get_prefix.
Qed.

Lemma later_hub_not_positioned_sample :
  let p := position_nodes twoHubs twoHubs_heap in
  wf_graph twoHubs_heap twoHubs ∧
  mainNode p = Some 5 ∧
  fx (p_heap p) (5 + 2) = None ∧ fy (p_heap p) (5 + 2) = None.
Proof.
  intros p.
  assert (Hwf : wf_graph twoHubs_heap twoHubs)
    by (apply wf_graphb_spec; reflexivity).
  assert (Hij : 0 < 2) by lia.
  split; [exact Hwf |]. split; [reflexivity |].
  exact (proj2 (later_hub_not_positioned twoHubs twoHubs_heap 0 2 0 2
                  Hwf eq_refl eq_refl Hij eq_refl eq_refl)).
Defined.

(** ** More about connectors *)

Lemma strict_eqb_eq a b : strict_eqb a b = true ↔ a = b.
Proof.
  destruct a as [u |], b as [v |]; simpl; try (split; congruence).
  rewrite String.eqb_eq. split; congruence.
Qed.

Lemma find_exists {A} (f : A → bool) (l : list A) x :
  x ∈ l → f x = true → ∃ y, List.find f l = Some y ∧ y ∈ l ∧ f y = true.
Proof.
  intros Hx Hf. destruct (List.find f l) as [y |] eqn:E.
  - apply find_some in E as [Hy Hfy]. exists y.
    split; [done |]. split; [by apply list_elem_of_In | done].
  - apply list_elem_of_In in Hx.
    rewrite (find_none f l E x Hx) in Hf. discriminate.
Qed.

Lemma find_by_id_in h ns key n :
  find_by_id h ns key = Some n → n ∈ ns ∧ get own_id h n = key.
Proof.
  unfold find_by_id. intros [Hn He]%find_some.
  split; [by apply list_elem_of_In | by apply strict_eqb_eq].
Qed.

(** With typed nodes the body of the link loop cannot fail. *)
Lemma drawLink_not_threw h ns link :
  (∀ n, n ∈ ns → is_Some (get own_type h n)) →
  drawLink h ns link ≠ Threw.
Proof.
  intros Hty. unfold drawLink.
  destruct (find_by_id h ns (get own_source h link)) as [s |] eqn:Es; [| done].
  destruct (find_by_id h ns (get own_target h link)) as [t |] eqn:Et; [| done].
  apply find_by_id_in in Es as [Hs _]. apply find_by_id_in in Et as [Ht _].
  destruct (Hty s Hs) as [ts Hts]. destruct (Hty t Ht) as [tt Htt].
  unfold linkTargetType, type_is. rewrite Hts, Htt.
  destruct (pathStart h s t).
  by destruct (NodeType_eqb tt main_reservoir), (NodeType_eqb ts inflow).
Qed.

Lemma find_by_id_exists h ns key n :
  n ∈ ns → get own_id h n = key → ∃ m, find_by_id h ns key = Some m.
Proof.
  intros Hn Hid.
  destruct (find_exists (λ n, strict_eqb (get own_id h n) key) ns n Hn
              (proj2 (strict_eqb_eq _ _) Hid)) as (m & Hm & _).
  by exists m.
Qed.

Lemma drawLink_drawn h ns link :
  (∀ n, n ∈ ns → is_Some (get own_type h n)) →
  (∃ n, n ∈ ns ∧ get own_id h n = get own_source h link) →
  (∃ n, n ∈ ns ∧ get own_id h n = get own_target h link) →
  ∃ e, drawLink h ns link = Drawn e.
Proof.
  intros Hty (s & Hs & Hsid) (t & Ht & Htid).
  pose proof (drawLink_not_threw h ns link Hty) as Hnt.
  destruct (find_by_id_exists h ns _ s Hs Hsid) as [s' Es].
  destruct (find_by_id_exists h ns _ t Ht Htid) as [t' Et].
  unfold drawLink in *. rewrite Es, Et in *.
  destruct (linkTargetType h s' t'); [| done].
  destruct (pathStart h s' t'). by eexists.
Qed.

Lemma drawLinks_count h ns ls : ∀ group,
  Forall (λ l, drawLink h ns l ≠ Threw) ls →
  ∃ paths, drawLinks h ns ls group = Some (group ++ paths) ∧
           length paths ≤ length ls ∧
           (Forall (λ l, ∃ e, drawLink h ns l = Drawn e) ls →
            length paths = length ls).
Proof.
  induction ls as [| l ls IH]; intros group Hok; simpl.
  - exists []. by rewrite app_nil_r.
  - apply list.Forall_cons in Hok as [Hl Hok].
    destruct (drawLink h ns l) as [| e |] eqn:E; [| | done].
    + destruct (IH group Hok) as (paths & -> & Hle & Heq).
      exists paths. split; [done |]. split; [lia |].
      intros [[e He] _]%list.Forall_cons. rewrite E in He. discriminate He.
    + destruct (IH (group ++ [e]) Hok) as (paths & -> & Hle & Heq).
      exists (e :: paths). rewrite <- app_assoc. split; [done |].
      split; [simpl; lia |].
      intros [_ Hd]%list.Forall_cons. simpl. by rewrite Heq.
Qed.

(** What a copy shows of its record, for the node and the link
    arrays of the pass. *)
Lemma node_copy data h0 n :
  n ∈ p_nodes (position_nodes data h0) →
  ∃ i d, n = length h0 + i ∧ nodes data !! i = Some d.
Proof.
  destruct (position_nodes_frame data h0) as (_ & _ & -> & _).
  intros Hn%elem_of_seq.
  destruct (lookup_lt_is_Some_2 (nodes data) (n - length h0)) as [d Hd]; [lia |].
  exists (n - length h0), d. split; [lia | done].
Qed.

Lemma link_copy data h0 l :
  l ∈ p_links (position_nodes data h0) →
  ∃ k d, l = length h0 + (length (nodes data) + k) ∧ links data !! k = Some d.
Proof.
  destruct (position_nodes_frame data h0) as (_ & _ & _ & ->).
  intros Hl%elem_of_seq.
  destruct (lookup_lt_is_Some_2 (links data)
              (l - (length h0 + length (nodes data)))) as [d Hd]; [lia |].
  exists (l - (length h0 + length (nodes data))), d. split; [lia | done].
Qed.

Lemma copies_typed data h0 :
  wf_graph h0 data → nodes_typed h0 data →
  ∀ n, n ∈ p_nodes (position_nodes data h0) →
       is_Some (get own_type (p_heap (position_nodes data h0)) n).
Proof.
  intros Hwf Hty n (i & d & -> & Hd)%node_copy.
  rewrite (copy_type data h0 i d Hwf Hd).
  unfold nodes_typed in Hty. rewrite list.Forall_forall in Hty. apply Hty.
  by eapply list_elem_of_lookup_2.
Qed.

(** X7.  Drawing the links never fails on a graph whose node records
    all carry a type: the pass returns its list of paths, at most one
    per link. *)
Theorem links_never_throw data h0 :
  wf_graph h0 data → nodes_typed h0 data →
  ∃ paths, renderLinks data h0 = Some paths ∧
           length paths ≤ length (links data).
Proof.
  intros Hwf Hty. unfold renderLinks.
  destruct (drawLinks_count (p_heap (position_nodes data h0))
              (p_nodes (position_nodes data h0))
              (p_links (position_nodes data h0)) [])
    as (paths & Hp & Hle & _).
  - apply list.Forall_forall. intros l _. apply drawLink_not_threw.
    by apply copies_typed.
  - exists paths. split; [done |].
    destruct (position_nodes_frame data h0) as (_ & _ & _ & Hl).
    rewrite Hl in Hle. by rewrite length_seq in Hle.
Qed.

Lemma nodes_typedb_spec h0 data :
  nodes_typedb h0 data = true → nodes_typed h0 data.
Proof.
  unfold nodes_typedb, nodes_typed. rewrite forallb_forall.
  intros H. apply Forall_forall. intros d Hd. specialize (H d Hd).
  by destruct (get own_type h0 d).
Qed.

Lemma link_resolvesb_spec h0 data l :
  link_resolvesb h0 data l = true → link_resolves h0 data l.
Proof.
  unfold link_resolvesb, link_resolves.
  intros [H1 H2]%andb_true_iff.
  apply existsb_exists in H1 as (d1 & Hd1 & E1).
  apply existsb_exists in H2 as (d2 & Hd2 & E2).
  split; [exists d1 | exists d2];
    (split; [by apply list_elem_of_In | by apply strict_eqb_eq]).
Qed.

Lemma links_resolveb_spec h0 data :
  forallb (link_resolvesb h0 data) (links data) = true →
  Forall (link_resolves h0 data) (links data).
Proof.
  rewrite forallb_forall. intros H. apply Forall_forall. intros l Hl.
  apply link_resolvesb_spec. by apply H.
Qed.

Lemma links_never_throw_sample :
  wf_graph invalidLinks_heap invalidLinks ∧
  nodes_typed invalidLinks_heap invalidLinks ∧
  ∃ paths, renderLinks invalidLinks invalidLinks_heap = Some paths ∧
           length paths ≤ 2.
Proof.
  assert (Hwf : wf_graph invalidLinks_heap invalidLinks)
    by (apply wf_graphb_spec; reflexivity).
  assert (Hty : nodes_typed invalidLinks_heap invalidLinks)
    by (apply nodes_typedb_spec; reflexivity).
  split; [exact Hwf |]. split; [exact Hty |].
  exact (links_never_throw invalidLinks invalidLinks_heap Hwf Hty).
Defined.

Lemma copy_field {A} (sel : Obj → option A) data h0 i d :
  position_free sel → (∀ e, sel (blank e) = None) →
  wf_graph h0 data → nodes data !! i = Some d →
  get sel (p_heap (position_nodes data h0)) (length h0 + i) = get sel h0 d.
Proof.
  intros Hf Hb [Hord Hvalid] Hd.
  apply (copies_inherit sel data h0); [done | done | done | done |].
  by apply lookup_app_l_Some.
Qed.

Lemma link_field {A} (sel : Obj → option A) data h0 k d :
  position_free sel → (∀ e, sel (blank e) = None) →
  wf_graph h0 data → links data !! k = Some d →
  get sel (p_heap (position_nodes data h0))
      (length h0 + (length (nodes data) + k))
  = get sel h0 d.
Proof.
  intros Hf Hb [Hord Hvalid] Hd.
  apply (copies_inherit sel data h0); [done | done | done | done |].
  rewrite lookup_app_r by lia.
  by replace (length (nodes data) + k - length (nodes data)) with k by lia.
Qed.

Lemma resolving_copy data h0 (key : option string) :
  wf_graph h0 data →
  (∃ d, d ∈ nodes data ∧ get own_id h0 d = key) →
  ∃ n, n ∈ p_nodes (position_nodes data h0) ∧
       get own_id (p_heap (position_nodes data h0)) n = key.
Proof.
  intros Hwf (d & Hd & Hid).
  apply list_elem_of_lookup_1 in Hd as [i Hi].
  exists (length h0 + i). split; [by eapply copy_in_nodes |].
  by rewrite (copy_field own_id data h0 i d).
Qed.

(** X8.  On a graph whose nodes carry a type and whose links all refer
    to ids of its nodes, exactly one path is drawn per link: nothing
    is skipped and nothing fails. *)
Theorem resolvable_links_all_drawn data h0 :
  wf_graph h0 data → nodes_typed h0 data →
  Forall (link_resolves h0 data) (links data) →
  ∃ paths, renderLinks data h0 = Some paths ∧
           length paths = length (links data).
Proof.
  intros Hwf Hty Hres. unfold renderLinks.
  pose proof (copies_typed data h0 Hwf Hty) as Hct.
  destruct (drawLinks_count (p_heap (position_nodes data h0))
              (p_nodes (position_nodes data h0))
              (p_links (position_nodes data h0)) [])
    as (paths & Hp & _ & Heq).
  - apply list.Forall_forall. intros l _. by apply drawLink_not_threw.
  - exists paths. split; [done |]. rewrite Heq.
    + destruct (position_nodes_frame data h0) as (_ & _ & _ & ->).
      by rewrite length_seq.
    + apply list.Forall_forall. intros l (k & dl & -> & Hk)%link_copy.
      rewrite list.Forall_forall in Hres.
      destruct (Hres dl (list_elem_of_lookup_2 _ _ _ Hk)) as [Hs Ht].
      apply drawLink_drawn; [done | |].
      * rewrite (link_field own_source data h0 k dl); [| done..].
        by apply resolving_copy.
      * rewrite (link_field own_target data h0 k dl); [| done..].
        by apply resolving_copy.
Qed.

Lemma resolvable_links_all_drawn_sample :
  wf_graph reservoirData_heap reservoirData ∧
  nodes_typed reservoirData_heap reservoirData ∧
  Forall (link_resolves reservoirData_heap reservoirData)
         (links reservoirData) ∧
  ∃ paths, renderLinks reservoirData reservoirData_heap = Some paths ∧
           length paths = 8.
Proof.
  assert (Hwf : wf_graph reservoirData_heap reservoirData)
    by (apply wf_graphb_spec; reflexivity).
  assert (Hty : nodes_typed reservoirData_heap reservoirData)
    by (apply nodes_typedb_spec; reflexivity).
  assert (Hres : Forall (link_resolves reservoirData_heap reservoirData)
                        (links reservoirData))
    by (apply links_resolveb_spec; reflexivity).
  split; [exact Hwf |]. split; [exact Hty |]. split; [exact Hres |].
  exact (resolvable_links_all_drawn reservoirData reservoirData_heap
           Hwf Hty Hres).
Defined.

(** ** The configuration parser *)

Lemma push_satellites_eq prefix rid mainId t into_main items : ∀ index g,
  push_satellites prefix rid mainId t into_main index items g
  = (g.1 ++ imap (λ i, satellite_node prefix rid t (index + i)) items,
     g.2 ++ imap (λ i _, satellite_link prefix rid mainId into_main (index + i))
                 items).
Proof.
  induction items as [| item items IH]; intros index [ns ls]; simpl.
  - by rewrite !app_nil_r.
  - rewrite IH. simpl. rewrite <- !app_assoc. simpl.
    rewrite Nat.add_0_r. f_equal; f_equal; f_equal;
      apply imap_ext; intros i x _; simpl; f_equal; lia.
Qed.

Lemma add_satellites_eq prefix rid mainId t into_main field g :
  add_satellites prefix rid mainId t into_main field g
  = (g.1 ++ field_nodes prefix rid t field,
     g.2 ++ field_links prefix rid mainId into_main field).
Proof.
  unfold add_satellites, field_nodes, field_links, field_items.
  destruct (truthy field && truthy (trim field)).
  - by rewrite push_satellites_eq.
  - simpl. rewrite !app_nil_r. by destruct g.
Qed.

(** The parsed graph in closed form: the hub, then the nodes of the
    three fields; the links of the three fields. *)
Lemma parseReservoirConfig_eq config :
  let rid := reservoir_id config in
  let mainId := String.append "reservoir_" (show_Z rid) in
  parseReservoirConfig config
  = (node_literal mainId (reservoir_name config) main_reservoir
       :: field_nodes "inflow" rid inflow (config_inflow config)
       ++ field_nodes "outflow" rid outflow (config_outflow config)
       ++ field_nodes "project" rid project (config_projects config),
     field_links "inflow" rid mainId true (config_inflow config)
       ++ field_links "outflow" rid mainId false (config_outflow config)
       ++ field_links "project" rid mainId false (config_projects config)).
Proof.
  intros rid mainId. unfold parseReservoirConfig.
  rewrite !add_satellites_eq. simpl. by rewrite <- !app_assoc.
Qed.

(** *** Strings *)

Lemma split_at_length s : ∀ cur,
  length (split_at comma s cur) = S (commas s).
Proof.
  induction s as [| c s IH]; intros cur; simpl; [done |].
  destruct (Ascii.eqb c comma); simpl; by rewrite IH.
Qed.

Lemma trim_start_blank s : blank_string s = true → trim_start s = EmptyString.
Proof.
  induction s as [| c s IH]; simpl; [done |].
  intros [Hc Hs]%andb_true_iff. rewrite Hc. by apply IH.
Qed.

Lemma trim_start_not_blank s :
  blank_string s = false →
  ∃ c s', trim_start s = String c s' ∧ is_space c = false.
Proof.
  induction s as [| c s IH]; simpl; [done |].
  destruct (is_space c) eqn:Hc; simpl.
  - apply IH.
  - intros _. by exists c, s.
Qed.

Lemma trim_end_head c s : is_space c = false → truthy (trim_end (String c s)) = true.
Proof. intros Hc. simpl. destruct (trim_end s); by rewrite ?Hc. Qed.

Lemma truthy_trim s : truthy (trim s) = negb (blank_string s).
Proof.
  unfold trim. destruct (blank_string s) eqn:Hb.
  - by rewrite trim_start_blank.
  - destruct (trim_start_not_blank s Hb) as (c & s' & -> & Hc).
    by rewrite trim_end_head.
Qed.

Lemma field_items_length field : length (field_items field) = pieces field.
Proof.
  unfold field_items, pieces. rewrite truthy_trim.
  destruct field as [| c field]; [done |].
  cbn [truthy andb]. destruct (negb _); [| done].
  by rewrite length_map, split_at_length.
Qed.

Lemma append_inj_r a b c : String.append a b = String.append a c → b = c.
Proof. induction a as [| x a IH]; simpl; [done |]. intros [= H]. by apply IH. Qed.

Lemma to_uint_nonnil n : Nat.to_uint n ≠ Decimal.Nil.
Proof.
  intros E. pose proof (Unsigned.of_to n) as H. rewrite E in H.
  simpl in H. subst n. discriminate E.
Qed.

Lemma show_nat_inj i j : show_nat i = show_nat j → i = j.
Proof.
  unfold show_nat. intros E.
  apply (f_equal NilZero.uint_of_string) in E.
  rewrite !NilZero.usu in E by apply to_uint_nonnil.
  injection E as E. apply (f_equal Nat.of_uint) in E.
  by rewrite !Unsigned.of_to in E.
Qed.

Lemma satellite_id_inj prefix rid i j :
  satellite_id prefix rid i = satellite_id prefix rid j → i = j.
Proof.
  unfold satellite_id. intros E. do 4 apply append_inj_r in E.
  by apply show_nat_inj.
Qed.

(** X9.  The size of the parsed graph.  A field contributes as many
    nodes as it has commas plus one, empty pieces included, unless it
    is empty or all white space, when it contributes none; the graph
    has the hub and these nodes, and one link per node other than the
    hub. *)
Theorem parsed_graph_size config :
  let g := parseReservoirConfig config in
  length g.1 = 1 + pieces (config_inflow config)
                 + pieces (config_outflow config)
                 + pieces (config_projects config) ∧
  length g.1 = S (length g.2) ∧
  ∀ field, pieces field = (if blank_string field then 0 else S (commas field)).
Proof.
  intros g. subst g. rewrite parseReservoirConfig_eq. simpl.
  unfold field_nodes, field_links.
  rewrite !length_app, !length_imap, !field_items_length.
  split; [lia |]. split; [lia |].
  intros field. unfold pieces. rewrite truthy_trim.
  by destruct (blank_string field).
Qed.

(** *** Ids *)

Lemma field_nodes_lookup prefix rid t field i n :
  field_nodes prefix rid t field !! i = Some n →
  ∃ item, field_items field !! i = Some item ∧
          n = satellite_node prefix rid t i item.
Proof. unfold field_nodes. by rewrite list_lookup_imap_Some. Qed.

Lemma field_links_lookup prefix rid mainId into_main field i l :
  field_links prefix rid mainId into_main field !! i = Some l →
  i < length (field_items field) ∧
  l = satellite_link prefix rid mainId into_main i.
Proof.
  unfold field_links. rewrite list_lookup_imap_Some.
  intros (item & Hi & ->). split; [by eapply lookup_lt_Some | done].
Qed.

Lemma field_ids_NoDup prefix rid t field :
  NoDup (own_id <$> field_nodes prefix rid t field).
Proof.
  apply NoDup_alt. intros i j x Hi Hj.
  rewrite list_lookup_fmap in Hi. rewrite list_lookup_fmap in Hj.
  destruct (field_nodes prefix rid t field !! i) as [n |] eqn:En; [| done].
  destruct (field_nodes prefix rid t field !! j) as [m |] eqn:Em; [| done].
  apply field_nodes_lookup in En as (? & _ & ->).
  apply field_nodes_lookup in Em as (? & _ & ->).
  simpl in Hi, Hj. rewrite <- Hj in Hi. injection Hi as Hi.
  by apply satellite_id_inj in Hi.
Qed.

Lemma field_ids_head prefix c rest rid t field x :
  prefix = String c rest →
  x ∈ own_id <$> field_nodes prefix rid t field →
  ∃ s, x = Some s ∧ head_char s = Some c.
Proof.
  intros -> (n & -> & Hn)%list_elem_of_fmap.
  apply list_elem_of_lookup_1 in Hn as [i Hi].
  apply field_nodes_lookup in Hi as (item & _ & ->).
  by eexists.
Qed.

Lemma parsed_NoDup config :
  NoDup (own_id <$> (parseReservoirConfig config).1).
Proof.
  rewrite parseReservoirConfig_eq. simpl. rewrite !fmap_app.
  assert (Hh : ∀ prefix c rest t field x c',
            prefix = String c rest → c ≠ c' →
            x ∈ own_id <$> field_nodes prefix (reservoir_id config) t field →
            ∀ s, x = Some s → head_char s ≠ Some c').
  { intros prefix c rest t field x c' Hp Hc Hx s ->.
    destruct (field_ids_head prefix c rest _ t field _ Hp Hx) as (s' & [= <-] & E).
    rewrite E. congruence. }
  apply NoDup_cons_2; [| apply list.NoDup_app; split_and!;
                           [| | apply list.NoDup_app; split_and!]].
  - rewrite !elem_of_app. intros [H | [H | H]].
    + by eapply (Hh "inflow"%string _ _ _ _ _ "r"%char eq_refl ltac:(done) H).
    + by eapply (Hh "outflow"%string _ _ _ _ _ "r"%char eq_refl ltac:(done) H).
    + by eapply (Hh "project"%string _ _ _ _ _ "r"%char eq_refl ltac:(done) H).
  - apply field_ids_NoDup.
  - intros x Hx. rewrite elem_of_app. intros [H | H].
    + destruct (field_ids_head "inflow"%string _ _ _ _ _ _ eq_refl Hx)
        as (s & -> & Es).
      by eapply (Hh "outflow"%string _ _ _ _ _ "i"%char eq_refl ltac:(done) H).
    + destruct (field_ids_head "inflow"%string _ _ _ _ _ _ eq_refl Hx)
        as (s & -> & Es).
      by eapply (Hh "project"%string _ _ _ _ _ "i"%char eq_refl ltac:(done) H).
  - apply field_ids_NoDup.
  - intros x Hx H.
    destruct (field_ids_head "outflow"%string _ _ _ _ _ _ eq_refl Hx)
      as (s & -> & Es).
    by eapply (Hh "project"%string _ _ _ _ _ "o"%char eq_refl ltac:(done) H).
  - apply field_ids_NoDup.
Qed.

Lemma field_nodes_id prefix rid t field :
  Forall (λ n, is_Some (own_id n)) (field_nodes prefix rid t field).
Proof.
  apply list.Forall_forall. intros n Hn.
  apply list_elem_of_lookup_1 in Hn as [i Hi].
  by apply field_nodes_lookup in Hi as (item & _ & ->).
Qed.

(** X10.  Every node of a parsed graph has an id, and the ids are
    pairwise different: no two of its nodes share an id, whatever the
    fields hold. *)
Theorem parsed_ids_unique config :
  let g := parseReservoirConfig config in
  Forall (λ n, is_Some (own_id n)) g.1 ∧ NoDup (own_id <$> g.1).
Proof.
  intros g. split; [| apply parsed_NoDup].
  subst g. rewrite parseReservoirConfig_eq. simpl.
  apply list.Forall_cons. split; [done |].
  repeat (apply Forall_app; split); apply field_nodes_id.
Qed.

(** *** Links *)

Lemma field_link_of prefix rid mainId t into_main field :
  into_main = NodeType_eqb t inflow → t ≠ main_reservoir →
  Forall2 (link_of mainId)
          (field_nodes prefix rid t field)
          (field_links prefix rid mainId into_main field).
Proof.
  intros -> Ht. apply Forall2_same_length_lookup_2.
  - unfold field_nodes, field_links. by rewrite !length_imap.
  - intros i n l Hn Hl.
    apply field_nodes_lookup in Hn as (item & _ & ->).
    apply field_links_lookup in Hl as (_ & ->).
    exists (satellite_id prefix rid i). split; [done |].
    unfold satellite_link. by destruct t.
Qed.

Lemma parsed_shape config :
  let g := parseReservoirConfig config in
  ∃ rest,
    g.1 = node_literal (hub_id config) (reservoir_name config) main_reservoir
          :: rest ∧
    Forall2 (link_of (hub_id config)) rest g.2.
Proof.
  intros g. subst g. rewrite parseReservoirConfig_eq. eexists.
  split; [reflexivity |]. simpl.
  repeat apply Forall2_app; by apply field_link_of.
Qed.

Lemma link_of_not_hub mainId n l :
  link_of mainId n l → own_type n ≠ Some main_reservoir.
Proof.
  intros (id & _ & H) E. by rewrite E in H.
Qed.

(** X11.  The shape of a parsed graph.  Its first node is the hub,
    with id [reservoir_<id>], the configuration's name as label and
    type main_reservoir, and no other node has that type; every other
    node comes with exactly one link, at the same rank, which joins
    it to the hub: from the node into the hub for an inflow, from the
    hub to the node for an outflow or a project. *)
Theorem parsed_graph_shape config :
  let g := parseReservoirConfig config in
  ∃ rest,
    g.1 = node_literal (hub_id config) (reservoir_name config) main_reservoir
          :: rest ∧
    Forall (λ n, own_type n ≠ Some main_reservoir) rest ∧
    Forall2 (link_of (hub_id config)) rest g.2.
Proof.
  intros g. destruct (parsed_shape config) as (rest & Hg & Hpair).
  exists rest. split_and!; [done | | done].
  apply list.Forall_forall. intros n Hn.
  apply list_elem_of_lookup_1 in Hn as [i Hi].
  destruct (Forall2_lookup_l _ _ _ _ _ Hpair Hi) as (l & _ & Hl).
  by eapply link_of_not_hub.
Qed.

(** *** From the parser to the picture *)

Lemma get_plain {A} (sel : Obj → option A) (h : heap) d o :
  h !! d = Some o → proto o = None → get sel h d = sel o.
Proof.
  intros Hd Hp. unfold get. simpl. rewrite Hd, Hp. by destruct (sel o).
Qed.

Lemma plain_wf g :
  plain_arrays g → wf_graph (graph_heap g) (graph_data g).
Proof.
  intros Hplain. split.
  - intros a o q Ho Hq. unfold plain_arrays in Hplain.
    rewrite list.Forall_forall in Hplain.
    rewrite (Hplain o) in Hq; [done |]. by eapply list_elem_of_lookup_2.
  - apply Forall_forall. intros d Hd. apply list_elem_of_In in Hd.
    unfold graph_heap, graph_data in *. simpl in Hd.
    rewrite length_app. apply elem_of_app in Hd as [Hd | Hd];
      apply elem_of_seq in Hd; lia.
Qed.

Lemma plain_get {A} (sel : Obj → option A) g d o :
  plain_arrays g →
  graph_heap g !! d = Some o → get sel (graph_heap g) d = sel o.
Proof.
  intros Hplain Hd. apply get_plain; [done |].
  unfold plain_arrays in Hplain. rewrite list.Forall_forall in Hplain.
  apply Hplain. by eapply list_elem_of_lookup_2.
Qed.

Lemma graph_data_node g i n :
  g.1 !! i = Some n → nodes (graph_data g) !! i = Some i.
Proof.
  intros Hi. unfold graph_data. simpl.
  apply lookup_seq. split; [done | by eapply lookup_lt_Some].
Qed.

Lemma graph_data_link g k l :
  g.2 !! k = Some l → links (graph_data g) !! k = Some (length g.1 + k).
Proof.
  intros Hk. unfold graph_data. simpl.
  apply lookup_seq. split; [done | by eapply lookup_lt_Some].
Qed.

Lemma plain_node_copy {A} (sel : Obj → option A) g i n :
  plain_arrays g →
  position_free sel → (∀ e, sel (blank e) = None) →
  g.1 !! i = Some n →
  length (graph_heap g) + i ∈ p_nodes (placed_graph g) ∧
  get sel (p_heap (placed_graph g)) (length (graph_heap g) + i) = sel n.
Proof.
  intros Hplain Hf Hb Hi. pose proof (graph_data_node g i n Hi) as Hd.
  split; [by eapply copy_in_nodes |]. unfold placed_graph.
  rewrite (copy_field sel _ _ i i Hf Hb (plain_wf g Hplain) Hd).
  apply plain_get; [done |]. unfold graph_heap. by apply lookup_app_l_Some.
Qed.

Lemma plain_link_copy {A} (sel : Obj → option A) g k l :
  plain_arrays g →
  position_free sel → (∀ e, sel (blank e) = None) →
  g.2 !! k = Some l →
  get sel (p_heap (placed_graph g))
      (length (graph_heap g) + (length g.1 + k))
  = sel l.
Proof.
  intros Hplain Hf Hb Hk. pose proof (graph_data_link g k l Hk) as Hd.
  pose proof (link_field sel _ _ k _ Hf Hb (plain_wf g Hplain) Hd) as E.
  replace (length (nodes (graph_data g))) with (length g.1) in E
    by (unfold graph_data; simpl; by rewrite length_seq).
  unfold placed_graph. rewrite E. apply plain_get; [done |].
  unfold graph_heap. rewrite lookup_app_r by lia.
  by replace (length g.1 + k - length g.1) with k by lia.
Qed.

(** With pairwise different ids, looking a node up by its id finds the
    copy of that node. *)
Lemma plain_find_by_id g j n id :
  plain_arrays g → NoDup (own_id <$> g.1) →
  g.1 !! j = Some n → own_id n = Some id →
  find_by_id (p_heap (placed_graph g)) (p_nodes (placed_graph g)) (Some id)
  = Some (length (graph_heap g) + j).
Proof.
  intros Hplain Hnd Hj Hid.
  destruct (plain_node_copy own_id g j n Hplain ltac:(done) ltac:(done) Hj)
    as [Hin Hget].
  rewrite Hid in Hget.
  destruct (find_by_id_exists _ _ _ _ Hin Hget) as [m Hm].
  rewrite Hm. f_equal.
  apply find_by_id_in in Hm as [Hmin Hmid].
  apply node_copy in Hmin as (i & d & -> & Hd).
  assert (Hi : is_Some (g.1 !! i)).
  { apply lookup_lt_is_Some. apply lookup_lt_Some in Hd.
    unfold graph_data in Hd. simpl in Hd. by rewrite length_seq in Hd. }
  destruct Hi as [n' Hi].
  destruct (plain_node_copy own_id g i n' Hplain ltac:(done) ltac:(done) Hi)
    as [_ Hget'].
  rewrite Hget' in Hmid.
  f_equal. eapply (NoDup_lookup _ i j (Some id) Hnd).
  - by rewrite list_lookup_fmap, Hi; simpl; rewrite Hmid.
  - by rewrite list_lookup_fmap, Hj; simpl; rewrite Hid.
Qed.

Lemma drawLinks_all h ns ls : ∀ group,
  Forall (λ l, ∃ e, drawLink h ns l = Drawn e) ls →
  drawLinks h ns ls group = Some (group ++ (drawn_path h ns <$> ls)).
Proof.
  induction ls as [| l ls IH]; intros group Hall; simpl.
  - by rewrite app_nil_r.
  - apply list.Forall_cons in Hall as [[e He] Hall].
    unfold drawn_path at 1. rewrite He, (IH _ Hall), <- app_assoc. done.
Qed.

(** One link of a hub-and-spokes graph: it is drawn, in the colour of
    the type of its node. *)
Lemma spoke_link_drawn g mainId name rest k n l :
  plain_arrays g → NoDup (own_id <$> g.1) →
  g.1 = node_literal mainId name main_reservoir :: rest →
  rest !! k = Some n → g.2 !! k = Some l → link_of mainId n l →
  ∃ e, drawLink (p_heap (placed_graph g)) (p_nodes (placed_graph g))
                (length (graph_heap g) + (length g.1 + k)) = Drawn e ∧
       stroke_of n e.
Proof.
  intros Hplain Hnd Hg Hn Hl (id & Hid & Hty).
  assert (Hhub : g.1 !! 0 = Some (node_literal mainId name main_reservoir))
    by (by rewrite Hg).
  assert (Hsat : g.1 !! S k = Some n) by (by rewrite Hg).
  pose proof (plain_find_by_id g 0 _ mainId Hplain Hnd Hhub eq_refl) as Fhub.
  pose proof (plain_find_by_id g (S k) n id Hplain Hnd Hsat Hid) as Fsat.
  destruct (plain_node_copy own_type g 0 _ Hplain ltac:(done) ltac:(done) Hhub)
    as [_ Thub].
  destruct (plain_node_copy own_type g (S k) n Hplain ltac:(done) ltac:(done) Hsat)
    as [_ Tsat].
  pose proof (plain_link_copy own_source g k l Hplain ltac:(done) ltac:(done) Hl)
    as Ls.
  pose proof (plain_link_copy own_target g k l Hplain ltac:(done) ltac:(done) Hl)
    as Lt.
  simpl in Thub. unfold drawLink, stroke_of. rewrite Ls, Lt.
  destruct (own_type n) as [[| | |] |] eqn:En; try done; subst l; simpl;
    rewrite Fhub, Fsat; unfold linkTargetType, type_is; rewrite Thub, Tsat;
    simpl; destruct (pathStart _ _ _); eexists; (split; [reflexivity |]);
    by eexists.
Qed.

Lemma spoke_graph_rendered g mainId name rest :
  plain_arrays g → NoDup (own_id <$> g.1) →
  g.1 = node_literal mainId name main_reservoir :: rest →
  Forall2 (link_of mainId) rest g.2 →
  ∃ paths, renderLinks (graph_data g) (graph_heap g) = Some paths ∧
           Forall2 stroke_of rest paths.
Proof.
  intros Hplain Hnd Hg Hpair.
  set (h := p_heap (placed_graph g)). set (ns := p_nodes (placed_graph g)).
  assert (Hlinks : p_links (placed_graph g)
            = (λ k, length (graph_heap g) + (length g.1 + k))
              <$> seq 0 (length g.2)).
  { unfold placed_graph.
    destruct (position_nodes_frame (graph_data g) (graph_heap g))
      as (_ & _ & _ & ->).
    unfold graph_data. simpl. rewrite !length_seq.
    apply list_eq. intros i. rewrite list_lookup_fmap.
    destruct (decide (i < length g.2)) as [Hi | Hi].
    - rewrite !lookup_seq_lt by done. simpl. f_equal. lia.
    - by rewrite !lookup_seq_ge by lia. }
  assert (Hdrawn : ∀ k n l, rest !! k = Some n → g.2 !! k = Some l →
            ∃ e, drawLink h ns (length (graph_heap g) + (length g.1 + k))
                 = Drawn e ∧ stroke_of n e).
  { intros k n l Hn Hl. eapply spoke_link_drawn; try done.
    by eapply Forall2_lookup_lr. }
  exists (drawn_path h ns <$> p_links (placed_graph g)). split.
  - unfold renderLinks. fold (placed_graph g). fold h ns.
    rewrite drawLinks_all; [done |].
    rewrite Hlinks. apply list.Forall_forall. intros a Ha.
    apply list_elem_of_fmap in Ha as (k & -> & Hk%elem_of_seq).
    destruct (lookup_lt_is_Some_2 g.2 k) as [l Hl]; [lia |].
    destruct (Forall2_lookup_r _ _ _ _ _ Hpair Hl) as (n & Hn & _).
    destruct (Hdrawn k n l Hn Hl) as (e & He & _). by exists e.
  - rewrite Hlinks, <- list_fmap_compose.
    apply Forall2_same_length_lookup_2.
    + rewrite length_fmap, length_seq. by eapply Forall2_length.
    + intros k n e Hn He. rewrite list_lookup_fmap in He.
      destruct (seq 0 (length g.2) !! k) as [k' |] eqn:Ek; [| done].
      apply lookup_seq in Ek as [-> Hk]. simpl in He. injection He as <-.
      destruct (lookup_lt_is_Some_2 g.2 k) as [l Hl]; [lia |].
      destruct (Hdrawn k n l Hn Hl) as (e & He & Hs).
      unfold drawn_path. by rewrite He.
Qed.

Lemma field_nodes_plain prefix rid t field :
  Forall (λ o, proto o = None) (field_nodes prefix rid t field).
Proof.
  apply list.Forall_forall. intros n Hn.
  apply list_elem_of_lookup_1 in Hn as [i Hi].
  by apply field_nodes_lookup in Hi as (item & _ & ->).
Qed.

Lemma field_links_plain prefix rid mainId into_main field :
  Forall (λ o, proto o = None) (field_links prefix rid mainId into_main field).
Proof.
  apply list.Forall_forall. intros l Hl.
  apply list_elem_of_lookup_1 in Hl as [i Hi].
  apply field_links_lookup in Hi as (_ & ->).
  unfold satellite_link. by destruct into_main.
Qed.

Lemma parsed_plain config : plain_arrays (parseReservoirConfig config).
Proof.
  unfold plain_arrays. rewrite parseReservoirConfig_eq. simpl.
  apply list.Forall_cons. split; [done |].
  repeat (apply Forall_app; split);
    first [apply field_nodes_plain | apply field_links_plain].
Qed.

(** X12.  From a configuration to its connectors.  Whatever the
    fields hold, the link loop runs to its end on the parsed graph
    and draws one path per node other than the hub, in the order of
    the nodes, each in the colour of the type of its node. *)
Theorem parsed_config_rendered config :
  let g := parseReservoirConfig config in
  ∃ paths, renderLinks (graph_data g) (graph_heap g) = Some paths ∧
           Forall2 stroke_of (tail g.1) paths.
Proof.
  intros g. destruct (parsed_shape config) as (rest & Hg & Hpair).
  fold g in Hg, Hpair. rewrite Hg. simpl.
  eapply spoke_graph_rendered; eauto using parsed_plain, parsed_NoDup.
Qed.

(** *** The columns of a parsed graph *)

Lemma filter_seq_fmap {B} (l : list Obj) (f : nat → bool) (F : nat → B)
    (q : Obj → bool) (G : Obj → B) : ∀ n,
  (∀ i o, l !! i = Some o → f (n + i) = q o ∧ F (n + i) = G o) →
  F <$> List.filter f (seq n (length l)) = G <$> List.filter q l.
Proof.
  induction l as [| o l IH]; intros n H; simpl; [done |].
  destruct (H 0 o eq_refl) as [Hf HF]. rewrite Nat.add_0_r in Hf, HF.
  assert (Hrest : F <$> List.filter f (seq (S n) (length l))
                  = G <$> List.filter q l).
  { apply IH. intros i o' Hi. specialize (H (S i) o' Hi).
    by replace (n + S i) with (S n + i) in H by lia. }
  rewrite Hf. destruct (q o); [rewrite !fmap_cons, HF |]; by rewrite Hrest.
Qed.

Lemma plain_column {A} (sel : Obj → option A) g t :
  plain_arrays g → position_free sel → (∀ e, sel (blank e) = None) →
  get sel (p_heap (placed_graph g))
    <$> List.filter (type_is (p_heap (placed_graph g)) t)
                    (p_nodes (placed_graph g))
  = sel <$> List.filter (has_type t) g.1.
Proof.
  intros Hplain Hf Hb.
  assert (Hns : p_nodes (placed_graph g)
                = seq (length (graph_heap g)) (length g.1)).
  { unfold placed_graph.
    destruct (position_nodes_frame (graph_data g) (graph_heap g))
      as (_ & _ & -> & _).
    unfold graph_data. simpl. by rewrite length_seq. }
  rewrite Hns. apply filter_seq_fmap. intros i o Hi. split.
  - unfold type_is, has_type.
    by destruct (plain_node_copy own_type g i o Hplain ltac:(done) ltac:(done) Hi)
      as [_ ->].
  - by destruct (plain_node_copy sel g i o Hplain Hf Hb Hi) as [_ ->].
Qed.

Lemma filter_field_nodes prefix rid t t' field :
  List.filter (has_type t') (field_nodes prefix rid t field)
  = if NodeType_eqb t t' then field_nodes prefix rid t field else [].
Proof.
  assert (H : ∀ l, Forall (λ n, has_type t' n = NodeType_eqb t t') l →
            List.filter (has_type t') l = if NodeType_eqb t t' then l else []).
  { induction l as [| n l IH]; intros Hl; simpl.
    - by destruct (NodeType_eqb t t').
    - apply list.Forall_cons in Hl as [-> Hl]. rewrite (IH Hl).
      by destruct (NodeType_eqb t t'). }
  apply H, list.Forall_forall. intros n Hn.
  apply list_elem_of_lookup_1 in Hn as [i Hi].
  by apply field_nodes_lookup in Hi as (item & _ & ->).
Qed.

Lemma field_nodes_labels prefix rid t field :
  own_label <$> field_nodes prefix rid t field = Some <$> field_items field.
Proof.
  apply list_eq. intros i. unfold field_nodes.
  rewrite !list_lookup_fmap, list_lookup_imap.
  by destruct (field_items field !! i).
Qed.

Lemma own_label_position_free : position_free own_label.
Proof. done. Qed.

(** X13.  From a configuration to its columns.  In the layout of a
    parsed graph the hub is the first node; the labels of the left
    column, from the top, are the trimmed pieces of the inflow field
    in their order, and the right column has the pieces of the
    outflow field and those of the project field. *)
Theorem parsed_config_columns config :
  let g := parseReservoirConfig config in
  let p := placed_graph g in
  let labels := fmap (get own_label (p_heap p)) in
  mainNode p = Some (length (graph_heap g)) ∧
  get own_id (p_heap p) (length (graph_heap g)) = Some (hub_id config) ∧
  labels (inflowNodes p) = Some <$> field_items (config_inflow config) ∧
  labels (outflowNodes p) = Some <$> field_items (config_outflow config) ∧
  labels (projectNodes p) = Some <$> field_items (config_projects config).
Proof.
  intros g p labels. pose proof (parsed_plain config) as Hplain. fold g in Hplain.
  destruct (position_nodes_lists (graph_data g) (graph_heap g))
    as (Hin & Hout & Hproj & Hmain).
  fold (placed_graph g) in Hin, Hout, Hproj, Hmain. subst p labels. cbv beta.
  assert (Hg : g.1 = node_literal (hub_id config) (reservoir_name config)
                                  main_reservoir
                     :: field_nodes "inflow" (reservoir_id config) inflow
                                    (config_inflow config)
                     ++ field_nodes "outflow" (reservoir_id config) outflow
                                    (config_outflow config)
                     ++ field_nodes "project" (reservoir_id config) project
                                    (config_projects config)).
  { subst g. by rewrite parseReservoirConfig_eq. }
  assert (Hhub : g.1 !! 0 = Some (node_literal (hub_id config)
                    (reservoir_name config) main_reservoir)) by (by rewrite Hg).
  split_and!.
  - rewrite Hmain.
    assert (Hns : p_nodes (placed_graph g)
                  = seq (length (graph_heap g)) (length g.1)).
    { unfold placed_graph.
      destruct (position_nodes_frame (graph_data g) (graph_heap g))
        as (_ & _ & -> & _).
      unfold graph_data. simpl. by rewrite length_seq. }
    rewrite Hns, Hg. simpl.
    destruct (plain_node_copy own_type g 0 _ Hplain ltac:(done) ltac:(done) Hhub)
      as [_ Ht].
    rewrite Nat.add_0_r in Ht. unfold type_is at 1. by rewrite Ht.
  - destruct (plain_node_copy own_id g 0 _ Hplain ltac:(done) ltac:(done) Hhub)
      as [_ Hi].
    by rewrite Nat.add_0_r in Hi.
  - rewrite Hin.
    rewrite (plain_column own_label g inflow Hplain own_label_position_free)
      by done.
    rewrite Hg. simpl. rewrite !List.filter_app, !filter_field_nodes. simpl.
    by rewrite app_nil_r, field_nodes_labels.
  - rewrite Hout.
    rewrite (plain_column own_label g outflow Hplain own_label_position_free)
      by done.
    rewrite Hg. simpl. rewrite !List.filter_app, !filter_field_nodes. simpl.
    by rewrite app_nil_r, field_nodes_labels.
  - rewrite Hproj.
    rewrite (plain_column own_label g project Hplain own_label_position_free)
      by done.
    rewrite Hg. simpl. rewrite !List.filter_app, !filter_field_nodes. simpl.
    by rewrite field_nodes_labels.
Qed.

(** ** The legend *)

Lemma max_step_finite l : ∀ a,
  ∃ m, fold_left max_step l (Finite a) = Finite m ∧ (a <= m)%Q ∧
       Forall (λ q, (q <= m)%Q) l.
Proof.
  induction l as [| q l IH]; intros a; simpl.
  - exists a. split_and!; [done | lra | done].
  - destruct (IH (Qmax a q)) as (m & E & Hm & Hall). exists m.
    pose proof (Q.le_max_l a q). pose proof (Q.le_max_r a q).
    split_and!; [done | lra |]. apply list.Forall_cons. split; [lra | done].
Qed.

Lemma Math_max_ge l q :
  q ∈ l → ∃ m, Math_max l = Finite m ∧ (q <= m)%Q.
Proof.
  destruct l as [| q0 l]; [by intros ?%elem_of_nil |]. intros Hq.
  unfold Math_max. simpl.
  destruct (max_step_finite l q0) as (m & E & Hm & Hall). exists m.
  split; [done |]. apply elem_of_cons in Hq as [-> | Hq]; [done |].
  rewrite list.Forall_forall in Hall. by apply Hall.
Qed.

Lemma or_zero_some y : (or_zero (Some y) == y)%Q.
Proof.
  unfold or_zero. destruct (Qeq_bool y 0) eqn:E; [| reflexivity].
  apply Qeq_bool_iff in E. by rewrite E.
Qed.

Lemma bottomMostY_ge p a y :
  a ∈ p_nodes p → fy (p_heap p) a = Some y →
  ∃ m, bottomMostY p = Finite m ∧ (y <= m)%Q.
Proof.
  intros Ha Hy.
  destruct (Math_max_ge ((λ n, or_zero (fy (p_heap p) n)) <$> p_nodes p)
              (or_zero (fy (p_heap p) a))) as (m & E & Hm).
  { apply list_elem_of_fmap. by exists a. }
  exists m. split; [done |]. rewrite Hy, or_zero_some in Hm. done.
Qed.

(** X14.  The legend is drawn below the nodes: its upper edge is at
    least [LEGEND_OFFSET] = 40 below the centre of every node that
    has a row, positioned by the layout or not. *)
Theorem legend_below_every_node data h0 a y :
  let p := position_nodes data h0 in
  a ∈ p_nodes p → fy (p_heap p) a = Some y →
  ∃ top, legendY p = Finite top ∧ (y + 40 <= top)%Q.
Proof.
  intros p Ha Hy. destruct (bottomMostY_ge p a y Ha Hy) as (m & E & Hm).
  exists (m + LAYOUT_LEGEND.LEGEND_OFFSET)%Q. unfold legendY. rewrite E.
  split; [done |]. unfold LAYOUT_LEGEND.LEGEND_OFFSET. lra.
Qed.

(** In the sample graph the last project is at y = 100, and the
    legend's upper edge at 140. *)
Lemma legend_below_every_node_sample :
  ∃ top, legendY reservoirData_placed = Finite top ∧ ((400 # 4) + 40 <= top)%Q.
Proof.
  apply (legend_below_every_node reservoirData reservoirData_heap
           (length reservoirData_heap + 8) (400 # 4)).
  - apply (list_elem_of_lookup_2 _ 8). reflexivity.
  - reflexivity.
Defined.

Lemma position_nodes_no_projects data h0 :
  let p := position_nodes data h0 in
  projectNodes p = [] → projectStartY p = contentCenterY.
Proof.
  unfold position_nodes.
  destruct (map_object_create (nodes data) h0) as [h1 ns].
  destruct (map_object_create (links data) h1) as [h2 ls].
  destruct (Nat.ltb 0 (length (List.filter (type_is h2 outflow) ns))) eqn:Eo;
    destruct (Nat.ltb 0 (length (List.filter (type_is h2 project) ns))) eqn:Ep;
    simpl; intros Hp; try done.
  all: apply Nat.ltb_lt in Ep; rewrite Hp in Ep; simpl in Ep; lia.
Qed.

Lemma selected_in_nodes data h0 a :
  let p := position_nodes data h0 in
  positioned_node p a → a ∈ p_nodes p.
Proof.
  intros p Ha.
  destruct (position_nodes_lists data h0) as (Hin & Hout & Hproj & Hmain).
  fold p in Hin, Hout, Hproj, Hmain.
  destruct Ha as [Ha | [Ha | [Ha | Ha]]].
  - rewrite Hmain in Ha. apply List.find_some in Ha as [Ha _].
    by apply list_elem_of_In.
  - rewrite Hin in Ha. by apply filter_elem in Ha as [Ha _].
  - rewrite Hout in Ha. by apply filter_elem in Ha as [Ha _].
  - rewrite Hproj in Ha. by apply filter_elem in Ha as [Ha _].
Qed.

Lemma last_row (l : list nat) :
  l ≠ [] → ∃ i a, l !! i = Some a ∧ (idx i == len l - 1)%Q.
Proof.
  intros Hl. destruct (lookup_lt_is_Some_2 l (length l - 1)) as [a Ha].
  { destruct l; [done | simpl; lia]. }
  exists (length l - 1), a. split; [done |].
  unfold idx, len. replace (Z.of_nat (length l))
    with (Z.of_nat (length l - 1) + 1)%Z.
  - rewrite inject_Z_plus. change (inject_Z 1) with 1%Q. lra.
  - destruct l; [done | simpl; lia].
Qed.

(** X15.  Where the legend ends.  The legend box is 72 high and is
    inside the bounds from left to right, 10 short of the right-hand
    edge; but in a graph with a hub its lower edge is always at least
    12 below the lower edge of the viewBox, which is computed before
    the legend and without it. *)
Theorem legend_below_viewBox data h0 m :
  let p := position_nodes data h0 in
  mainNode p = Some m →
  (legendHeight == 72)%Q ∧
  (minX <= legendX)%Q ∧
  (legendX + LAYOUT_LEGEND.LEGEND_WIDTH == maxX - 10)%Q ∧
  ∃ top, legendY p = Finite top ∧ (maxY p + 12 <= top + legendHeight)%Q.
Proof.
  intros p Hm.
  destruct (position_nodes_positioned data h0) as [Hmain Hin _ Hproj].
  destruct (position_nodes_starts data h0) as (Es & _).
  fold p in Hmain, Hin, Hproj, Es.
  assert (Hsel : ∀ a, positioned_node p a → a ∈ p_nodes p)
    by (intros a; apply selected_in_nodes).
  destruct (bottomMostY_ge p m contentCenterY) as (b & Eb & Hb).
  { apply Hsel. by left. }
  { eapply placed_at_fy. by apply Hmain. }
  assert (Hi : (inflowStartY p + (len (inflowNodes p) - 1) * LAYOUT.NODE_SPACING
                <= b)%Q).
  { destruct (decide (inflowNodes p = [])) as [E | E].
    - rewrite Es, E, centeredStartY_eq. change (len []) with 0%Q.
      unfold contentCenterY in Hb. unfold LAYOUT.NODE_SPACING. lra.
    - destruct (last_row (inflowNodes p)) as (i & a & Ha & Ei); [done |].
      destruct (bottomMostY_ge p a _
        ltac:(apply Hsel; right; left; by eapply list_elem_of_lookup_2)
        (placed_at_fy _ _ _ _ (Hin i a Ha))) as (b' & Eb' & Hb').
      rewrite Eb in Eb'. injection Eb' as <-.
      unfold rowY in Hb'. rewrite Ei in Hb'. done. }
  assert (Hp : (projectStartY p + (len (projectNodes p) - 1) * LAYOUT.NODE_SPACING
                <= b)%Q).
  { destruct (decide (projectNodes p = [])) as [E | E].
    - pose proof (position_nodes_no_projects data h0 E) as Ep. fold p in Ep.
      rewrite Ep, E. change (len []) with 0%Q.
      unfold contentCenterY in *. unfold LAYOUT.NODE_SPACING. lra.
    - destruct (last_row (projectNodes p)) as (i & a & Ha & Ei); [done |].
      destruct (bottomMostY_ge p a _
        ltac:(apply Hsel; right; right; right; by eapply list_elem_of_lookup_2)
        (placed_at_fy _ _ _ _ (Hproj i a Ha))) as (b' & Eb' & Hb').
      rewrite Eb in Eb'. injection Eb' as <-.
      unfold rowY in Hb'. rewrite Ei in Hb'. done. }
  split_and!; [reflexivity | by vm_compute | reflexivity |].
  exists (b + LAYOUT_LEGEND.LEGEND_OFFSET)%Q. unfold legendY. rewrite Eb.
  split; [done |]. unfold maxY.
  pose proof (Q.max_lub _ _ _ Hi Hp) as Hmax.
  assert (E72 : (legendHeight == 72)%Q) by reflexivity.
  rewrite E72. unfold LAYOUT.PADDING, LAYOUT_LEGEND.LEGEND_OFFSET. lra.
Qed.

(** In the sample graph the viewBox ends at y = 200 and the legend at
    y = 212. *)
Lemma legend_below_viewBox_sample :
  (legendHeight == 72)%Q ∧
  (minX <= legendX)%Q ∧
  (legendX + LAYOUT_LEGEND.LEGEND_WIDTH == maxX - 10)%Q ∧
  ∃ top, legendY reservoirData_placed = Finite top ∧
         (maxY reservoirData_placed + 12 <= top + legendHeight)%Q.
Proof.
  apply (legend_below_viewBox reservoirData reservoirData_heap
           (length reservoirData_heap)).
  reflexivity.
Defined.

(** ** The empty graph and the application *)

Lemma drawLinks_no_nodes h ls : ∀ group, drawLinks h [] ls group = Some group.
Proof. induction ls as [| l ls IH]; intros group; simpl; [done | apply IH]. Qed.

(** X16.  A graph without nodes.  Whatever its links are, none is
    drawn and none throws; the bounds are those of the empty columns,
    from y = -100 to y = 80; and the legend's row, the largest row of
    no node at all plus 40, is -Infinity. *)
Theorem empty_graph_picture data h0 :
  let p := position_nodes data h0 in
  nodes data = [] →
  p_nodes p = [] ∧ mainNode p = None ∧
  renderLinks data h0 = Some [] ∧
  (minY p == -100)%Q ∧ (maxY p == 80)%Q ∧
  legendY p = NegInfinity.
Proof.
  intros p Hn. subst p. unfold renderLinks, legendY, bottomMostY, minY, maxY.
  unfold position_nodes. destruct data as [ns ls]. simpl in Hn. subst ns.
  simpl. destruct (map_object_create ls h0) as [h2 ls']. simpl.
  split_and!; try done. apply drawLinks_no_nodes.
Qed.

(** A graph of links only. *)
Lemma empty_graph_picture_sample :
  let p := position_nodes (mkGraph [] [0]) [link_literal "a" "b"] in
  p_nodes p = [] ∧ mainNode p = None ∧
  renderLinks (mkGraph [] [0]) [link_literal "a" "b"] = Some [] ∧
  (minY p == -100)%Q ∧ (maxY p == 80)%Q ∧
  legendY p = NegInfinity.
Proof.
  apply (empty_graph_picture (mkGraph [] [0]) [link_literal "a" "b"]).
  reflexivity.
Defined.

Lemma getReservoirById_spec reservoirs id :
  match getReservoirById reservoirs id with
  | Some r => r ∈ reservoirs ∧ reservoir_id r = id
  | None => Forall (λ r, reservoir_id r ≠ id) reservoirs
  end.
Proof.
  unfold getReservoirById.
  induction reservoirs as [| r rs IH]; simpl; [done |].
  destruct (Z.eqb_spec (reservoir_id r) id) as [E | E].
  - split; [by left | done].
  - destruct (List.find _ rs) as [r' |].
    + destruct IH as [Hr Hid]. split; [by right | done].
    + by apply list.Forall_cons.
Qed.

(** X17.  What the application shows first.  The selection starts at
    the id of the first configuration, or at 101 when there is none
    or when that id is 0; the graph shown is the parse of the first
    configuration that has the selected id, whose hub is named after
    that id, and the empty graph when no configuration has it.  So a
    first configuration with id 0 is not the one shown first. *)
Theorem initial_graph :
  graphData [] (initialSelection []) = ([], []) ∧
  (∀ r rs, graphData (r :: rs) (initialSelection (r :: rs))
           = if Z.eqb (reservoir_id r) 0 then graphData rs 101
             else parseReservoirConfig r) ∧
  (∀ reservoirs selected,
     (graphData reservoirs selected = ([], []) ∧
      Forall (λ r, reservoir_id r ≠ selected) reservoirs) ∨
     (∃ r rest, r ∈ reservoirs ∧ reservoir_id r = selected ∧
        graphData reservoirs selected = parseReservoirConfig r ∧
        (graphData reservoirs selected).1
        = node_literal ("reservoir_" ++ show_Z selected) (reservoir_name r)
                       main_reservoir :: rest)).
Proof.
  split_and!.
  - reflexivity.
  - intros r rs. unfold graphData, getReservoirById, initialSelection. simpl.
    destruct (Z.eqb_spec (reservoir_id r) 0) as [E | E].
    + rewrite E. simpl. done.
    + by rewrite Z.eqb_refl.
  - intros reservoirs selected. unfold graphData.
    pose proof (getReservoirById_spec reservoirs selected) as H.
    destruct (getReservoirById reservoirs selected) as [r |].
    + right. destruct H as [Hr Hid]. exists r. eexists.
      split; [exact Hr |]. split; [exact Hid |]. split; [reflexivity |].
      rewrite parseReservoirConfig_eq. simpl.
      unfold hub_id. rewrite Hid. reflexivity.
    + by left.
Qed.

(** ** The hub text *)

Lemma truthy_append a b : truthy a = true → truthy (String.append a b) = true.
Proof. by destruct a. Qed.

Lemma unwords_snoc cb w :
  cb ≠ [] →
  unwords (cb ++ [w]) = String.append (unwords cb) (String.append " " w).
Proof.
  destruct cb as [| v cb]; [done |]. intros _. simpl.
  by rewrite fold_left_app.
Qed.

Lemma fold_left_truthy (l : list string) : ∀ acc,
  truthy acc = true →
  truthy (fold_left (λ acc v, String.append acc (String.append " " v)) l acc)
  = true.
Proof.
  induction l as [| v l IH]; intros acc Hacc; simpl; [done |].
  by apply IH, truthy_append.
Qed.

Lemma unwords_falsy cb :
  truthy (unwords cb) = false → List.filter truthy cb = [].
Proof.
  destruct cb as [| v [| v' cb]]; simpl; [done | by intros -> |].
  intros H. rewrite fold_left_truthy in H; [done |]. by destruct v.
Qed.

Lemma wrap_step_blocks measure maxWidth size seen st w :
  wrap_blocks seen st →
  wrap_blocks (seen ++ [w]) (wrap_step measure maxWidth size st w).
Proof.
  destruct st as [lines cur]. intros (blocks & cb & Hl & Hc & Ht & Hw).
  simpl in Hl, Hc, Ht. unfold wrap_step.
  destruct (truthy cur) eqn:Ec; simpl.
  - assert (Hcb : cb ≠ []) by (intros ->; by rewrite Hc in Ec).
    destruct (Qle_bool _ maxWidth); simpl.
    + exists blocks, (cb ++ [w]). simpl. split_and!; [done | | done |].
      * by rewrite unwords_snoc, Hc.
      * by rewrite app_assoc, (List.filter_app _ (concat blocks ++ cb)), Hw,
          List.filter_app.
    + exists (blocks ++ [cb]), [w]. simpl. split_and!.
      * by rewrite fmap_app, Hl, Hc.
      * done.
      * apply Forall_app. split; [done |]. by apply Forall_singleton.
      * rewrite concat_app. simpl. rewrite app_nil_r.
        by rewrite (List.filter_app _ (concat blocks ++ cb)), Hw,
          List.filter_app.
  - rewrite andb_false_r. exists blocks, [w]. simpl.
    split_and!; [done | done | done |].
    rewrite Hc in Ec. apply unwords_falsy in Ec.
    rewrite !List.filter_app, Ec, app_nil_r in Hw.
    by rewrite !List.filter_app, Hw.
Qed.

Lemma wrap_fold_blocks measure maxWidth size ws : ∀ seen st,
  wrap_blocks seen st →
  wrap_blocks (seen ++ ws) (fold_left (wrap_step measure maxWidth size) ws st).
Proof.
  induction ws as [| w ws IH]; intros seen st Hst; simpl.
  - by rewrite app_nil_r.
  - replace (seen ++ w :: ws) with ((seen ++ [w]) ++ ws)
      by (by rewrite <- app_assoc).
    by apply IH, wrap_step_blocks.
Qed.

Lemma wrapText_blocks measure text maxWidth size :
  ∃ blocks,
    wrapText measure text maxWidth size = unwords <$> blocks ∧
    Forall (λ l, truthy l = true) (wrapText measure text maxWidth size) ∧
    List.filter truthy (concat blocks) = List.filter truthy (split_ws text).
Proof.
  unfold wrapText.
  destruct (wrap_fold_blocks measure maxWidth size (split_ws text) []
              ([], EmptyString)) as (blocks & cb & Hl & Hc & Ht & Hw).
  { exists [], []. by simpl. }
  simpl in Hw.
  destruct (fold_left _ _ _) as [lines cur]. simpl in Hl, Hc, Ht.
  destruct (truthy cur) eqn:Ec.
  - exists (blocks ++ [cb]). split_and!.
    + by rewrite fmap_app, Hl, Hc.
    + apply Forall_app. split; [done |]. by apply Forall_singleton.
    + rewrite concat_app. simpl. by rewrite app_nil_r.
  - exists blocks. split_and!; [done | done |].
    rewrite Hc in Ec. apply unwords_falsy in Ec.
    by rewrite List.filter_app, Ec, app_nil_r in Hw.
Qed.

Lemma split_go_blank s : ∀ cur in_ws,
  blank_string s = true →
  Forall (λ w, w = cur ∨ w = EmptyString) (split_go s cur in_ws).
Proof.
  induction s as [| c s IH]; intros cur in_ws Hs; simpl.
  - apply Forall_singleton. by left.
  - simpl in Hs. apply andb_prop in Hs as [-> Hs]. destruct in_ws.
    + by apply IH.
    + apply list.Forall_cons. split; [by left |].
      eapply list.Forall_impl; [by apply (IH EmptyString true) |].
      simpl. intros w [-> | ->]; by right.
Qed.

Lemma split_go_word s : ∀ cur in_ws,
  truthy cur = true ∨ blank_string s = false →
  ∃ w, w ∈ split_go s cur in_ws ∧ truthy w = true.
Proof.
  induction s as [| c s IH]; intros cur in_ws H; simpl.
  - destruct H as [H | H]; [| done]. exists cur. split; [by left | done].
  - simpl in H. destruct (is_space c) eqn:Ec; simpl in H.
    + destruct in_ws.
      * by apply IH.
      * destruct H as [H | H].
        -- exists cur. split; [by left | done].
        -- destruct (IH EmptyString true (or_intror H)) as (w & Hw & Ht).
           exists w. split; [by right | done].
    + apply IH. left. by destruct cur.
Qed.

Lemma wrap_fold_empty measure maxWidth size ws :
  Forall (λ w, w = EmptyString) ws →
  fold_left (wrap_step measure maxWidth size) ws ([], EmptyString)
  = ([], EmptyString).
Proof.
  induction ws as [| w ws IH]; intros H; simpl; [done |].
  apply list.Forall_cons in H as [-> H]. rewrite andb_false_r. by apply IH.
Qed.

Lemma wrapText_nil_iff measure text maxWidth size :
  wrapText measure text maxWidth size = [] ↔ blank_string text = true.
Proof.
  split.
  - intros Hnil.
    destruct (wrapText_blocks measure text maxWidth size)
      as (blocks & Hb & _ & Hw).
    rewrite Hnil in Hb. symmetry in Hb. apply fmap_nil_inv in Hb. subst blocks.
    simpl in Hw. destruct (blank_string text) eqn:E; [done |].
    destruct (split_go_word text EmptyString false (or_intror E))
      as (w & Hw' & Ht).
    assert (Hin : w ∈ List.filter truthy (split_ws text))
      by (apply list_elem_of_In, List.filter_In; split;
          [by apply list_elem_of_In | done]).
    rewrite <- Hw in Hin. by apply elem_of_nil in Hin.
  - intros Hs. unfold wrapText. rewrite wrap_fold_empty; [done |].
    eapply list.Forall_impl; [by apply (split_go_blank text EmptyString false) |].
    simpl. by intros w [-> | ->].
Qed.

(** X18.  Wrapping loses no word.  Every line of [wrapText] is a run
    of consecutive words of the text joined by single spaces, no line
    is empty, and the words of the lines, read in order, are the
    words of the text (empty pieces, which the split gives for white
    space at either end, aside); there is no line at all exactly when
    the text is empty or all white space.  This holds whatever the
    widths measured are. *)
Theorem wrap_keeps_words measure text maxWidth size :
  (∃ blocks,
     wrapText measure text maxWidth size = unwords <$> blocks ∧
     Forall (λ l, truthy l = true) (wrapText measure text maxWidth size) ∧
     List.filter truthy (concat blocks) = List.filter truthy (split_ws text)) ∧
  (wrapText measure text maxWidth size = [] ↔ blank_string text = true).
Proof.
  split; [apply wrapText_blocks | apply wrapText_nil_iff].
Qed.

Lemma fit_loop_result measure text maxWidth maxHeight n : ∀ st f,
  fit_loop measure n text maxWidth maxHeight st = Some f →
  accepted measure text maxWidth maxHeight f ∨
  (f = st ∧ ¬ (10 <= fontSize st)%Q) ∨
  ∃ s (j : nat), (s == fontSize st - inject_Z (Z.of_nat j))%Q ∧
                 gave_up measure text maxWidth maxHeight s f.
Proof.
  induction n as [| n IH]; intros st f; [done |]. rewrite fit_loop_S.
  destruct (Qle_bool 10 (fontSize st)) eqn:E.
  - apply Qle_bool_iff in E. cbv zeta.
    destruct (Qle_bool _ maxHeight) eqn:Eh.
    + intros [= <-]. left. apply Qle_bool_iff in Eh. by split_and!.
    + intros H. apply IH in H as [H | [[-> H] | (s & j & Hs & H)]].
      * by left.
      * right; right. exists (fontSize st), 0. simpl in H. split.
        { change (inject_Z (Z.of_nat 0)) with 0%Q. lra. }
        split_and!; simpl; try done.
        intros Hle%Qle_bool_iff. by rewrite Hle in Eh.
      * right; right. exists s, (S j). split; [| done]. simpl fontSize in Hs.
        rewrite Nat2Z.inj_succ, <- Z.add_1_r, inject_Z_plus.
        change (inject_Z 1) with 1%Q. lra.
  - intros [= <-]. right; left. split; [done |].
    intros H%Qle_bool_iff. by rewrite H in E.
Qed.

(** X19.  How the fitting loop ends.  For every label and every way
    of measuring, the loop returns, in one of two ways.  Either it
    accepted a size from 10 to 16: the lines are the wrapping at that
    size, the line height is 1.2 times the size, and the block is at
    most 60 high, so there are at most five lines.  Or it gave up:
    the size is 9, the lines are still those wrapped at 10 with the
    line height 12 of that try, and there are at least six of them,
    a block more than 60 high. *)
Theorem fit_accepts_or_gives_up measure label :
  ∃ f, fitText measure label = Some f ∧
    ((accepted measure label hubMaxWidth hubMaxHeight f ∧
      (fontSize f <= 16)%Q ∧ length (fit_lines f) ≤ 5) ∨
     (∃ s, (s == 10)%Q ∧
           gave_up measure label hubMaxWidth hubMaxHeight s f ∧
           (fontSize f == 9)%Q ∧ (lineHeight f == 12)%Q ∧
           6 ≤ length (fit_lines f))).
Proof.
  destruct (fitText_total measure label) as [f Hf]. exists f.
  split; [done |]. unfold fitText in Hf.
  assert (H9 : (9 <= fontSize (mkFit 16 [] 0))%Q) by (simpl; lra).
  pose proof (fit_loop_range measure label hubMaxWidth hubMaxHeight _ _ f
                H9 Hf) as Hr.
  simpl fontSize in Hr. clear H9.
  assert (Hmax : (hubMaxHeight == 60)%Q) by reflexivity.
  apply fit_loop_result in Hf as [H | [[-> H] | (s & j & Hs & H)]].
  - left. split_and!; [done | lra |].
    destruct H as (H10 & _ & Hlh & Hh). rewrite Hlh, Hmax in Hh.
    assert (Hn : (inject_Z (Z.of_nat (length (fit_lines f))) * 12 <= 60)%Q).
    { assert (0 <= inject_Z (Z.of_nat (length (fit_lines f))))%Q
        by (change 0%Q with (inject_Z 0); rewrite <- Zle_Qle; lia).
      nra. }
    assert (Hn' : (inject_Z (Z.of_nat (length (fit_lines f))) <= inject_Z 5)%Q)
      by (change (inject_Z 5) with 5%Q; lra).
    rewrite <- Zle_Qle in Hn'. lia.
  - simpl in H. exfalso. apply H. lra.
  - right. simpl fontSize in Hs. exists s.
    destruct H as (H10 & Hsz & Hlt & Hlines & Hlh & Hh).
    pose proof Hlt as Hlt'. rewrite Hsz in Hlt', Hr.
    assert (Hj : j = 6).
    { assert (H1 : (inject_Z 5 < inject_Z (Z.of_nat j))%Q)
        by (change (inject_Z 5) with 5%Q; lra).
      assert (H2 : (inject_Z (Z.of_nat j) <= inject_Z 6)%Q)
        by (change (inject_Z 6) with 6%Q; lra).
      rewrite <- Zlt_Qlt in H1. rewrite <- Zle_Qle in H2. lia. }
    subst j. change (inject_Z (Z.of_nat 6)) with 6%Q in Hs.
    assert (Es : (s == 10)%Q) by lra.
    split_and!; [done | by split_and! | rewrite Hsz; lra | rewrite Hlh; lra |].
    rewrite Hlh, Hmax in Hh.
    assert (Hn : (inject_Z 5 < inject_Z (Z.of_nat (length (fit_lines f))))%Q).
    { change (inject_Z 5) with 5%Q. apply Qnot_le_lt in Hh. nra. }
    rewrite <- Zlt_Qlt in Hn. lia.
Qed.

Lemma drawLines_from_content startY f ls : ∀ i,
  text_content <$> drawLines_from i startY f ls = ls ∧
  Forall (λ e, text_fontSize e = fontSize f) (drawLines_from i startY f ls).
Proof.
  induction ls as [| l ls IH]; intros i; simpl; [done |].
  destruct (IH (S i)) as [E H]. split; [by f_equal |].
  by apply list.Forall_cons.
Qed.

(** X20.  What is written in the hub.  For every label the hub gets
    one text element per fitted line, in order and all at the fitted
    font size; it gets none exactly when the label is empty or all
    white space, and then the size stays at 16. *)
Theorem hub_text_elements measure label :
  ∃ f els,
    fitText measure label = Some f ∧
    drawHubText measure label = Some els ∧
    text_content <$> els = fit_lines f ∧
    Forall (λ e, text_fontSize e = fontSize f) els ∧
    (els = [] ↔ blank_string label = true) ∧
    (blank_string label = true → fontSize f = 16%Q).
Proof.
  destruct (fitText_total measure label) as [f Hf].
  unfold drawHubText. rewrite Hf. cbv zeta. eexists f, _.
  split; [done |]. split; [reflexivity |].
  match goal with
  | |- context [drawLines_from 0 ?y f (fit_lines f)] =>
      destruct (drawLines_from_content y f (fit_lines f) 0) as [Ec Es];
      set (els := drawLines_from 0 y f (fit_lines f)) in *
  end.
  split; [done |]. split; [done |].
  assert (Hnil : els = [] ↔ fit_lines f = []).
  { rewrite <- Ec. split; [by intros -> | apply fmap_nil_inv]. }
  assert (Hlines : ∃ s, fit_lines f = wrapText measure label hubMaxWidth s).
  { unfold fitText in Hf.
    apply fit_loop_result in Hf as [H | [[-> H] | (s & j & _ & H)]].
    - destruct H as (_ & H & _). by eexists.
    - exfalso. apply H. simpl. lra.
    - destruct H as (_ & _ & _ & H & _). by eexists. }
  destruct Hlines as [s Hs]. split.
  - rewrite Hnil, Hs. apply wrapText_nil_iff.
  - intros Hb. unfold fitText in Hf. rewrite fit_loop_S in Hf.
    simpl fontSize in Hf. cbv zeta in Hf.
    rewrite (proj2 (wrapText_nil_iff measure label hubMaxWidth 16) Hb) in Hf.
    simpl in Hf. by injection Hf as <-.
Qed.

(** ** The wrapping is greedy *)

Lemma all_but_last_truthy_cons w ws :
  truthy w = true → all_but_last_truthy ws → all_but_last_truthy (w :: ws).
Proof.
  intros Hw Hws [| i] v Hv Hi; simpl in *.
  - by injection Hv as <-.
  - apply (Hws i v Hv). lia.
Qed.

Lemma all_but_last_truthy_tail ws :
  all_but_last_truthy ws → all_but_last_truthy (tail ws).
Proof.
  destruct ws as [| w ws]; [done |]. intros H i v Hv Hi.
  apply (H (S i) v Hv). simpl in *. lia.
Qed.

Lemma all_but_last_truthy_head w ws :
  all_but_last_truthy (w :: ws) → ws ≠ [] → truthy w = true.
Proof.
  intros H Hws. apply (H 0 w eq_refl). destruct ws; [done | simpl; lia].
Qed.

Lemma split_go_inner s : ∀ cur in_ws,
  all_but_last_truthy (tail (split_go s cur in_ws)) ∧
  (in_ws = true ∨ truthy cur = true →
   all_but_last_truthy (split_go s cur in_ws)).
Proof.
  induction s as [| c s IH]; intros cur in_ws; simpl.
  - split; [| intros _]; intros i w Hw Hi; simpl in *; lia.
  - destruct (is_space c).
    + destruct in_ws.
      * apply IH.
      * destruct (IH EmptyString true) as [_ Hall].
        specialize (Hall (or_introl eq_refl)). split; [done |].
        intros [? | Hc]; [done |]. by apply all_but_last_truthy_cons.
    + destruct (IH (String.append cur (String c EmptyString)) false)
        as [Ht Hall].
      split; [done |]. intros _. apply Hall. right. by destruct cur.
Qed.

Lemma greedy_single measure maxWidth size w :
  greedy measure maxWidth size [[w]].
Proof.
  split.
  - intros b n Hb%list_elem_of_singleton Hn. subst b. simpl in Hn. lia.
  - intros [| i] b v b' _ H; done.
Qed.

Lemma greedy_app_l measure maxWidth size bs cb :
  greedy measure maxWidth size (bs ++ [cb]) → greedy measure maxWidth size bs.
Proof.
  intros [Hfit Hbreak]. split.
  - intros b n Hb. apply Hfit. apply elem_of_app. by left.
  - intros i b w b' Hi Hsi. apply (Hbreak i b w b').
    + by apply lookup_app_l_Some.
    + by apply lookup_app_l_Some.
Qed.

Lemma greedy_add_word measure maxWidth size bs cb w :
  greedy measure maxWidth size (bs ++ [cb]) → cb ≠ [] →
  (measure (unwords (cb ++ [w])) size <= maxWidth)%Q →
  greedy measure maxWidth size (bs ++ [cb ++ [w]]).
Proof.
  intros [Hfit Hbreak] Hcb Hw. split.
  - intros b n Hb Hn. apply elem_of_app in Hb as [Hb | Hb%list_elem_of_singleton].
    + apply Hfit; [| done]. apply elem_of_app. by left.
    + subst b. rewrite length_app in Hn. simpl in Hn.
      destruct (decide (n ≤ length cb)) as [Hle | Hgt].
      * rewrite take_app_le by done. apply Hfit; [| lia].
        apply elem_of_app. right. by apply list_elem_of_singleton.
      * rewrite take_ge by (rewrite length_app; simpl; lia). done.
  - intros i b v b' Hi Hsi.
    destruct (decide (S i < length bs)) as [Hlt | Hge].
    + apply (Hbreak i b v b').
      * rewrite lookup_app_l in Hi by lia. by rewrite lookup_app_l by lia.
      * rewrite lookup_app_l in Hsi by lia. by rewrite lookup_app_l by lia.
    + assert (S i = length bs) as Hlast.
      { apply lookup_lt_Some in Hsi. rewrite length_app in Hsi.
        simpl in Hsi. lia. }
      rewrite lookup_app_l in Hi by lia.
      rewrite lookup_app_r, Hlast, Nat.sub_diag in Hsi by lia.
      simpl in Hsi. injection Hsi as Hsi.
      destruct cb as [| c0 cb0]; [done |]. simpl in Hsi. injection Hsi as <- _.
      apply (Hbreak i b c0 cb0).
      * by rewrite lookup_app_l by lia.
      * by rewrite lookup_app_r, Hlast, Nat.sub_diag by lia.
Qed.

Lemma greedy_new_line measure maxWidth size bs w :
  greedy measure maxWidth size bs →
  (∀ b, bs !! (length bs - 1) = Some b →
     ¬ (measure (String.append (unwords b) (String.append " " w)) size
        <= maxWidth)%Q) →
  greedy measure maxWidth size (bs ++ [[w]]).
Proof.
  intros [Hfit Hbreak] Hw. split.
  - intros b n Hb Hn. apply elem_of_app in Hb as [Hb | Hb%list_elem_of_singleton].
    + by apply Hfit.
    + subst b. simpl in Hn. lia.
  - intros i b v b' Hi Hsi.
    destruct (decide (S i < length bs)) as [Hlt | Hge].
    + apply (Hbreak i b v b').
      * by rewrite lookup_app_l in Hi by lia.
      * by rewrite lookup_app_l in Hsi by lia.
    + assert (S i = length bs) as Hlast.
      { apply lookup_lt_Some in Hsi. rewrite length_app in Hsi.
        simpl in Hsi. lia. }
      rewrite lookup_app_l in Hi by lia.
      rewrite lookup_app_r, Hlast, Nat.sub_diag in Hsi by lia.
      simpl in Hsi. injection Hsi as <- <-.
      apply Hw. rewrite <- Hlast. simpl. by rewrite Nat.sub_0_r.
Qed.

Lemma wrap_step_state measure maxWidth size seen rest st w :
  wrap_state measure maxWidth size seen (w :: rest) st →
  (truthy st.2 = true → rest ≠ [] → truthy w = true) →
  wrap_state measure maxWidth size (seen ++ [w]) rest
    (wrap_step measure maxWidth size st w).
Proof.
  destruct st as [lines cur].
  intros (blocks & cb & Hl & Hc & Hw & Hg & Hd) Hin.
  simpl in Hl, Hc, Hin, Hd. unfold wrap_step.
  destruct (truthy cur) eqn:Ec; simpl.
  - assert (Hcb : cb ≠ []) by (intros ->; by rewrite Hc in Ec).
    assert (Etest : String.append cur (String.append " " w)
                    = unwords (cb ++ [w]))
      by (by rewrite unwords_snoc, Hc).
    destruct (Qle_bool _ maxWidth) eqn:Ew; simpl.
    + exists blocks, (cb ++ [w]). simpl. split_and!; [done | done | | |].
      * by rewrite app_assoc, (List.filter_app _ (concat blocks ++ cb)), Hw,
          List.filter_app.
      * apply greedy_add_word; [done | done |].
        rewrite <- Etest. by apply Qle_bool_iff.
      * left. by apply truthy_append.
    + exists (blocks ++ [cb]), [w]. simpl. split_and!.
      * by rewrite fmap_app, Hl, Hc.
      * done.
      * rewrite concat_app. simpl. rewrite app_nil_r.
        by rewrite (List.filter_app _ (concat blocks ++ cb)), Hw,
          List.filter_app.
      * apply greedy_new_line; [done |]. intros b Hb.
        rewrite length_app in Hb. simpl in Hb.
        rewrite lookup_app_r in Hb by lia.
        replace (length blocks + 1 - 1 - length blocks) with 0 in Hb by lia.
        simpl in Hb. injection Hb as <-. rewrite <- Hc.
        intros Hle%Qle_bool_iff. simpl in Hle. by rewrite Hle in Ew.
      * destruct rest as [| w' rest']; [by right; right |].
        left. by apply Hin.
  - rewrite andb_false_r. destruct Hd as [Hd | [-> | Hd]]; [done | | done].
    exists [], [w]. simpl. split_and!; [done | done | | | by right; left].
    + rewrite Hc in Ec. apply unwords_falsy in Ec. simpl in Hw.
      by rewrite List.filter_app, <- Hw, Ec.
    + apply greedy_single.
Qed.

Lemma wrap_fold_state measure maxWidth size ws : ∀ seen st,
  wrap_state measure maxWidth size seen ws st →
  all_but_last_truthy (tail ws) →
  (truthy st.2 = true → all_but_last_truthy ws) →
  wrap_state measure maxWidth size (seen ++ ws) []
    (fold_left (wrap_step measure maxWidth size) ws st).
Proof.
  induction ws as [| w ws IH]; intros seen st Hst Htail Hall; simpl.
  - by rewrite app_nil_r.
  - replace (seen ++ w :: ws) with ((seen ++ [w]) ++ ws)
      by (by rewrite <- app_assoc).
    simpl in Htail. apply IH.
    + apply wrap_step_state; [done |]. intros Ht Hne.
      by apply (all_but_last_truthy_head w ws (Hall Ht)).
    + by apply all_but_last_truthy_tail.
    + done.
Qed.

(** [wrapText] is the greedy wrapping of the words of the text. *)
Lemma wrapText_greedy measure text maxWidth size :
  ∃ blocks,
    wrapText measure text maxWidth size = unwords <$> blocks ∧
    List.filter truthy (concat blocks) = List.filter truthy (split_ws text) ∧
    greedy measure maxWidth size blocks.
Proof.
  unfold wrapText.
  destruct (wrap_fold_state measure maxWidth size (split_ws text) []
              ([], EmptyString)) as (blocks & cb & Hl & Hc & Hw & Hg & _).
  { exists [], []. simpl. split_and!; [done | done | done | | by right; left].
    split; [| by intros [| i] b w b' Hi Hsi].
    intros b n Hb%list_elem_of_singleton Hn. subst b. simpl in Hn. lia. }
  { apply split_go_inner. }
  { done. }
  simpl in Hw.
  destruct (fold_left _ _ _) as [lines cur]. simpl in Hl, Hc.
  destruct (truthy cur) eqn:Ec.
  - exists (blocks ++ [cb]). split_and!; [| | done].
    + by rewrite fmap_app, Hl, Hc.
    + rewrite concat_app. simpl. by rewrite app_nil_r.
  - exists blocks. split_and!; [done | | by eapply greedy_app_l].
    rewrite Hc in Ec. apply unwords_falsy in Ec.
    by rewrite List.filter_app, Ec, app_nil_r in Hw.
Qed.

(** The size at which the fitted lines were wrapped: the size
    reported, or 10 when the fitter gave up at 9. *)
Lemma fitText_size measure label f :
  fitText measure label = Some f →
  ∃ size, fit_lines f = wrapText measure label hubMaxWidth size ∧
          (size = fontSize f ∨ (size == 10)%Q ∧ (fontSize f == 9)%Q).
Proof.
  intros Hf. unfold fitText in Hf.
  assert (H9 : (9 <= fontSize (mkFit 16 [] 0))%Q) by (simpl; lra).
  pose proof (fit_loop_range measure label hubMaxWidth hubMaxHeight _ _ f
                H9 Hf) as Hr.
  simpl fontSize in Hr. clear H9.
  apply fit_loop_result in Hf as [H | [[-> H] | (s & j & Hs & H)]].
  - destruct H as (_ & H & _). exists (fontSize f). split; [done | by left].
  - simpl in H. exfalso. apply H. lra.
  - simpl fontSize in Hs. exists s.
    destruct H as (H10 & Hsz & Hlt & Hlines & _). split; [done | right].
    rewrite Hsz in Hlt, Hr.
    assert (Hj : j = 6).
    { assert (H1 : (inject_Z 5 < inject_Z (Z.of_nat j))%Q)
        by (change (inject_Z 5) with 5%Q; lra).
      assert (H2 : (inject_Z (Z.of_nat j) <= inject_Z 6)%Q)
        by (change (inject_Z 6) with 6%Q; lra).
      rewrite <- Zlt_Qlt in H1. rewrite <- Zle_Qle in H2. lia. }
    subst j. change (inject_Z (Z.of_nat 6)) with 6%Q in Hs.
    split; [lra | rewrite Hsz; lra].
Qed.

(** C5, amended.  For every label and every measurement that does not
    shrink when the font grows, every line of the fitted wrapping is
    either one word of the label on a line of its own (a word is
    never broken, however wide) or has a measured width of at most
    maxWidth at the font size reported by the fitter.  The lines are
    the greedy wrapping of the words of the label, in their order, at
    the size of the last try (the size reported, or 10 when the
    fitter gave up at 9): a word was added to a line while the line
    with it was no wider than maxWidth, and a line was closed only
    when the line with the next word would have been wider. *)
Theorem fitted_lines_within_width measure label f :
  monotonic measure →
  fitText measure label = Some f →
  Forall (line_ok measure label hubMaxWidth (fontSize f)) (fit_lines f) ∧
  ∃ size blocks,
    (size = fontSize f ∨ (size == 10)%Q ∧ (fontSize f == 9)%Q) ∧
    fit_lines f = unwords <$> blocks ∧
    List.filter truthy (concat blocks) = List.filter truthy (split_ws label) ∧
    greedy measure hubMaxWidth size blocks.
Proof.
  intros Hmono Hfit. split.
  - assert (Hw : wrapped_at measure label hubMaxWidth f).
    { eapply fit_loop_wrapped; [| exact Hfit]. by left. }
    destruct Hw as [-> | (size & Hle & ->)]; [constructor |].
    eapply list.Forall_impl; [apply wrapText_lines_ok |].
    intros line [Hword | Hfits]; [by left | right].
    pose proof (Hmono line _ _ Hle). lra.
  - destruct (fitText_size measure label f Hfit) as (size & Hlines & Hsize).
    destruct (wrapText_greedy measure label hubMaxWidth size)
      as (blocks & Hb & Hwords & Hg).
    exists size, blocks. split_and!; [done | congruence | done | done].
Qed.

(** The amended C5 at the six-line label. *)
Lemma fitted_lines_within_width_sample :
  monotonic char_measure ∧
  ∃ f, fitText char_measure longLabel = Some f ∧
       Forall (line_ok char_measure longLabel hubMaxWidth (fontSize f))
              (fit_lines f) ∧
       ∃ size blocks,
         (size = fontSize f ∨ (size == 10)%Q ∧ (fontSize f == 9)%Q) ∧
         fit_lines f = unwords <$> blocks ∧
         List.filter truthy (concat blocks)
         = List.filter truthy (split_ws longLabel) ∧
         greedy char_measure hubMaxWidth size blocks.
Proof.
  split; [exact char_measure_monotonic |].
  eexists. split; [vm_compute; reflexivity |].
  apply (fitted_lines_within_width char_measure longLabel _
           char_measure_monotonic).
  vm_compute; reflexivity.
Defined.

(** ** The zoom buttons *)

Lemma clamp_range (v : Q) :
  (ZOOM.MIN_SCALE <= Qmax ZOOM.MIN_SCALE (Qmin ZOOM.MAX_SCALE v)
   <= ZOOM.MAX_SCALE)%Q.
Proof.
  split; [apply Q.le_max_l |]. apply Q.max_lub; [by vm_compute |].
  apply Q.le_min_l.
Qed.

Lemma mount_in_extent c : in_extent (mount c) ∧ centre (mount c) = c.
Proof. split; [split; [by vm_compute | done] | done]. Qed.

Lemma click_in_extent v b :
  in_extent v → in_extent (click v b) ∧ centre (click v b) = centre v.
Proof.
  intros [Hk Hz]. destruct b; simpl; (split; [split; [| done] | done]).
  - apply clamp_range.
  - apply clamp_range.
  - by vm_compute.
Qed.

Lemma clicks_in_extent bs : ∀ v,
  in_extent v → in_extent (clicks bs v) ∧ centre (clicks bs v) = centre v.
Proof.
  unfold clicks. induction bs as [| b bs IH]; intros v Hv; simpl; [done |].
  destruct (click_in_extent v b Hv) as [Hv' Hc].
  destruct (IH _ Hv') as [H1 H2]. split; [done | congruence].
Qed.

Lemma Math_round_range (z : Q) (lo hi : Z) :
  (inject_Z lo <= z <= inject_Z hi)%Q → (lo ≤ Math_round z ≤ hi)%Z.
Proof.
  intros [Hlo Hhi]. unfold Math_round. split.
  - rewrite <- (Qfloor_Z lo). apply Qfloor_resp_le. lra.
  - pose proof (Qfloor_le (z + (1 # 2))) as Hf.
    assert (Hlt : (inject_Z (Qfloor (z + (1 # 2))) < inject_Z (hi + 1))%Q).
    { rewrite inject_Z_plus. change (inject_Z 1) with 1%Q. lra. }
    rewrite <- Zlt_Qlt in Hlt. lia.
Qed.

(** X21.  The scale never leaves the extent.  After any sequence of
    clicks on the three buttons the scale is between MIN_SCALE = 0.5
    and MAX_SCALE = 3, the read-out holds the scale of the transform
    in force, and the percentage shown is between 50 and 300. *)
Theorem zoom_stays_in_extent bs c :
  let v := clicks bs (mount c) in
  (ZOOM.MIN_SCALE <= d3.k (transform v) <= ZOOM.MAX_SCALE)%Q ∧
  zoomLevel v = d3.k (transform v) ∧
  centre v = c ∧
  (50 ≤ zoomPercent v ≤ 300)%Z ∧
  zoomPercent (mount c) = 80%Z.
Proof.
  intros v. destruct (mount_in_extent c) as [Hm Hc].
  destruct (clicks_in_extent bs _ Hm) as [[Hk Hz] Hc']. fold v in Hk, Hz, Hc'.
  split_and!; [apply Hk | apply Hk | done | congruence | | | reflexivity].
  all: unfold zoomPercent; rewrite Hz;
    apply (Math_round_range _ 50 300);
    unfold ZOOM.MIN_SCALE, ZOOM.MAX_SCALE in Hk;
    change (inject_Z 50) with 50%Q; change (inject_Z 300) with 300%Q; lra.
Qed.

Lemma scaleBy_centre extent c t f :
  ¬ (d3.k t == 0)%Q → ¬ (d3.k (d3.scaleBy extent c t f) == 0)%Q →
  pair_eq (d3.invert (d3.scaleBy extent c t f) c) (d3.invert t c).
Proof.
  intros Hk Hk'. rewrite scaleBy_k in Hk'.
  unfold pair_eq, d3.invert, d3.scaleBy, d3.scaleTo, d3.translateTo,
    d3.clampScale, d3.invert. simpl.
  set (k' := Qmax _ _) in *. split; field; done.
Qed.

(** X22.  The zoom buttons zoom about the centre of the viewport:
    after any sequence of clicks, a click on zoom-in or on zoom-out
    leaves the point of the graph that is shown at the centre where
    it is, also when the scale is already at its bound. *)
Theorem zoom_keeps_centre_point bs c b :
  let v := clicks bs (mount c) in
  b ≠ ResetButton →
  pair_eq (shownAtCentre (click v b)) (shownAtCentre v).
Proof.
  intros v Hb. destruct (mount_in_extent c) as [Hm _].
  destruct (clicks_in_extent bs _ Hm) as [Hv _]. fold v in Hv.
  destruct (click_in_extent v b Hv) as [[Hk' _] Hc].
  destruct Hv as [Hk _]. unfold ZOOM.MIN_SCALE in Hk, Hk'.
  unfold shownAtCentre. rewrite Hc.
  destruct b; [| | done].
  - apply (scaleBy_centre scaleExtent (centre v) (transform v)
             ZOOM.ZOOM_IN_FACTOR); [lra |].
    intros E. change (d3.k (transform (click v ZoomInButton)) == 0)%Q in E.
    lra.
  - apply (scaleBy_centre scaleExtent (centre v) (transform v)
             ZOOM.ZOOM_OUT_FACTOR); [lra |].
    intros E. change (d3.k (transform (click v ZoomOutButton)) == 0)%Q in E.
    lra.
Qed.

(** From the initial view, one click on zoom-in. *)
Lemma zoom_keeps_centre_point_sample :
  pair_eq (shownAtCentre (click (clicks [] (mount (400%Q, 300%Q))) ZoomInButton))
          (shownAtCentre (clicks [] (mount (400%Q, 300%Q)))).
Proof.
  apply (zoom_keeps_centre_point [] (400%Q, 300%Q) ZoomInButton). discriminate.
Defined.

Lemma zoomIn_lower b b' v :
  (b <= d3.k (transform v))%Q → (b' <= b * (13 # 10))%Q → (b' <= 3)%Q →
  (b' <= d3.k (transform (handleZoomIn v)))%Q.
Proof.
  intros Hb Hb' H3. simpl.
  eapply Qle_trans; [| apply Q.le_max_r].
  apply Q.min_glb; [done |]. unfold ZOOM.ZOOM_IN_FACTOR. lra.
Qed.

Lemma zoomIn_top b v :
  (b <= d3.k (transform v))%Q → (3 <= b * (13 # 10))%Q →
  (d3.k (transform (handleZoomIn v)) == 3)%Q.
Proof.
  intros Hb H3. simpl. rewrite Q.min_l.
  - by apply Q.max_r.
  - unfold ZOOM.MAX_SCALE, ZOOM.ZOOM_IN_FACTOR. lra.
Qed.

Lemma zoomOut_upper b b' v :
  (d3.k (transform v) <= b)%Q → (b * (7 # 10) <= b')%Q → (1 # 2 <= b')%Q →
  (d3.k (transform (handleZoomOut v)) <= b')%Q.
Proof.
  intros Hb Hb' H3.
  change (d3.k (transform (handleZoomOut v)))
    with (Qmax ZOOM.MIN_SCALE
            (Qmin ZOOM.MAX_SCALE (d3.k (transform v) * ZOOM.ZOOM_OUT_FACTOR))).
  apply Q.max_lub; [unfold ZOOM.MIN_SCALE; lra |].
  eapply Qle_trans; [apply Q.le_min_r |]. unfold ZOOM.ZOOM_OUT_FACTOR. lra.
Qed.

Lemma zoomOut_bottom b v :
  (d3.k (transform v) <= b)%Q → (b * (7 # 10) <= 1 # 2)%Q →
  (d3.k (transform (handleZoomOut v)) == 1 # 2)%Q.
Proof.
  intros Hb H3.
  change (d3.k (transform (handleZoomOut v)))
    with (Qmax ZOOM.MIN_SCALE
            (Qmin ZOOM.MAX_SCALE (d3.k (transform v) * ZOOM.ZOOM_OUT_FACTOR))).
  rewrite Q.max_l; [reflexivity |].
  eapply Qle_trans; [apply Q.le_min_r |].
  unfold ZOOM.MIN_SCALE, ZOOM.ZOOM_OUT_FACTOR. lra.
Qed.

Lemma zoomPercent_on_zoom v t z :
  (d3.k t == z)%Q → zoomPercent (on_zoom v t) = Math_round (z * 100).
Proof.
  intros E. unfold zoomPercent, Math_round.
  change (zoomLevel (on_zoom v t)) with (d3.k t). apply Qfloor_comp.
  by rewrite E.
Qed.

(** With every transition taken at its end, the buttons saturate:
    seven clicks on zoom-in bring the scale to MAX_SCALE = 3 and the
    read-out to 300%, six clicks on zoom-out bring the scale to
    MIN_SCALE = 0.5 and the read-out to 50%. *)
Lemma clicks_saturate bs c :
  let v := clicks bs (mount c) in
  let top := clicks (repeat ZoomInButton 7) v in
  let bottom := clicks (repeat ZoomOutButton 6) v in
  (d3.k (transform top) == ZOOM.MAX_SCALE)%Q ∧ zoomPercent top = 300%Z ∧
  (d3.k (transform bottom) == ZOOM.MIN_SCALE)%Q ∧ zoomPercent bottom = 50%Z.
Proof.
  intros v top bottom. destruct (mount_in_extent c) as [Hm _].
  destruct (clicks_in_extent bs _ Hm) as [[[Hlo Hhi] _] _]. fold v in Hlo, Hhi.
  unfold ZOOM.MIN_SCALE in Hlo. unfold ZOOM.MAX_SCALE in Hhi.
  assert (Htop : (d3.k (transform top) == 3)%Q).
  { subst top. unfold clicks. cbn [repeat fold_left click].
    eapply (zoomIn_top (237 # 100)); [| lra].
    eapply (zoomIn_lower (183 # 100)); [| lra | lra].
    eapply (zoomIn_lower (141 # 100)); [| lra | lra].
    eapply (zoomIn_lower (109 # 100)); [| lra | lra].
    eapply (zoomIn_lower (84 # 100)); [| lra | lra].
    eapply (zoomIn_lower (65 # 100)); [| lra | lra].
    eapply (zoomIn_lower (1 # 2)); [lra | lra | lra]. }
  assert (Hbot : (d3.k (transform bottom) == 1 # 2)%Q).
  { subst bottom. unfold clicks. cbn [repeat fold_left click].
    eapply (zoomOut_bottom (52 # 100)); [| lra].
    eapply (zoomOut_upper (73 # 100)); [| lra | lra].
    eapply (zoomOut_upper (103 # 100)); [| lra | lra].
    eapply (zoomOut_upper (147 # 100)); [| lra | lra].
    eapply (zoomOut_upper (21 # 10)); [| lra | lra].
    eapply (zoomOut_upper 3); [lra | lra | lra]. }
  split_and!; [exact Htop | | by rewrite Hbot |].
  - subst top. unfold clicks. cbn [repeat fold_left click].
    unfold handleZoomIn at 1. by rewrite (zoomPercent_on_zoom _ _ 3).
  - subst bottom. unfold clicks. cbn [repeat fold_left click].
    unfold handleZoomOut at 1. by rewrite (zoomPercent_on_zoom _ _ (1 # 2)).
Qed.

Lemma settled_clicks tween cs : ∀ st,
  forallb settled cs = true →
  at_rest (timed_clicks tween cs st) = clicks (button <$> cs) (at_rest st).
Proof.
  unfold timed_clicks, clicks, at_rest.
  induction cs as [| tc cs IH]; intros st Hs; simpl; [done |].
  simpl in Hs. apply andb_prop in Hs as [Htc Hs]. rewrite (IH _ Hs).
  unfold timed_click, frame. unfold settled in Htc. by rewrite Htc.
Qed.

(** X23.  The buttons saturate when each transition is left to
    finish.  From a state reached by clicks whose transitions have
    all finished, seven clicks on zoom-in, each arriving after the
    transition of the click before it has finished, bring the scale
    to MAX_SCALE = 3 and the read-out to 300%, and six such clicks on
    zoom-out bring the scale to MIN_SCALE = 0.5 and the read-out to
    50%, whatever the frames in between are.  (Clicks that interrupt
    a running transition do not add up this way, see
    [burst_acts_as_last_click].) *)
Theorem zoom_saturates tween bs c cs :
  let v := clicks bs (mount c) in
  let final := at_rest (timed_clicks tween cs (v, v)) in
  forallb settled cs = true →
  (button <$> cs = repeat ZoomInButton 7 →
   (d3.k (transform final) == ZOOM.MAX_SCALE)%Q ∧ zoomPercent final = 300%Z) ∧
  (button <$> cs = repeat ZoomOutButton 6 →
   (d3.k (transform final) == ZOOM.MIN_SCALE)%Q ∧ zoomPercent final = 50%Z).
Proof.
  intros v final Hs. subst final. rewrite (settled_clicks tween cs _ Hs).
  unfold at_rest. simpl snd.
  destruct (clicks_saturate bs c) as (Hk & Hp & Hk' & Hp'). fold v in Hk, Hp, Hk', Hp'.
  split; intros ->; done.
Qed.

(** Seven settled clicks on zoom-in from the initial view. *)
Lemma zoom_saturates_sample :
  let cs := repeat (mkTimed ZoomInButton 1) 7 in
  let final :=
    at_rest (timed_clicks linear_tween cs
               (mount (400%Q, 300%Q), mount (400%Q, 300%Q))) in
  forallb settled cs = true ∧
  (d3.k (transform final) == ZOOM.MAX_SCALE)%Q ∧ zoomPercent final = 300%Z.
Proof.
  intros cs final. split; [reflexivity |].
  apply (zoom_saturates linear_tween [] (400%Q, 300%Q) cs); reflexivity.
Defined.

Lemma not_started_not_settled p :
  Qle_bool p 0 = true → Qle_bool 1 p = false.
Proof.
  intros H0%Qle_bool_iff. destruct (Qle_bool 1 p) eqn:E; [| done].
  apply Qle_bool_iff in E. lra.
Qed.

(** Without that condition the clicks do not add up.  Clicks that
    each arrive before the transition of the click before them has
    shown a frame leave the view where it was, and only the last one
    takes effect: seven quick clicks on zoom-in from the initial view
    end at scale 0.8 * 1.3 = 1.04, a read-out of 104%. *)
Lemma burst_acts_as_last_click tween cs tc v :
  forallb (λ c, Qle_bool (progress c) 0) (cs ++ [tc]) = true →
  at_rest (timed_clicks tween (cs ++ [tc]) (v, v)) = click v (button tc).
Proof.
  intros H.
  assert (Hfst : ∀ l st,
            forallb (λ c, Qle_bool (progress c) 0) l = true →
            (timed_clicks tween l st).1 = st.1).
  { unfold timed_clicks. induction l as [| c l IH]; intros st Hl; simpl; [done |].
    simpl in Hl. apply andb_prop in Hl as [H0 Hl]. rewrite (IH _ Hl).
    unfold timed_click, frame. simpl.
    by rewrite (not_started_not_settled _ H0), H0. }
  rewrite forallb_app in H. apply andb_prop in H as [Hcs Htc].
  simpl in Htc. rewrite andb_true_r in Htc.
  pose proof (Hfst cs (v, v) Hcs) as E. unfold timed_clicks in E. simpl in E.
  unfold timed_clicks. rewrite fold_left_app. simpl fold_left.
  set (st := fold_left (timed_click tween) cs (v, v)) in *.
  unfold at_rest, timed_click, frame. cbn [fst snd].
  rewrite (not_started_not_settled _ Htc), Htc. by rewrite E.
Qed.

Lemma seven_quick_clicks tween c :
  let final :=
    at_rest (timed_clicks tween (repeat (mkTimed ZoomInButton 0) 7)
               (mount c, mount c)) in
  (d3.k (transform final) == 104 # 100)%Q ∧ zoomPercent final = 104%Z.
Proof.
  intros final. subst final.
  change (repeat (mkTimed ZoomInButton 0) 7)
    with (repeat (mkTimed ZoomInButton 0) 6 ++ [mkTimed ZoomInButton 0]).
  rewrite burst_acts_as_last_click by reflexivity.
  split; reflexivity.
Qed.

(** ** The node groups *)

Lemma drawHubText_total measure label :
  ∃ texts, drawHubText measure label = Some texts.
Proof.
  unfold drawHubText. destruct (fitText_total measure label) as [f ->].
  by eexists.
Qed.

Lemma drawNodes_all measure h ns : ∀ group,
  Forall (λ n, ∃ g, drawNode measure h n = NodeDrawn g) ns →
  drawNodes measure h ns group
  = AllDrawn (group ++ (drawn_group measure h <$> ns)).
Proof.
  induction ns as [| n ns IH]; intros group Hall; simpl.
  - by rewrite app_nil_r.
  - apply list.Forall_cons in Hall as [[g Hg] Hall].
    unfold drawn_group at 1. rewrite Hg, (IH _ Hall), <- app_assoc. done.
Qed.

Lemma drawNode_hub measure h n label :
  get own_type h n = Some main_reservoir → get own_label h n = Some label →
  ∃ texts, drawHubText measure label = Some texts ∧
    drawNode measure h n
    = NodeDrawn (mkGroup (fx h n, fy h n)
                   (HubRect (fill (COLOR_MAP main_reservoir))
                            (stroke (COLOR_MAP main_reservoir)) texts)).
Proof.
  intros Ht Hl. destruct (drawHubText_total measure label) as [texts E].
  exists texts. split; [done |].
  unfold drawNode, type_is. by rewrite Ht, Hl, E.
Qed.

Lemma drawNode_circle measure h n t :
  get own_type h n = Some t → t ≠ main_reservoir →
  drawNode measure h n
  = NodeDrawn (mkGroup (fx h n, fy h n)
      (NodeCircle (fill (COLOR_MAP t)) (stroke (COLOR_MAP t))
         (if NodeType_eqb t inflow then (-20)%Q else 20%Q)
         (if NodeType_eqb t inflow then anchor_end else anchor_start)
         (get own_label h n))).
Proof.
  intros Ht Hne. unfold drawNode, type_is. rewrite Ht.
  by destruct t.
Qed.

Lemma hubs_labelledb_spec h0 data :
  hubs_labelledb h0 data = true → hubs_labelled h0 data.
Proof.
  unfold hubs_labelledb, hubs_labelled. rewrite forallb_forall.
  intros H. apply list.Forall_forall. intros d Hd%list_elem_of_In Ht.
  specialize (H d Hd). rewrite Ht in H.
  by destruct (get own_label h0 d).
Qed.

Lemma own_label_blank e : own_label (blank e) = None.
Proof. done. Qed.

(** X24.  Every node is drawn.  On a graph whose node records all
    carry a type, and a label where the type is main_reservoir, the
    node loop neither throws nor skips: it appends one group per
    node, in the order of the nodes, translated to the node's [fx]
    and [fy] as they are (a node that the layout did not position
    included), with a rectangle exactly for the nodes of type
    main_reservoir and a circle for the others. *)
Theorem every_node_drawn measure data h0 :
  let p := position_nodes data h0 in
  wf_graph h0 data → nodes_typed h0 data → hubs_labelled h0 data →
  ∃ groups,
    renderNodes measure data h0 = AllDrawn groups ∧
    length groups = length (nodes data) ∧
    ∀ i d grp, nodes data !! i = Some d → groups !! i = Some grp →
      translate grp = (fx (p_heap p) (length h0 + i),
                       fy (p_heap p) (length h0 + i)) ∧
      (is_rect (shape grp) = true ↔ get own_type h0 d = Some main_reservoir).
Proof.
  intros p Hwf Hty Hlab.
  unfold nodes_typed in Hty. rewrite list.Forall_forall in Hty.
  unfold hubs_labelled in Hlab. rewrite list.Forall_forall in Hlab.
  assert (Hns : p_nodes p = seq (length h0) (length (nodes data))).
  { by destruct (position_nodes_frame data h0) as (_ & _ & ? & _). }
  assert (Hone : ∀ i d, nodes data !! i = Some d →
            ∃ g, drawNode measure (p_heap p) (length h0 + i) = NodeDrawn g ∧
                 translate g = (fx (p_heap p) (length h0 + i),
                                fy (p_heap p) (length h0 + i)) ∧
                 (is_rect (shape g) = true
                  ↔ get own_type h0 d = Some main_reservoir)).
  { intros i d Hd. pose proof (list_elem_of_lookup_2 _ _ _ Hd) as Hin.
    destruct (Hty d Hin) as [t Ht].
    pose proof (copy_type data h0 i d Hwf Hd) as Ct. fold p in Ct.
    assert (t = main_reservoir ∨ t ≠ main_reservoir) as [-> | Hne]
      by (destruct t; (by left) || (by right)).
    - destruct (Hlab d Hin Ht) as [label Hl].
      pose proof (copy_field own_label data h0 i d own_label_position_free
                    own_label_blank Hwf Hd) as Cl. fold p in Cl.
      destruct (drawNode_hub measure (p_heap p) (length h0 + i) label)
        as (texts & _ & ->); [congruence | congruence |].
      eexists. split; [done |]. by simpl.
    - rewrite (drawNode_circle measure (p_heap p) (length h0 + i) t)
        by congruence.
      eexists. split; [done |]. simpl. split; [done |].
      split; [done | congruence]. }
  exists (drawn_group measure (p_heap p) <$> p_nodes p). split_and!.
  - unfold renderNodes. fold p. rewrite drawNodes_all; [done |].
    rewrite Hns. apply list.Forall_forall. intros n Hn%elem_of_seq.
    destruct (lookup_lt_is_Some_2 (nodes data) (n - length h0)) as [d Hd];
      [lia |].
    destruct (Hone _ d Hd) as (g & Hg & _).
    replace (length h0 + (n - length h0)) with n in Hg by lia. by exists g.
  - by rewrite length_fmap, Hns, length_seq.
  - intros i d grp Hd Hgrp. rewrite Hns, list_lookup_fmap in Hgrp.
    rewrite lookup_seq_lt in Hgrp by (by eapply lookup_lt_Some).
    simpl in Hgrp. injection Hgrp as <-.
    destruct (Hone i d Hd) as (g & Hg & Htr & Hrect).
    unfold drawn_group. by rewrite Hg.
Qed.

(** The graph with a spare main reservoir: five groups. *)
Lemma every_node_drawn_sample :
  ∃ groups,
    renderNodes char_measure twoHubs twoHubs_heap = AllDrawn groups ∧
    length groups = length (nodes twoHubs) ∧
    ∀ i d grp, nodes twoHubs !! i = Some d → groups !! i = Some grp →
      translate grp
      = (fx (p_heap (position_nodes twoHubs twoHubs_heap))
            (length twoHubs_heap + i),
         fy (p_heap (position_nodes twoHubs twoHubs_heap))
            (length twoHubs_heap + i)) ∧
      (is_rect (shape grp) = true
       ↔ get own_type twoHubs_heap d = Some main_reservoir).
Proof.
  apply (every_node_drawn char_measure twoHubs twoHubs_heap).
  - apply wf_graphb_spec. reflexivity.
  - apply nodes_typedb_spec. reflexivity.
  - apply hubs_labelledb_spec. reflexivity.
Defined.

Lemma satellite_placed data h0 i d t :
  let p := position_nodes data h0 in
  wf_graph h0 data → nodes data !! i = Some d →
  get own_type h0 d = Some t → t ≠ main_reservoir →
  ∃ y, placed_at (p_heap p) (length h0 + i)
         (if NodeType_eqb t inflow then leftColumnX else rightColumnX) y.
Proof.
  intros p Hwf Hd Ht Hne.
  assert (Hty : type_is (p_heap p) t (length h0 + i) = true).
  { unfold type_is. subst p. rewrite (copy_type data h0 i d Hwf Hd), Ht.
    by apply NodeType_eqb_eq. }
  pose proof (copy_in_nodes data h0 i d Hd) as Hin. fold p in Hin.
  assert (Hel : length h0 + i ∈ List.filter (type_is (p_heap p) t) (p_nodes p))
    by (by apply filter_elem).
  destruct (position_nodes_lists data h0) as (Li & Lo & Lp & _).
  fold p in Li, Lo, Lp.
  destruct (position_nodes_positioned data h0) as [_ Pin Pout Pproj].
  fold p in Pin, Pout, Pproj.
  destruct t; [done | | |]; simpl.
  - rewrite <- Li in Hel. apply list_elem_of_lookup_1 in Hel as [k Hk].
    eexists. by apply (Pin k).
  - rewrite <- Lo in Hel. apply list_elem_of_lookup_1 in Hel as [k Hk].
    eexists. by apply (Pout k).
  - rewrite <- Lp in Hel. apply list_elem_of_lookup_1 in Hel as [k Hk].
    eexists. by apply (Pproj k).
Qed.

Lemma spoke_main g mainId name rest :
  plain_arrays g →
  g.1 = node_literal mainId name main_reservoir :: rest →
  mainNode (placed_graph g) = Some (length (graph_heap g)).
Proof.
  intros Hplain Hg.
  destruct (position_nodes_lists (graph_data g) (graph_heap g))
    as (_ & _ & _ & Hmain).
  fold (placed_graph g) in Hmain. rewrite Hmain.
  assert (Hns : p_nodes (placed_graph g)
                = seq (length (graph_heap g)) (length g.1)).
  { unfold placed_graph.
    destruct (position_nodes_frame (graph_data g) (graph_heap g))
      as (_ & _ & -> & _).
    unfold graph_data. simpl. by rewrite length_seq. }
  assert (Hhub : g.1 !! 0 = Some (node_literal mainId name main_reservoir))
    by (by rewrite Hg).
  rewrite Hns, Hg. simpl.
  destruct (plain_node_copy own_type g 0 _ Hplain ltac:(done) ltac:(done) Hhub)
    as [_ Ht].
  rewrite Nat.add_0_r in Ht. unfold type_is at 1. by rewrite Ht.
Qed.

Lemma spoke_nodes_drawn measure g mainId name rest lrest :
  plain_arrays g →
  g.1 = node_literal mainId name main_reservoir :: rest →
  Forall2 (link_of mainId) rest lrest →
  ∃ texts groups,
    drawHubText measure name = Some texts ∧
    renderNodes measure (graph_data g) (graph_heap g)
    = AllDrawn (mkGroup (Some contentCenterX, Some contentCenterY)
                  (HubRect (fill (COLOR_MAP main_reservoir))
                           (stroke (COLOR_MAP main_reservoir)) texts)
                :: groups) ∧
    Forall2 circle_of rest groups.
Proof.
  intros Hplain Hg Hpair.
  set (h := p_heap (placed_graph g)). set (n0 := length (graph_heap g)).
  assert (Hns : p_nodes (placed_graph g) = seq n0 (length g.1)).
  { unfold placed_graph.
    destruct (position_nodes_frame (graph_data g) (graph_heap g))
      as (_ & _ & -> & _).
    unfold graph_data. simpl. by rewrite length_seq. }
  assert (Hhub : g.1 !! 0 = Some (node_literal mainId name main_reservoir))
    by (by rewrite Hg).
  (* the hub *)
  destruct (plain_node_copy own_type g 0 _ Hplain ltac:(done) ltac:(done) Hhub)
    as [_ Th].
  destruct (plain_node_copy own_label g 0 _ Hplain own_label_position_free
              own_label_blank Hhub) as [_ Lh].
  rewrite Nat.add_0_r in Th, Lh. fold h n0 in Th, Lh. simpl in Th, Lh.
  destruct (drawNode_hub measure h n0 name Th Lh) as (texts & Etexts & Dh).
  destruct (position_nodes_positioned (graph_data g) (graph_heap g))
    as [Pmain _ _ _].
  fold (placed_graph g) in Pmain.
  pose proof (Pmain _ (spoke_main g mainId name rest Hplain Hg)) as Ph.
  fold h n0 in Ph.
  rewrite (placed_at_fx _ _ _ _ Ph), (placed_at_fy _ _ _ _ Ph) in Dh.
  (* the others *)
  assert (Hsat : ∀ k n, rest !! k = Some n →
            ∃ grp, drawNode measure h (n0 + S k) = NodeDrawn grp ∧
                   circle_of n grp).
  { intros k n Hn.
    destruct (Forall2_lookup_l _ _ _ _ _ Hpair Hn) as (l & _ & Hl).
    assert (Hn' : g.1 !! S k = Some n) by (by rewrite Hg).
    assert (∃ t, own_type n = Some t ∧ t ≠ main_reservoir) as (t & Ht & Hne).
    { destruct Hl as (id & _ & Hl).
      destruct (own_type n) as [[| | |] |]; try done; by eexists. }
    destruct (plain_node_copy own_type g (S k) n Hplain ltac:(done)
                ltac:(done) Hn') as [_ Tn].
    destruct (plain_node_copy own_label g (S k) n Hplain
                own_label_position_free own_label_blank Hn') as [_ Ln].
    fold h n0 in Tn, Ln. rewrite Ht in Tn.
    destruct (satellite_placed (graph_data g) (graph_heap g) (S k) (S k) t)
      as [y Py].
    - by apply plain_wf.
    - by eapply graph_data_node.
    - rewrite <- Ht. apply plain_get; [done |].
      unfold graph_heap. by apply lookup_app_l_Some.
    - done.
    - fold (placed_graph g) in Py. fold h n0 in Py.
      rewrite (drawNode_circle measure h (n0 + S k) t Tn Hne).
      rewrite (placed_at_fx _ _ _ _ Py), (placed_at_fy _ _ _ _ Py), Ln.
      eexists. split; [done |]. by exists t, y. }
  exists texts, (drawn_group measure h <$> seq (S n0) (length rest)).
  split; [done |]. split.
  - unfold renderNodes. fold (placed_graph g). fold h.
    rewrite Hns, Hg. simpl length. rewrite drawNodes_all.
    + simpl. unfold drawn_group at 1. by rewrite Dh.
    + simpl. apply list.Forall_cons. split; [by eexists |].
      apply list.Forall_forall. intros a Ha%elem_of_seq.
      destruct (lookup_lt_is_Some_2 rest (a - S n0)) as [n Hn]; [lia |].
      destruct (Hsat _ n Hn) as (grp & Hgrp & _).
      replace (n0 + S (a - S n0)) with a in Hgrp by lia. by exists grp.
  - apply Forall2_same_length_lookup_2.
    + by rewrite length_fmap, length_seq.
    + intros k n grp Hn Hgrp. rewrite list_lookup_fmap in Hgrp.
      rewrite lookup_seq_lt in Hgrp by (by eapply lookup_lt_Some).
      simpl in Hgrp. injection Hgrp as <-.
      destruct (Hsat k n Hn) as (grp & Hgrp & Hc).
      unfold drawn_group. replace (S (n0 + k)) with (n0 + S k) by lia.
      by rewrite Hgrp.
Qed.

(** X25.  From a configuration to its node groups.  Whatever the
    fields hold and however text is measured, the node loop runs to
    its end on the parsed graph: the first group is the hub's
    rectangle at the origin with the reservoir's name fitted into
    it, and every other node gets a circle in the colours of its
    type, on the left-hand column with its label to the left for an
    inflow, on the right-hand column with its label to the right for
    an outflow or a project. *)
Theorem parsed_config_nodes_drawn measure config :
  let g := parseReservoirConfig config in
  ∃ texts groups,
    drawHubText measure (reservoir_name config) = Some texts ∧
    renderNodes measure (graph_data g) (graph_heap g)
    = AllDrawn (mkGroup (Some contentCenterX, Some contentCenterY)
                  (HubRect (fill (COLOR_MAP main_reservoir))
                           (stroke (COLOR_MAP main_reservoir)) texts)
                :: groups) ∧
    Forall2 circle_of (tail g.1) groups.
Proof.
  intros g. destruct (parsed_shape config) as (rest & Hg & Hpair).
  fold g in Hg, Hpair. rewrite Hg. simpl tail.
  eapply spoke_nodes_drawn; eauto using parsed_plain.
Qed.
